(** * The two-tier caching service of the API gateway

    A shallow embedding of [CachingService] (common/caching): the
    process-local cache, the shared Redis tier, the table of pending
    promises, TTL jitter, the batch orchestrator and the invalidation
    helpers, followed by the properties the specification states about
    them.

    Conventions of the embedding.
    - A JavaScript value is a [JsValue]; a JavaScript [number] is an exact
      rational ([Q]), so rounding, [NaN] and the infinities are outside the
      model.
    - An [async] method is a state transformer that either returns or
      throws ([M]); effects performed before a throw are kept.
    - Redis, [JSON.parse], [JSON.stringify], [Math.random] and the
      configuration service are collaborators of the class: the first is a
      finite map with a log of the commands it received, the others are
      parameters of the development.
    - One caller runs to completion at a time, except in
      [executeWithPendingPromise], which is stated for any behaviour of
      the awaited promise.  [tryInvalidateTokenProperties] (which needs
      [BinaryUtils]) is not part of the embedding.

    The array extension methods the services rely on and the outbound
    HTTP client ([ApiService]) are embedded after the caching service,
    each with the properties its code shows. *)

From Stdlib Require Import Ascii String QArith Qround Qabs Lia Lqa.
From stdpp Require Import base option list gmap strings pretty.

Open Scope string_scope.
Open Scope list_scope.

(** ** JavaScript values and completion records *)

#[local] Unset Elimination Schemes.
Inductive JsValue : Type :=
| JUndefined
| JNull
| JBool (b : bool)
| JNum (q : Q)
| JStr (s : string)
| JArr (items : list JsValue)
| JObj (fields : list (string * JsValue)).
#[local] Set Elimination Schemes.

(** [ToBoolean]: what [if (value)], [!value] and [value ? a : b] test. *)
Definition truthy (v : JsValue) : bool :=
  match v with
  | JUndefined | JNull => false
  | JBool b => b
  | JNum q => negb (Qeq_bool q 0)
  | JStr s => negb (String.eqb s EmptyString)
  | JArr _ | JObj _ => true
  end.

(** [value === null]. *)
Definition is_null (v : JsValue) : bool :=
  match v with JNull => true | _ => false end.

(** [value === undefined]. *)
Definition is_undefined (v : JsValue) : bool :=
  match v with JUndefined => true | _ => false end.

(** The outcome of a call: a returned value or a thrown one. *)
Inductive Result (A : Type) : Type :=
| Ok (a : A)
| Throw (e : JsValue).
Arguments Ok {A} a.
Arguments Throw {A} e.

(** ** The pending-promise table ([executeWithPendingPromise])

    The method is generic in what a promise is.  [S] is the state of the
    process, of which the table is one component ([pendingOf],
    [setPending]); [P] is the type of promise handles; [await p st] is what
    the caller observes when it resumes after awaiting [p] from state [st]:
    the settled outcome and the state of the process at that moment, which
    other callers may have changed in the meantime.  [promise st] is the
    call [promise()]: it returns the handle of the operation it started, or
    throws before returning one. *)

Section SingleFlight.
Context {S P T : Type}.
Variable pendingOf : S → gmap string P.
Variable setPending : gmap string P → S → S.
Variable await : P → S → Result T * S.

Definition executeWithPendingPromise
    (key : string) (promise : S → Result P * S) (st : S) : Result T * S :=
  match pendingOf st !! key with
  | Some pendingGetRemote => await pendingGetRemote st
  | None =>
      (* try { ... } finally { delete this.pendingPromises[key] } *)
      match promise st with
      | (Throw e, st1) =>
          (Throw e, setPending (delete key (pendingOf st1)) st1)
      | (Ok pendingGetRemote, st1) =>
          let st2 := setPending (<[key := pendingGetRemote]> (pendingOf st1)) st1 in
          let '(outcome, st3) := await pendingGetRemote st2 in
          (outcome, setPending (delete key (pendingOf st3)) st3)
      end
  end.
End SingleFlight.

(** ** The state of the process and its collaborators *)

(** Values read from [ApiConfigService]. *)
Record Config : Type := mkConfig {
  getCacheTtl : Q;
  getProcessTtl : Q;
  getPoolLimit : nat;
  getEsdtContractAddress : string
}.

(** One command of a [MULTI] batch: [['set', key, payload, 'ex', ttl]] or
    [['del', key]].  The expiry is [None] when the array read that
    produced it was out of range ([undefined]): the command then reaches
    Redis without the number its [ex] needs. *)
Inductive RedisCommand : Type :=
| CmdSet (key payload : string) (ex : option Q)
| CmdDel (key : string).

(** The calls the service makes on the Redis client, in the order made. *)
Inductive RedisCall : Type :=
| CallGet (key : string)
| CallMGet (keys : list string)
| CallSet (key payload : string) (ex : Q)
| CallMulti (commands : list RedisCommand)
| CallDel (key : string)
| CallKeys (pattern : string)
| CallFlushDb.

(** What the service hands to its [Logger]. *)
Inductive LogEntry : Type :=
| LogError (error : JsValue)
| LogRetries (retries : nat)
| LogDeletingLocal (key : string).

(** Modelled from the spec: [LocalCacheService] (local.cache.service) is
    not part of the sources at hand.  Per the specification it is a
    process-local store with [get(key) -> value | absent],
    [set(key, value, ttl) -> value] and [delete(key)]; it is the field
    [localStore], each entry kept with the TTL it was set with.  Expiry
    needs a clock and is not modelled: the store describes the tier
    while the entries it shows are unexpired, and what is stated about
    serving an entry is stated of a state that holds it, under a
    positive TTL.

    [redisStore] is the shared tier (payload text and the expiry it was
    written with), [pendingPromises] the table of in-flight operations,
    [randomDraws] the number of [Math.random()] calls made so far, and
    [world] whatever the caller-supplied population functions act on. *)
Record State (W : Type) : Type := mkState {
  localStore : gmap string (JsValue * Q);
  redisStore : gmap string (string * option Q);
  pendingPromises : gmap string (Result JsValue);
  redisCalls : list RedisCall;
  logged : list LogEntry;
  randomDraws : nat;
  world : W
}.
Arguments mkState {W}.
Arguments localStore {W}.
Arguments redisStore {W}.
Arguments pendingPromises {W}.
Arguments redisCalls {W}.
Arguments logged {W}.
Arguments randomDraws {W}.
Arguments world {W}.

Section Setters.
Context {W : Type}.

Definition setLocalStore (m : gmap string (JsValue * Q)) (st : State W) : State W :=
  mkState m (redisStore st) (pendingPromises st) (redisCalls st)
          (logged st) (randomDraws st) (world st).

Definition setRedisStore (m : gmap string (string * option Q)) (st : State W) : State W :=
  mkState (localStore st) m (pendingPromises st) (redisCalls st)
          (logged st) (randomDraws st) (world st).

Definition setPendingPromises (m : gmap string (Result JsValue)) (st : State W) : State W :=
  mkState (localStore st) (redisStore st) m (redisCalls st)
          (logged st) (randomDraws st) (world st).

Definition recordCall (c : RedisCall) (st : State W) : State W :=
  mkState (localStore st) (redisStore st) (pendingPromises st)
          (redisCalls st ++ [c]) (logged st) (randomDraws st) (world st).

Definition recordLog (e : LogEntry) (st : State W) : State W :=
  mkState (localStore st) (redisStore st) (pendingPromises st)
          (redisCalls st) (logged st ++ [e]) (randomDraws st) (world st).

Definition setRandomDraws (n : nat) (st : State W) : State W :=
  mkState (localStore st) (redisStore st) (pendingPromises st)
          (redisCalls st) (logged st) n (world st).

Definition setWorld (w : W) (st : State W) : State W :=
  mkState (localStore st) (redisStore st) (pendingPromises st)
          (redisCalls st) (logged st) (randomDraws st) w.
End Setters.

(** The fields of a [ShardTransaction] the service reads;
    [getDataFunctionName] is the decoded function name, if any. *)
Record ShardTransaction : Type := mkShardTransaction {
  sender : string;
  receiver : string;
  getDataFunctionName : option string;
  getDataArgs : option (list string)
}.

(** [x < y] on numbers. *)
Definition Qlt_bool (x y : Q) : bool := negb (Qle_bool y x).

(** ** Computations that may throw *)

Definition M (W A : Type) : Type := State W → Result A * State W.

Definition ret {W A} (a : A) : M W A := λ st, (Ok a, st).

Definition bind {W A B} (m : M W A) (k : A → M W B) : M W B := λ st,
  match m st with
  | (Ok a, st1) => k a st1
  | (Throw e, st1) => (Throw e, st1)
  end.

Notation "'let!' x ':=' m 'in' k" := (bind m (λ x, k))
  (at level 10, x name, m at level 100, k at level 200, only parsing).

(** A callback applied to each element in order, as [Array.prototype.map]
    does when the callback may throw: the first throw ends the loop. *)
Fixpoint mapM {W A B} (f : A → M W B) (l : list A) : M W (list B) :=
  match l with
  | [] => ret []
  | x :: l' => let! y := f x in let! ys := mapM f l' in ret (y :: ys)
  end.

(** A population function acts on the [world] only. *)
Definition Populate (W A : Type) : Type := W → Result A * W.

Definition liftWorld {W A} (f : Populate W A) : M W A := λ st,
  let '(r, w) := f (world st) in (r, setWorld w st).

(** ** Array helpers *)

(** [array.indexOf(x)], [None] standing for [-1]. *)
Definition indexOf (x : nat) (array : list nat) : option nat :=
  fst <$> list_find (λ y, y = x) array.

(** [array.includes(x)]. *)
Definition includes (x : nat) (array : list nat) : bool :=
  bool_decide (x ∈ array).

(** [key.includes('*')]. *)
Definition includesStar (key : string) : bool :=
  match String.index 0 "*" key with Some _ => true | None => false end.

(** [getChunks]: a [reduce] that appends each item to the chunk numbered
    [floor(current / size)], creating the chunk when [result[index]] is
    not there yet.  A JavaScript assignment past the end of an array
    extends it; here the new chunk is written at [index], which is the
    length of [result] at that point whenever [size] is positive. *)
Definition getChunks_step {T} (size : nat) (result : list (list T))
    (entry : nat * T) : list (list T) :=
  let '(current, item) := entry in
  let index := (current / size)%nat in
  let result :=
    match result !! index with
    | Some _ => result
    | None => result ++ replicate (index - length result) [] ++ [[]]
    end in
  alter (λ chunk, chunk ++ [item]) index result.

Definition getChunks {T} (array : list T) (size : nat) : list (list T) :=
  fold_left (getChunks_step size) (imap pair array) [].

(** ** The caching service *)

Section CachingService.
Context {W : Type}.
Variable configService : Config.
(** [JSON.parse(x)] for any argument [x] (a text is [JStr s]); it throws
    on what is not JSON. *)
Variable JSON_parse : JsValue → Result JsValue.
(** [JSON.stringify(x)] for a value [x] other than [undefined], of which
    it makes no text; what is stated of a written payload takes the
    value to be defined. *)
Variable JSON_stringify : JsValue → string.
(** The successive results of [Math.random()]. *)
Variable Math_random_source : nat → Q.
(** Redis glob matching, [glob pattern key]. *)
Variable glob : string → string → bool.

Local Abbreviation M := (M W).

(** *** The Redis client *)

(** The reply of Redis for one key: the payload, or [null]. *)
Definition redisReply (st : State W) (key : string) : JsValue :=
  match redisStore st !! key with
  | Some (payload, _) => JStr payload
  | None => JNull
  end.

Definition asyncGet (key : string) : M JsValue := λ st,
  (Ok (redisReply st key), recordCall (CallGet key) st).

Definition asyncSet (key payload : string) (ex : Q) : M unit := λ st,
  (Ok (), recordCall (CallSet key payload ex)
            (setRedisStore (<[key := (payload, Some ex)]> (redisStore st)) st)).

Definition asyncMGet (keys : list string) : M (list JsValue) := λ st,
  (Ok (map (redisReply st) keys), recordCall (CallMGet keys) st).

(** Redis refuses a [set] whose [ex] has no number and writes nothing
    for it; the other commands of the batch are carried out. *)
Definition applyCommand (store : gmap string (string * option Q))
    (c : RedisCommand) : gmap string (string * option Q) :=
  match c with
  | CmdSet key payload (Some ex) => <[key := (payload, Some ex)]> store
  | CmdSet key payload None => store
  | CmdDel key => delete key store
  end.

Definition asyncMulti (commands : list RedisCommand) : M unit := λ st,
  (Ok (), recordCall (CallMulti commands)
            (setRedisStore (fold_left applyCommand commands (redisStore st)) st)).

Definition asyncDel (key : string) : M unit := λ st,
  (Ok (), recordCall (CallDel key)
            (setRedisStore (delete key (redisStore st)) st)).

Definition asyncKeys (pattern : string) : M (list string) := λ st,
  (Ok (filter (λ key, glob pattern key = true)
              (map fst (map_to_list (redisStore st)))),
   recordCall (CallKeys pattern) st).

Definition asyncFlushDb : M unit := λ st,
  (Ok (), recordCall CallFlushDb (setRedisStore ∅ st)).

(** *** Logger and random numbers *)

Definition logger_log (entry : LogEntry) : M unit := λ st,
  (Ok (), recordLog entry st).

Definition Math_random : M Q := λ st,
  (Ok (Math_random_source (randomDraws st)),
   setRandomDraws (Datatypes.S (randomDraws st)) st).

(** [Math.round(x)] is [floor(x + 1/2)]. *)
Definition Math_round (x : Q) : Z := Qfloor (x + (1 # 2))%Q.
Definition Math_floor (x : Q) : Z := Qfloor x.
Definition Math_min (x y : Q) : Q := if Qle_bool x y then x else y.

(** A parameter [ttl: number = this.configService.getCacheTtl()]. *)
Definition ttlOrDefault (ttl : option Q) : Q :=
  match ttl with Some t => t | None => getCacheTtl configService end.

(** *** Local tier *)

(** [setCacheLocal(key, value, ttl = getCacheTtl())]. *)
Definition setCacheLocal (key : string) (value : JsValue) (ttl : option Q)
    : M JsValue := λ st,
  (Ok value,
   setLocalStore (<[key := (value, ttlOrDefault ttl)]> (localStore st)) st).

Definition getCacheLocal (key : string) : M JsValue := λ st,
  (Ok match localStore st !! key with
      | Some (value, _) => value
      | None => JUndefined
      end,
   st).

Definition deleteInCacheLocal (key : string) : M unit := λ st,
  (Ok (), setLocalStore (delete key (localStore st)) st).

(** *** Remote tier *)

(** [setCacheRemote(key, value, ttl = getCacheTtl())]. *)
Definition setCacheRemote (key : string) (value : JsValue) (ttl : option Q)
    : M JsValue :=
  let! _ := asyncSet key (JSON_stringify value) (ttlOrDefault ttl) in
  ret value.

(** The table of pending promises as seen by one caller running to
    completion: a promise is represented by the outcome it settles with,
    calling an [async] function runs it and yields that outcome (it never
    throws at the call), and awaiting a promise yields the outcome with
    the state as it is. *)
Definition callAsync (operation : M JsValue)
    : State W → Result (Result JsValue) * State W := λ st,
  let '(outcome, st1) := operation st in (Ok outcome, st1).

Definition awaitSettled (p : Result JsValue) : M JsValue := λ st, (p, st).

Definition withPendingPromise (key : string) (operation : M JsValue)
    : M JsValue :=
  executeWithPendingPromise pendingPromises setPendingPromises awaitSettled
    key (callAsync operation).

Definition getCacheRemote (key : string) : M JsValue :=
  let! response := withPendingPromise ("caching:get:" +:+ key) (asyncGet key) in
  if is_undefined response then ret JUndefined
  else λ st, (JSON_parse response, st).

Definition refreshCacheLocal (key : string) (ttl : option Q) : M JsValue :=
  let! value := getCacheRemote key in
  let! _ :=
    if truthy value then
      let! _ := setCacheLocal key value (Some (ttlOrDefault ttl)) in ret ()
    else
      let! _ := logger_log (LogDeletingLocal key) in
      deleteInCacheLocal key in
  ret value.

Definition getCache (key : string) : M JsValue :=
  let! value := getCacheLocal key in
  if truthy value then ret value
  else getCacheRemote key.

Definition setCache (key : string) (value : JsValue) (ttl : option Q)
    : M JsValue :=
  let! _ := setCacheLocal key value (Some (ttlOrDefault ttl)) in
  let! _ := setCacheRemote key value (Some (ttlOrDefault ttl)) in
  ret value.

(** *** TTL jitter *)

Definition spreadTtl (ttl : Q) : M Q :=
  let threshold := 300%Q in
  let spread := 10%Q in
  if Qle_bool threshold ttl then
    let! r1 := Math_random in
    let sign := (Math_round r1 * 2 - 1)%Z in
    let! r2 := Math_random in
    let amount := Math_floor (r2 * ((ttl * spread) / 100))%Q in
    ret (ttl + inject_Z sign * inject_Z amount)%Q
  else ret ttl.

(** *** Batch write and read *)

(** [for (let [index, key] of keys.entries()) setCacheLocal(key,
    values[index], ttls[index])]: a read past the end of [values] is
    [undefined], and past the end of [ttls] it makes [setCacheLocal] use
    its default. *)
Definition batchSetCache_local (keys : list string) (values : list JsValue)
    (ttls : list Q) : M unit :=
  let! _ := mapM (λ '(index, key),
                    setCacheLocal key (default JUndefined (values !! index))
                                  (ttls !! index))
                 (imap pair keys) in
  ret ().

(** The [set] commands of one chunk.  [chunk] holds the
    single-property objects [{ [key]: index }], here pairs; [index] in
    [ttls[index]] is the position inside the chunk. *)
Definition batchSetCache_chunkSets (values : list JsValue) (ttls : list Q)
    (chunk : list (string * nat)) : list RedisCommand :=
  let chunkKeys := map fst chunk in
  let chunkValues := map (λ element, default JUndefined (values !! snd element)) chunk in
  imap (λ index key,
          CmdSet key
                 (JSON_stringify (default JUndefined (chunkValues !! index)))
                 (ttls !! index))
       chunkKeys.

(** [ttls] is an array, which is truthy: the default of [if (!ttls)]
    never applies. *)
Definition batchSetCache (keys : list string) (values : list JsValue)
    (ttls : list Q) : M unit :=
  let! ttls := mapM spreadTtl ttls in
  let! _ := batchSetCache_local keys values ttls in
  (* the 25 in the source is the second argument of map, not of
     getChunks, whose size is then its default, 25 *)
  let chunks := getChunks (imap (λ index key, (key, index)) keys) 25 in
  let sets := concat (map (batchSetCache_chunkSets values ttls) chunks) in
  asyncMulti sets.

Definition batchDelCache (keys : list string) : M unit :=
  let! _ := mapM deleteInCacheLocal keys in
  asyncMulti (map CmdDel keys).

(** [value => (value ? JSON.parse(value) : null)]. *)
Definition batchGetCache_decode (value : JsValue) : Result JsValue :=
  if truthy value then JSON_parse value else Ok JNull.

Definition batchGetCache_chunk (chunkKeys : list string) : M (list JsValue) :=
  let! chunkValues := asyncMGet chunkKeys in
  mapM (λ value st, (batchGetCache_decode value, st)) chunkValues.

Definition batchGetCache (keys : list string) : M (list JsValue) :=
  let chunks := getChunks keys 100 in
  let! results := mapM batchGetCache_chunk chunks in
  ret (concat results).

(** *** The batch orchestrator *)

(** [asyncPool(poolLimit, array, iteratorFn)] (tiny-async-pool) resolves
    to the results in the order of [array] and rejects with the first
    failure.  One caller running to completion makes the calls one
    after the other in that order, whatever [poolLimit] is.  The library
    starts up to [poolLimit] calls before the first one settles, so that
    after a failure calls it had started still run; the embedding stops
    at the failure, which is exact when no call fails and for a chunk of
    one item. *)
Definition asyncPool {IN} (poolLimit : nat) (array : list IN)
    (iteratorFn : IN → Populate W JsValue) : M (list JsValue) :=
  mapM (λ item, liftWorld (iteratorFn item)) array.

(** [cached.map((element, index) => element === null ? index : false)
           .filter(element => element !== false)]. *)
Definition missingIndices (cached : list JsValue) : list nat :=
  omap id (imap (λ index element,
                   if is_null element then Some index else None) cached).

(** [keys.filter((_, index) => missing.includes(index))]. *)
Definition missingKeys (keys : list string) (missing : list nat) : list string :=
  omap id (imap (λ index key,
                   if includes index missing then Some key else None) keys).

(** [cached] has the length of [payload], so every index of [missing]
    is within [payload]; [omap] is [missing.map(index => payload[index])]
    on such indices. *)
Definition batchProcessChunk {IN} (payload : list IN)
    (cacheKeyFunction : IN → string) (handler : IN → Populate W JsValue)
    (ttl : option Q) (skipCache : bool) : M (list JsValue) :=
  let ttl := ttlOrDefault ttl in
  let keys := map cacheKeyFunction payload in
  let! cached :=
    if skipCache then ret (replicate (length keys) JNull)
    else batchGetCache keys in
  let missing := missingIndices cached in
  let! values :=
    if negb (length missing =? 0)%nat then
      let! values := asyncPool (getPoolLimit configService)
                       (omap (λ index, payload !! index) missing) handler in
      let params_keys := missingKeys keys missing in
      let params_ttls :=
        map (λ value, if truthy value then ttl
                      else Math_min ttl (getProcessTtl configService))
            values in
      let! _ := batchSetCache params_keys values params_ttls in
      ret values
    else ret [] in
  ret (imap (λ index _,
               if includes index missing
               then default JUndefined
                      (indexOf index missing ≫= λ i, values !! i)
               else default JUndefined (cached !! index))
            keys).

(** The [while (true)] loop around one chunk, with its [logger.error]
    and [logger.log] calls; [fuel] bounds the number of iterations and
    [None] means it was used up. *)
Fixpoint batchProcess_retry {IN} (fuel : nat) (retries : nat)
    (chunk : list IN) (cacheKeyFunction : IN → string)
    (handler : IN → Populate W JsValue) (ttl : option Q) (skipCache : bool)
    (st : State W) : option (Result (list JsValue) * State W) :=
  match fuel with
  | O => None
  | Datatypes.S fuel =>
      match batchProcessChunk chunk cacheKeyFunction handler ttl skipCache st with
      | (Ok processedChunk, st1) => Some (Ok processedChunk, st1)
      | (Throw error, st1) =>
          let st2 := recordLog (LogRetries retries)
                       (recordLog (LogError error) st1) in
          let retries := Datatypes.S retries in
          if (3 <=? retries)%nat then Some (Throw error, st2)
          else batchProcess_retry fuel retries chunk cacheKeyFunction
                 handler ttl skipCache st2
      end
  end.

(** The [for] loop over the chunks, [result] being the array built so
    far. *)
Fixpoint batchProcess_chunks {IN} (fuel : nat) (chunks : list (list IN))
    (cacheKeyFunction : IN → string) (handler : IN → Populate W JsValue)
    (ttl : option Q) (skipCache : bool) (result : list JsValue)
    (st : State W) : option (Result (list JsValue) * State W) :=
  match chunks with
  | [] => Some (Ok result, st)
  | chunk :: chunks =>
      match batchProcess_retry fuel 0 chunk cacheKeyFunction handler ttl
              skipCache st with
      | None => None
      | Some (Throw error, st1) => Some (Throw error, st1)
      | Some (Ok processedChunk, st1) =>
          batchProcess_chunks fuel chunks cacheKeyFunction handler ttl
            skipCache (result ++ processedChunk) st1
      end
  end.

Definition batchProcess {IN} (fuel : nat) (payload : list IN)
    (cacheKeyFunction : IN → string) (handler : IN → Populate W JsValue)
    (ttl : option Q) (skipCache : bool)
    (st : State W) : option (Result (list JsValue) * State W) :=
  batchProcess_chunks fuel (getChunks payload 100) cacheKeyFunction handler
    ttl skipCache [] st.

(** *** Single-key path *)

(** The [PerformanceProfiler] calls of the source only measure and report
    durations; they are left out. *)
Definition getOrSetCache (key : string) (promise : Populate W JsValue)
    (remoteTtl localTtl : option Q) : M JsValue :=
  let remoteTtl := ttlOrDefault remoteTtl in
  (* if (!localTtl) localTtl = remoteTtl / 2 *)
  let localTtl :=
    match localTtl with
    | Some t => if Qeq_bool t 0 then (remoteTtl / 2)%Q else t
    | None => (remoteTtl / 2)%Q
    end in
  let! cachedValue := getCacheLocal key in
  if negb (is_undefined cachedValue) then ret cachedValue
  else
    let! cached := getCacheRemote key in
    if negb (is_undefined cached) && negb (is_null cached) then
      let! _ := setCacheLocal key cached (Some localTtl) in
      ret cached
    else
      let! value := withPendingPromise ("caching:set:" +:+ key)
                      (liftWorld promise) in
      let! _ :=
        if Qlt_bool 0 localTtl
        then setCacheLocal key value (Some localTtl) else ret value in
      let! _ :=
        if Qlt_bool 0 remoteTtl
        then setCacheRemote key value (Some remoteTtl) else ret value in
      ret value.

(** *** Invalidation *)

Definition deleteInCache (key : string) : M (list string) :=
  if includesStar key then
    let! allKeys := asyncKeys key in
    let! invalidatedKeys :=
      mapM (λ key, let! _ := deleteInCacheLocal key in
                   let! _ := asyncDel key in
                   ret key) allKeys in
    ret invalidatedKeys
  else
    let! _ := deleteInCacheLocal key in
    let! _ := asyncDel key in
    ret [key].

Definition tryInvalidateTokensOnAccount (transaction : ShardTransaction)
    : M (list string) :=
  if negb (String.eqb (sender transaction)
                      (getEsdtContractAddress configService))
  then ret []
  else deleteInCache ("tokens:" +:+ receiver transaction).

Definition tryInvalidateTokenBalance (transaction : ShardTransaction)
    : M (list string) :=
  let transactionFuncName := getDataFunctionName transaction in
  let! _ :=
    if bool_decide (transactionFuncName = Some "ESDTTransfer") then
      let invalidatedKeys : list string := [] in
      let! invalidated := deleteInCache ("tokens:" +:+ sender transaction) in
      let invalidatedKeys := invalidatedKeys ++ invalidated in
      let! invalidated := deleteInCache ("tokens:" +:+ receiver transaction) in
      let invalidatedKeys := invalidatedKeys ++ invalidated in
      ret invalidatedKeys
    else ret [] in
  ret [].

Definition flushDb : M unit := asyncFlushDb.
End CachingService.

(** ** Listing keys ([getKeys]) *)

Section Keys.
Context {W : Type}.
Variable glob : string → string → bool.

(** [getKeys(key)]: [undefined] ([None]) when [key] is [undefined] or the
    empty text. *)
Definition getKeys (key : option string) : M W (option (list string)) :=
  match key with
  | Some key =>
      if negb (String.eqb key EmptyString)
      then let! keys := asyncKeys glob key in ret (Some keys)
      else ret None
  | None => ret None
  end.
End Keys.

(** ** The array extension methods

    [Array.prototype] is extended with a few helpers.  Arrays are lists;
    an element type compared with [===] (by [indexOf]) or by the
    same-value rule of [includes] and [Set] has decidable equality, which
    leaves [NaN] out; a callback tested for truthiness returns a [bool].
    [groupBy], which builds an object keyed by the callback's results, is
    not part of the embedding. *)

Module ArrayPrototype.

Section ArrayExtensions.
Context {T : Type}.

(** [selectMany]: [for (let item of this) result.push(...predicate(item))]. *)
Definition selectMany {TOUT} (array : list T) (predicate : T → list TOUT)
    : list TOUT :=
  fold_left (λ result item, result ++ predicate item) array [].


(** [zip(second, predicate)]: [this.map((element, index) =>
    predicate(element, second[index]))]; [second[index]] is [undefined]
    past the end of [second]. *)
Definition zip {TSecond TResult} (array : list T) (second : list TSecond)
    (predicate : T → option TSecond → TResult) : list TResult :=
  imap (λ index element, predicate element (second !! index)) array.

(** [all(predicate)]: [!this.some(x => !predicate(x))]. *)
Definition all (array : list T) (predicate : T → bool) : bool :=
  negb (existsb (λ x, negb (predicate x)) array).

Context `{EqDecision T}.

(** [this.indexOf(element)], [-1] when there is none. *)
Definition arrayIndexOf (array : list T) (element : T) : Z :=
  match list_find (λ x, x = element) array with
  | Some (index, _) => Z.of_nat index
  | None => (-1)%Z
  end.

(** [remove(element)]: the index found and the array after the [splice]. *)
Definition remove (array : list T) (element : T) : Z * list T :=
  let index := arrayIndexOf array element in
  if (0 <=? index)%Z
  then (index, delete (Z.to_nat index) array)
  else (index, array).

(** [findMissingElements(second)]. *)
Definition findMissingElements (array second : list T) : list T :=
  fold_left (λ missing item,
               if bool_decide (item ∈ second) then missing
               else missing ++ [item])
            array [].

(** [new Set(array)] spread into an array: the elements in the order they
    were first added. *)
Definition setAdd (set : list T) (item : T) : list T :=
  if bool_decide (item ∈ set) then set else set ++ [item].

Definition distinct (array : list T) : list T :=
  fold_left setAdd array [].
End ArrayExtensions.

(** [distinctBy(predicate)]: the loop carries [distinctProjections] and
    [result]. *)
Definition distinctBy_step {T TResult} `{EqDecision TResult}
    (predicate : T → TResult) (state : list TResult * list T) (element : T)
    : list TResult * list T :=
  let '(distinctProjections, result) := state in
  let projection := predicate element in
  if bool_decide (projection ∈ distinctProjections) then state
  else (distinctProjections ++ [projection], result ++ [element]).

Definition distinctBy {T TResult} `{EqDecision TResult}
    (array : list T) (predicate : T → TResult) : list T :=
  snd (fold_left (distinctBy_step predicate) array ([], [])).
End ArrayPrototype.

(** ** The outbound HTTP client ([ApiService])

    [axios], [new URL(url).hostname] and an optional [errorHandler] are
    collaborators; [MetricsService.setExternalCall] and
    [Logger.error] are recorded in the state, the former without the
    duration, which needs a clock. *)

Module ApiService.

(** Values read from [ApiConfigService]; the rate-limiter secret is a
    text or [undefined]. *)
Record ApiConfig : Type := mkApiConfig {
  getUseKeepAliveAgentFlag : bool;
  getAxiosTimeout : Q;
  getRateLimiterSecret : option string
}.

(** The options of the [agentkeepalive] agent; [maxSockets] is [None]
    for [Infinity]. *)
Record Agent : Type := mkAgent {
  keepAlive : bool;
  maxSockets : option nat;
  maxFreeSockets : nat;
  agentTimeout : Q;
  freeSocketTimeout : Q
}.

Record AxiosRequestConfig : Type := mkAxiosRequestConfig {
  timeout : Q;
  httpAgent : option Agent;
  headers : list (string * string);
  transformResponse : list (JsValue → JsValue)
}.

(** The field [keepaliveAgent] is [null] ([None]) until the first
    request, then [undefined] ([Some None]) or the agent. *)
Record ApiState (W : Type) : Type := mkApiState {
  keepaliveAgent : option (option Agent);
  externalCalls : list string;
  errorsLogged : list JsValue;
  network : W
}.
Arguments mkApiState {W}.
Arguments keepaliveAgent {W}.
Arguments externalCalls {W}.
Arguments errorsLogged {W}.
Arguments network {W}.

Definition defaultTimeout : Q := 30000.

(** [timeout || this.defaultTimeout]. *)
Definition timeoutOrDefault (timeout : option Q) : Q :=
  match timeout with
  | Some t => if Qeq_bool t 0 then defaultTimeout else t
  | None => defaultTimeout
  end.

(** The [TypeError] of a property read on [null] or [undefined]. *)
Definition typeError : JsValue := JObj [("name", JStr "TypeError")].

(** [object.name] for the names read from a caught error ([response],
    [data], [status], [message], [name]), which only an object can hold. *)
Definition getProp (object : JsValue) (name : string) : Result JsValue :=
  match object with
  | JUndefined | JNull => Throw typeError
  | JObj fields =>
      Ok match list_find (λ field, field.1 = name) fields with
         | Some (_, (_, value)) => value
         | None => JUndefined
         end
  | _ => Ok JUndefined
  end.

(** [object?.name]. *)
Definition getPropOptional (object : JsValue) (name : string) : JsValue :=
  match getProp object name with
  | Ok value => value
  | Throw _ => JUndefined
  end.

Section ApiService.
Context {W : Type}.
Variable apiConfigService : ApiConfig.
Variable JSON_parse : JsValue → Result JsValue.
(** [new URL(url).hostname]; the constructor throws on what is not a
    URL. *)
Variable URL_hostname : string → Result string.

Definition getKeepAliveAgent (st : ApiState W) : option Agent * ApiState W :=
  match keepaliveAgent st with
  | None =>
      let agent :=
        if getUseKeepAliveAgentFlag apiConfigService
        then Some (mkAgent true None 10 (getAxiosTimeout apiConfigService) 30000)
        else None in
      (agent, mkApiState (Some agent) (externalCalls st) (errorsLogged st)
                         (network st))
  | Some agent => (agent, st)
  end.

Definition getConfig (timeout : option Q) (st : ApiState W)
    : AxiosRequestConfig * ApiState W :=
  let timeout := timeoutOrDefault timeout in
  let headers :=
    match getRateLimiterSecret apiConfigService with
    | Some rateLimiterSecret =>
        if negb (String.eqb rateLimiterSecret EmptyString)
        then [("x-rate-limiter-secret", rateLimiterSecret)] else []
    | None => []
    end in
  let '(agent, st) := getKeepAliveAgent st in
  (mkAxiosRequestConfig timeout agent headers
     [λ data, match JSON_parse data with Ok value => value | Throw _ => data end],
   st).

(** The fields every [customError] reads from the caught error. *)
Definition errorFields (error : JsValue) : Result (list (string * JsValue)) :=
  match getProp error "response" with
  | Throw e => Throw e
  | Ok response =>
      Ok [("response", getPropOptional response "data");
          ("status", getPropOptional response "status");
          ("message", getPropOptional error "message");
          ("name", getPropOptional error "name")]
  end.

(** The body shared by [get], [post] and [head]: [call] is the [axios]
    call, [describe] the fields of [customError] that precede those read
    from the error. *)
Definition request (describe : list (string * JsValue))
    (call : AxiosRequestConfig → W → Result JsValue * W)
    (url : string) (timeout : option Q)
    (errorHandler : option (JsValue → W → Result bool * W))
    (st : ApiState W) : Result JsValue * ApiState W :=
  let timeout := timeoutOrDefault timeout in
  let '(config, st) := getConfig (Some timeout) st in
  let '(outcome, st) :=
    match call config (network st) with
    | (Ok response, w) =>
        (Ok response,
         mkApiState (keepaliveAgent st) (externalCalls st) (errorsLogged st) w)
    | (Throw error, w) =>
        let st := mkApiState (keepaliveAgent st) (externalCalls st)
                             (errorsLogged st) w in
        let '(handled, st) :=
          match errorHandler with
          | Some errorHandler =>
              let '(handled, w) := errorHandler error (network st) in
              (handled,
               mkApiState (keepaliveAgent st) (externalCalls st)
                          (errorsLogged st) w)
          | None => (Ok false, st)
          end in
        match handled with
        | Throw e => (Throw e, st)
        | Ok true => (Ok JUndefined, st)
        | Ok false =>
            match errorFields error with
            | Throw e => (Throw e, st)
            | Ok fields =>
                let customError := JObj (describe ++ fields) in
                (Throw customError,
                 mkApiState (keepaliveAgent st) (externalCalls st)
                            (errorsLogged st ++ [customError]) (network st))
            end
        end
    end in
  (* finally *)
  match URL_hostname url with
  | Throw e => (Throw e, st)
  | Ok hostname =>
      (outcome,
       mkApiState (keepaliveAgent st) (externalCalls st ++ [hostname])
                  (errorsLogged st) (network st))
  end.

Variable axios_get : string → AxiosRequestConfig → W → Result JsValue * W.
Variable axios_post :
  string → JsValue → AxiosRequestConfig → W → Result JsValue * W.
Variable axios_head : string → AxiosRequestConfig → W → Result JsValue * W.

Definition get (url : string) (timeout : option Q)
    (errorHandler : option (JsValue → W → Result bool * W))
    : ApiState W → Result JsValue * ApiState W :=
  request [("method", JStr "GET"); ("url", JStr url)]
          (axios_get url) url timeout errorHandler.

Definition post (url : string) (data : JsValue) (timeout : option Q)
    (errorHandler : option (JsValue → W → Result bool * W))
    : ApiState W → Result JsValue * ApiState W :=
  request [("method", JStr "POST"); ("url", JStr url); ("body", data)]
          (axios_post url data) url timeout errorHandler.

Definition head (url : string) (timeout : option Q)
    (errorHandler : option (JsValue → W → Result bool * W))
    : ApiState W → Result JsValue * ApiState W :=
  request [("method", JStr "HEAD"); ("url", JStr url)]
          (axios_head url) url timeout errorHandler.
End ApiService.

End ApiService.

(** ** Vocabulary of the statements *)

(** [chunks] cuts [array] into pieces of [size] elements, the last one
    holding what is left (at least one element). *)
Definition chunked {T} (size : nat) (array : list T)
    (chunks : list (list T)) : Prop :=
  concat chunks = array ∧
  (chunks = [] ∨
   ∃ full last, chunks = full ++ [last] ∧
     Forall (λ chunk, length chunk = size) full ∧
     (0 < length last ≤ size)%nat).

(** The value the remote tier holds for [key], in the words of the
    specification: the text stored under the key, deserialized.  The
    batch path takes a key for a miss when nothing is stored under it,
    when the text is empty and when the value is [null]; [heldValue] is
    [None] in these cases (and for a text that does not deserialize,
    which the statements exclude). *)
Definition heldValue {W} (JSON_parse : JsValue → Result JsValue)
    (st : State W) (key : string) : option JsValue :=
  match redisStore st !! key with
  | Some (text, _) =>
      if String.eqb text EmptyString then None
      else match JSON_parse (JStr text) with
           | Ok value => if is_null value then None else Some value
           | Throw _ => None
           end
  | None => None
  end.

(** The rest of the vocabulary serves the lemmas on the steps of a
    batch.  What the batch read reports for [key] in state [st]: the
    parsed payload, or the error of [JSON.parse]. *)
Definition batchRead {W} (JSON_parse : JsValue → Result JsValue)
    (st : State W) (key : string) : Result JsValue :=
  batchGetCache_decode JSON_parse (redisReply st key).

(** The entry of the batch result for an item whose population yields
    [populated]: the cached value on a hit, which is a read that is not
    [null], and [populated] on a miss. *)
Definition hitOrPopulated {W} (JSON_parse : JsValue → Result JsValue)
    (st : State W) (key : string) (populated : JsValue) : JsValue :=
  match batchRead JSON_parse st key with
  | Ok cached => if is_null cached then populated else cached
  | Throw _ => populated
  end.

(** The number of [MGET] calls among [calls]. *)
Fixpoint countMGet (calls : list RedisCall) : nat :=
  match calls with
  | [] => 0
  | CallMGet _ :: calls => Datatypes.S (countMGet calls)
  | _ :: calls => countMGet calls
  end.

(** ** A reference instance

    The examples below run the service with these collaborators.
    [scalarParse] and [scalarStringify] agree with [JSON.parse] and
    [JSON.stringify] on the scalars [null], [true], [false], the natural
    numbers and the texts without quote or backslash, which is all the
    examples store; [JSON.parse(null)] is [null] because the argument is
    first converted to the text [null]. *)

Definition isDigit (c : ascii) : bool :=
  let n := nat_of_ascii c in (48 <=? n)%nat && (n <=? 57)%nat.

Fixpoint digitsValue (acc : nat) (s : string) : option nat :=
  match s with
  | EmptyString => Some acc
  | String c s' =>
      if isDigit c then digitsValue (10 * acc + (nat_of_ascii c - 48)) s'
      else None
  end.

Definition quoteChar : ascii := ascii_of_nat 34.
Definition backslashChar : ascii := ascii_of_nat 92.

Fixpoint plainText (s : string) : bool :=
  match s with
  | EmptyString => true
  | String c s' =>
      negb (Ascii.eqb c quoteChar) && negb (Ascii.eqb c backslashChar)
      && plainText s'
  end.

Definition syntaxError : JsValue := JStr "SyntaxError".

Definition scalarParseText (s : string) : Result JsValue :=
  if String.eqb s "null" then Ok JNull
  else if String.eqb s "true" then Ok (JBool true)
  else if String.eqb s "false" then Ok (JBool false)
  else
    match s with
    | EmptyString => Throw syntaxError
    | String c rest =>
        if Ascii.eqb c quoteChar then
          let body := substring 0 (String.length rest - 1) rest in
          if String.eqb (substring (String.length rest - 1) 1 rest)
                        (String quoteChar EmptyString)
             && plainText body
          then Ok (JStr body) else Throw syntaxError
        else if isDigit c && negb (Ascii.eqb c "0"%char && negb (String.eqb rest EmptyString)) then
          match digitsValue 0 s with
          | Some n => Ok (JNum (inject_Z (Z.of_nat n)))
          | None => Throw syntaxError
          end
        else Throw syntaxError
    end.

Definition scalarParse (x : JsValue) : Result JsValue :=
  match x with
  | JStr s => scalarParseText s
  | JNull => Ok JNull
  | _ => Throw syntaxError
  end.

Definition scalarStringify (v : JsValue) : string :=
  match v with
  | JNull => "null"
  | JBool true => "true"
  | JBool false => "false"
  | JNum q => pretty (Z.to_nat (Qfloor q))
  | JStr s => String quoteChar (s +:+ String quoteChar EmptyString)
  | _ => "undefined"
  end.

(** Glob matching with [*] as the only special character. *)
Fixpoint starGlob (pattern key : string) : bool :=
  match pattern with
  | EmptyString => match key with EmptyString => true | _ => false end
  | String c pattern' =>
      if Ascii.eqb c "*"%char then
        (fix star (key : string) : bool :=
           starGlob pattern' key
           || match key with
              | EmptyString => false
              | String _ key' => star key'
              end) key
      else
        match key with
        | EmptyString => false
        | String d key' => Ascii.eqb c d && starGlob pattern' key'
        end
  end.

Definition exampleConfig : Config :=
  mkConfig 600 60 4 "erd1esdt".

Definition emptyState {W} (w : W) : State W :=
  mkState ∅ ∅ ∅ [] [] 0 w.

(** The text [{], which is not JSON, stored under [k]. *)
Definition corruptState : State () :=
  mkState ∅ {["k" := ("{", Some 600%Q)]} ∅ [] [] 0 ().

(** The local tier holds 0 for [k], the remote tier 7. *)
Definition falsyLocalState : State () :=
  mkState {["k" := (JNum 0, 300%Q)]} {["k" := ("7", Some 600%Q)]} ∅ [] [] 0 ().

(** Both tiers hold the token lists of two accounts. *)
Definition tokensState : State () :=
  mkState {["tokens:erd1alice" := (JNum 1, 300%Q);
            "tokens:erd1bob" := (JNum 2, 300%Q)]}
          {["tokens:erd1alice" := ("1", Some 600%Q);
            "tokens:erd1bob" := ("2", Some 600%Q)]}
          ∅ [] [] 0 ().

Definition transferTransaction : ShardTransaction :=
  mkShardTransaction "erd1alice" "erd1bob" (Some "ESDTTransfer") (Some []).

(** A population function that returns 7 and counts its calls. *)
Definition populateSeven : Populate nat JsValue :=
  λ calls, (Ok (JNum 7), Datatypes.S calls).

(** A population function that always fails, counting its calls. *)
Definition alwaysFails {IN} (_ : IN) : Populate nat JsValue :=
  λ calls, (Throw (JStr "unreachable upstream"), Datatypes.S calls).

(** A population function that fails on its first two calls. *)
Definition failsTwice (item : string) : Populate nat JsValue :=
  λ calls,
    (if (calls <? 2)%nat then Throw (JStr "unreachable upstream")
     else Ok (JStr item),
     Datatypes.S calls).

(** The batch of the ordering examples: items [a], [b], [c], keyed
    [k:a], [k:b], [k:c]; population turns an item into the text
    [v:item] and counts its calls; only [k:b] is cached, holding 7. *)
Definition itemKey (item : string) : string := "k:" +:+ item.

Definition populateText (item : string) : Populate nat JsValue :=
  λ calls, (Ok (JStr ("v:" +:+ item)), Datatypes.S calls).

Definition oneHitState : State nat :=
  mkState ∅ {["k:b" := ("7", Some 600%Q)]} ∅ [] [] 0 0%nat.

(** As [oneHitState], with the JSON text [null] stored for [k:b]. *)
Definition nullHitState : State nat :=
  mkState ∅ {["k:b" := ("null", Some 60%Q)]} ∅ [] [] 0 0%nat.

(** A key function that gives every item the key [k]. *)
Definition sharedKey (item : nat) : string := "k".

(** 250 numbered items, keyed [k0] .. [k249], populated by their number. *)
Definition numberKey (item : nat) : string := "k" +:+ pretty item.

Definition populateNumber (item : nat) : Populate nat JsValue :=
  λ calls, (Ok (JNum (inject_Z (Z.of_nat item))), Datatypes.S calls).

(** 26 numbered items of which only the last populates to [null]. *)
Definition populateLastNull (item : nat) : Populate () JsValue :=
  λ w, (Ok (if (item <? 25)%nat then JNum 1 else JNull), w).

(** Another caller is populating [k] and will obtain 5. *)
Definition pendingState : State nat :=
  mkState ∅ ∅ {["caching:set:k" := Ok (JNum 5)]} [] [] 0 0%nat.

(** ** A reference instance of the HTTP collaborators *)

(** The host of an [https://host/path] address; anything else is not a
    URL. *)
Definition exampleHostname (url : string) : Result string :=
  if String.prefix "https://" url then
    let rest := substring 8 (String.length url - 8) url in
    match String.index 0 "/" rest with
    | Some n => Ok (substring 0 n rest)
    | None => Ok rest
    end
  else Throw (JObj [("name", JStr "TypeError")]).

Definition exampleApiConfig : ApiService.ApiConfig :=
  ApiService.mkApiConfig true 61000 (Some "s3cret").

Definition emptyApiState {W} (w : W) : ApiService.ApiState W :=
  ApiService.mkApiState None [] [] w.

(** An upstream that answers every request with status 503, counting
    the requests. *)
Definition unavailable : JsValue :=
  JObj [("message", JStr "Request failed with status code 503");
        ("name", JStr "Error");
        ("response", JObj [("status", JNum 503); ("data", JStr "busy")])].

Definition axiosUnavailable (config : ApiService.AxiosRequestConfig)
    : nat → Result JsValue * nat :=
  λ requests, (Throw unavailable, Datatypes.S requests).

(** An upstream that answers every request with 200 and [pong]. *)
Definition axiosPong (config : ApiService.AxiosRequestConfig)
    : nat → Result JsValue * nat :=
  λ requests,
    (Ok (JObj [("status", JNum 200); ("data", JStr "pong")]),
     Datatypes.S requests).

(** An error handler that takes every error for handled. *)
Definition handleAll (error : JsValue) : nat → Result bool * nat :=
  λ requests, (Ok true, requests).

(** ** Theorems *)

Section SingleFlightFacts.
Context {S P T : Type}.
Variable pendingOf : S → gmap string P.
Variable setPending : gmap string P → S → S.
Variable await : P → S → Result T * S.
Hypothesis pendingOf_setPending :
  ∀ table st, pendingOf (setPending table st) = table.

Local Abbreviation run := (executeWithPendingPromise pendingOf setPending await).

(** C2. With no pending entry for the key, the call invokes the
    operation and registers its promise under the key, so that the
    promise is in the table while it is awaited; whatever the awaited
    promise settles with (a value or a failure) is what the call returns
    or re-raises, and the table has no entry for the key once the call
    completes, also when the operation throws before handing out a
    promise.  With a pending entry, the call awaits that entry and
    returns its outcome without invoking the operation. *)
Theorem executeWithPendingPromise_single_flight
    (key : string) (promise : S → Result P * S) (st : S) :
  (pendingOf st !! key = None →
     (∀ e st1, promise st = (Throw e, st1) →
        ∃ st', run key promise st = (Throw e, st') ∧
               pendingOf st' !! key = None) ∧
     (∀ p st1, promise st = (Ok p, st1) →
        ∃ st2, pendingOf st2 !! key = Some p ∧
               (∀ k, k ≠ key → pendingOf st2 !! k = pendingOf st1 !! k) ∧
               ∀ outcome st3, await p st2 = (outcome, st3) →
                 ∃ st', run key promise st = (outcome, st') ∧
                        pendingOf st' !! key = None)) ∧
  (∀ p, pendingOf st !! key = Some p →
     run key promise st = await p st).
Proof.
  split.
  - intros Hnone. split.
    + intros e st1 Hp. eexists. split.
      * unfold executeWithPendingPromise. rewrite Hnone, Hp. reflexivity.
      * rewrite pendingOf_setPending. apply lookup_delete_eq.
    + intros p st1 Hp.
      exists (setPending (<[key := p]> (pendingOf st1)) st1).
      split; [|split].
      * rewrite pendingOf_setPending. apply lookup_insert_eq.
      * intros k Hk. rewrite pendingOf_setPending.
        by apply lookup_insert_ne.
      * intros outcome st3 Haw. eexists. split.
        -- unfold executeWithPendingPromise. rewrite Hnone, Hp, Haw.
           reflexivity.
        -- rewrite pendingOf_setPending. apply lookup_delete_eq.
  - intros p Hsome. unfold executeWithPendingPromise. by rewrite Hsome.
Qed.
End SingleFlightFacts.

(** *** Sequencing *)

Lemma bind_Ok {W A B} (m : M W A) (k : A → M W B) (st st1 : State W) (a : A) :
  m st = (Ok a, st1) → bind m k st = k a st1.
Proof. intros H. unfold bind. by rewrite H. Qed.

Lemma bind_Throw {W A B} (m : M W A) (k : A → M W B) (st st1 : State W)
    (e : JsValue) :
  m st = (Throw e, st1) → bind m k st = (Throw e, st1).
Proof. intros H. unfold bind. by rewrite H. Qed.

Lemma bind_Ok_inv {W A B} (m : M W A) (k : A → M W B) (st st' : State W)
    (b : B) :
  bind m k st = (Ok b, st') →
  ∃ a st1, m st = (Ok a, st1) ∧ k a st1 = (Ok b, st').
Proof.
  unfold bind. destruct (m st) as [[a|e] st1]; [eauto | discriminate].
Qed.

Lemma mapM_cons {W A B} (f : A → M W B) (x : A) (l : list A) (st : State W) :
  mapM f (x :: l) st
  = bind (f x) (λ y, bind (mapM f l) (λ ys, ret (y :: ys))) st.
Proof. reflexivity. Qed.

Lemma mapM_throws {W A B} (f : A → M W B) (P : State W → Prop)
    (l : list A) (x : A) :
  x ∈ l →
  (∀ s, P s → ∃ e s', f x s = (Throw e, s')) →
  (∀ y r s s', P s → f y s = (Ok r, s') → P s') →
  ∀ s, P s → ∃ e s', mapM f l s = (Throw e, s').
Proof.
  intros Hx Hthrows Hkeeps.
  induction l as [|a l IH]; intros s Hs; [by apply elem_of_nil in Hx|].
  rewrite mapM_cons. destruct (f a s) as [[r|e] s1] eqn:Hfa.
  - erewrite bind_Ok by exact Hfa.
    apply elem_of_cons in Hx as [-> | Hx].
    + destruct (Hthrows s Hs) as (e & s' & He). congruence.
    + destruct (IH Hx s1 (Hkeeps _ _ _ _ Hs Hfa)) as (e & s' & He).
      erewrite bind_Throw by exact He. eauto.
  - erewrite bind_Throw by exact Hfa. eauto.
Qed.

Lemma elem_of_concat {A} (x : A) (ls : list (list A)) :
  x ∈ concat ls ↔ ∃ l, l ∈ ls ∧ x ∈ l.
Proof.
  rewrite list_elem_of_In, in_concat. split.
  - intros (l & Hl & Hx). exists l. by rewrite !list_elem_of_In.
  - intros (l & Hl & Hx). exists l. by rewrite <- !list_elem_of_In.
Qed.

(** *** Chunks *)

Section Chunks.
Context {T : Type}.
Implicit Types (array : list T) (chunks : list (list T)).

Lemma getChunks_snoc array (item : T) size :
  getChunks (array ++ [item]) size
  = getChunks_step size (getChunks array size) (length array, item).
Proof.
  unfold getChunks. rewrite imap_app, fold_left_app. simpl.
  by rewrite Nat.add_0_r.
Qed.

Lemma length_concat_full size (full : list (list T)) :
  Forall (λ chunk, length chunk = size) full →
  length (concat full) = (size * length full)%nat.
Proof.
  induction 1 as [|chunk full Hc _ IH]; simpl; [lia|].
  rewrite length_app, IH, Hc. lia.
Qed.

Lemma getChunks_chunked array size :
  (0 < size)%nat → chunked size array (getChunks array size).
Proof.
  intros Hsize. induction array as [|item array IH] using rev_ind.
  - split; [reflexivity | by left].
  - rewrite getChunks_snoc. destruct IH as [Hconcat Hshape].
    set (chunks := getChunks array size) in *.
    assert (Hlen : length array = length (concat chunks)) by by rewrite Hconcat.
    destruct Hshape as [Hnil | (full & last & Hchunks & Hfull & Hlast)].
    + rewrite Hnil in *. simpl in Hlen.
      destruct array; [|discriminate]. simpl.
      rewrite Nat.Div0.div_0_l. simpl.
      split; [reflexivity|]. right. exists [], [item].
      split; [reflexivity|]. split; [constructor|]. simpl. lia.
    + rewrite Hchunks in *.
      rewrite concat_app, length_app, (length_concat_full size full Hfull) in Hlen.
      simpl in Hlen. rewrite length_app in Hlen. simpl in Hlen.
      unfold getChunks_step.
      destruct (decide (length last = size)) as [Heq | Hne].
      * assert (Hidx : (length array / size = length (full ++ [last]))%nat).
        { rewrite length_app. simpl. symmetry.
          apply (Nat.div_unique _ _ _ 0); lia. }
        rewrite Hidx.
        rewrite (lookup_ge_None_2 (full ++ [last])) by lia.
        rewrite Nat.sub_diag. simpl.
        replace (length (full ++ [last])) with (length (full ++ [last]) + 0)%nat at 1 by lia.
        rewrite alter_app_r. simpl.
        split.
        -- rewrite !concat_app. simpl. rewrite !app_nil_r.
           rewrite <- Hconcat, concat_app. simpl. by rewrite app_nil_r.
        -- right. exists (full ++ [last]), [item].
           split; [reflexivity|]. split; [|simpl; lia].
           apply Forall_app. split; [done|]. by constructor.
      * assert (Hidx : (length array / size = length full)%nat).
        { symmetry. apply (Nat.div_unique _ _ _ (length last)); lia. }
        rewrite Hidx.
        rewrite (lookup_app_r full) by lia.
        rewrite Nat.sub_diag. simpl.
        replace (length full) with (length full + 0)%nat at 1 by lia.
        rewrite alter_app_r. simpl.
        split.
        -- rewrite !concat_app. simpl. rewrite !app_nil_r.
           rewrite <- Hconcat, concat_app. simpl.
           by rewrite app_nil_r, app_assoc.
        -- right. exists full, (last ++ [item]).
           split; [reflexivity|]. split; [done|].
           rewrite length_app. simpl. lia.
Qed.

Lemma chunked_length size array chunks :
  (0 < size)%nat → chunked size array chunks →
  length chunks = ((length array + (size - 1)) / size)%nat.
Proof.
  intros Hsize [Hconcat [-> | (full & last & -> & Hfull & Hlast)]].
  - simpl in Hconcat. subst array. simpl.
    symmetry. apply Nat.div_small. lia.
  - rewrite <- Hconcat, concat_app, !length_app,
      (length_concat_full size full Hfull). simpl.
    rewrite length_app. simpl.
    apply (Nat.div_unique _ _ _ (length last - 1)); lia.
Qed.

Lemma chunked_sizes size array chunks :
  (0 < size)%nat → chunked size array chunks →
  Forall (λ chunk, (0 < length chunk ≤ size)%nat) chunks.
Proof.
  intros Hsize [_ [-> | (full & last & -> & Hfull & Hlast)]]; [constructor|].
  apply Forall_app. split.
  - eapply Forall_impl; [exact Hfull|]. simpl. intros chunk ->. lia.
  - by constructor.
Qed.

Lemma getChunks_single array size :
  (0 < length array ≤ size)%nat → getChunks array size = [array].
Proof.
  intros Hlen.
  destruct (getChunks_chunked array size ltac:(lia)) as [Hconcat Hshape].
  destruct Hshape as [Hnil | (full & last & Hchunks & Hfull & Hlast)].
  - rewrite Hnil in Hconcat. simpl in Hconcat. subst array. simpl in Hlen. lia.
  - rewrite Hchunks in *.
    assert (Hl : length array = length (concat (full ++ [last]))) by by rewrite Hconcat.
    rewrite concat_app, length_app, (length_concat_full size full Hfull) in Hl.
    simpl in Hl. rewrite length_app in Hl. simpl in Hl.
    destruct full as [|chunk full]; [|simpl in Hl; nia].
    simpl in *. rewrite app_nil_r in Hconcat. by subst.
Qed.

Lemma chunked_lookup (size : nat) (array : list T) (chunks : list (list T))
    (c p : nat) (chunk : list T) (item : T) :
  chunked size array chunks →
  chunks !! c = Some chunk → chunk !! p = Some item →
  array !! (size * c + p)%nat = Some item ∧ (p < size)%nat.
Proof.
  intros [Hconcat Hshape] Hchunk Hitem.
  destruct Hshape as [-> | (full & last & -> & Hfull & Hlast)]; [done|].
  assert (Hc : (c < length (full ++ [last]))%nat) by by eapply lookup_lt_Some.
  rewrite length_app in Hc. simpl in Hc.
  assert (Hpre : Forall (λ chunk, length chunk = size) (take c (full ++ [last]))).
  { rewrite take_app_le by lia. by apply Forall_take. }
  assert (Hp : (p < length chunk)%nat) by by eapply lookup_lt_Some.
  split.
  - rewrite <- Hconcat, <- (take_drop_middle _ _ _ Hchunk).
    rewrite concat_app. simpl.
    pose proof (length_concat_full size _ Hpre) as Hlen.
    rewrite length_take_le in Hlen by (rewrite length_app; simpl; lia).
    rewrite lookup_app_r by lia.
    rewrite Hlen, Nat.add_comm, Nat.add_sub.
    by rewrite lookup_app_l.
  - destruct (decide (c = length full)) as [-> | Hne].
    + rewrite lookup_app_r, Nat.sub_diag in Hchunk by lia.
      injection Hchunk as <-. lia.
    + rewrite lookup_app_l in Hchunk by lia.
      apply (proj1 (Forall_lookup _ _) Hfull) in Hchunk. lia.
Qed.
Lemma getChunks_step_app (size : nat) (done rest : list (list T))
    (n : nat) (item : T) :
  (0 < size)%nat →
  getChunks_step size (done ++ rest) ((size * length done + n)%nat, item)
  = done ++ getChunks_step size rest (n, item).
Proof.
  intros Hsize. unfold getChunks_step.
  assert (Hindex : ((size * length done + n) / size
                    = length done + n / size)%nat).
  { rewrite (Nat.mul_comm size), Nat.div_add_l by lia. reflexivity. }
  rewrite Hindex.
  rewrite lookup_app_r by lia.
  replace (length done + n / size - length done)%nat with (n / size)%nat by lia.
  destruct (rest !! (n / size)%nat) as [chunk|] eqn:Hchunk.
  - by rewrite alter_app_r.
  - rewrite length_app.
    replace (length done + n / size - (length done + length rest))%nat
      with (n / size - length rest)%nat by lia.
    rewrite <- app_assoc. by rewrite alter_app_r.
Qed.

(** Chunks do not straddle a multiple of [size]: the chunks of an array
    whose first part has [size * j] elements are the chunks of that part
    followed by the chunks of the rest. *)
Lemma getChunks_app (size j : nat) (before rest : list T) :
  (0 < size)%nat → length before = (size * j)%nat →
  getChunks (before ++ rest) size
  = getChunks before size ++ getChunks rest size.
Proof.
  intros Hsize Hbefore.
  assert (Hdone : length (getChunks before size) = j).
  { rewrite (chunked_length size before) by (by try apply getChunks_chunked).
    rewrite Hbefore. symmetry. apply (Nat.div_unique _ _ _ (size - 1)); lia. }
  induction rest as [|item rest IH] using rev_ind.
  - by rewrite !app_nil_r.
  - rewrite app_assoc, !getChunks_snoc, IH, length_app, Hbefore, <- Hdone.
    by apply getChunks_step_app.
Qed.

Lemma getChunks_cons (chunk after : list T) :
  (0 < length chunk ≤ 100)%nat →
  after = [] ∨ length chunk = 100%nat →
  getChunks (chunk ++ after) 100 = chunk :: getChunks after 100.
Proof.
  intros Hchunk [-> | Hfull].
  - rewrite app_nil_r. by rewrite getChunks_single.
  - rewrite (getChunks_app 100 1) by lia. by rewrite getChunks_single.
Qed.
End Chunks.

(** *** Jitter *)

Lemma Math_round_unit (r : Q) :
  (0 <= r)%Q → (r < 1)%Q → Math_round r = 0%Z ∨ Math_round r = 1%Z.
Proof.
  intros H0 H1. unfold Math_round.
  pose proof (Qfloor_le (r + (1 # 2))) as Hle.
  pose proof (Qlt_floor (r + (1 # 2))) as Hlt.
  assert (Hlo : (0 <= Qfloor (r + (1 # 2)))%Z).
  { apply Z.lt_succ_r. rewrite <- Z.add_1_r. rewrite Zlt_Qlt.
    rewrite inject_Z_plus in *. change (inject_Z 1) with 1%Q in *.
    change (inject_Z 0) with 0%Q. lra. }
  assert (Hhi : (Qfloor (r + (1 # 2)) < 2)%Z).
  { rewrite Zlt_Qlt. change (inject_Z 2) with 2%Q. lra. }
  lia.
Qed.

Lemma Math_floor_scaled (r y : Q) :
  (0 <= r)%Q → (r < 1)%Q → (0 <= y)%Q →
  (0 <= inject_Z (Math_floor (r * y)))%Q ∧ (inject_Z (Math_floor (r * y)) <= y)%Q.
Proof.
  intros H0 H1 Hy. unfold Math_floor.
  assert (Hry : (0 <= r * y)%Q) by (apply Qmult_le_0_compat; assumption).
  assert (Hry' : (r * y <= y)%Q) by nra.
  split.
  - change 0%Q with (inject_Z 0). rewrite <- Zle_Qle.
    apply Qfloor_resp_le in Hry. exact Hry.
  - pose proof (Qfloor_le (r * y)). lra.
Qed.

Lemma spread_fraction (ttl : Q) : (ttl * 10 / 100 == ttl * (10 # 100))%Q.
Proof.
  unfold Qdiv. assert (H : (/ 100 == 1 # 100)%Q) by reflexivity.
  rewrite H. ring.
Qed.

Section Jitter.
Context {W : Type}.
Variable Math_random_source : nat → Q.
Hypothesis random_unit :
  ∀ n, (0 <= Math_random_source n)%Q ∧ (Math_random_source n < 1)%Q.

(** C9. Whatever [Math.random()] returns (numbers of [0, 1)),
    [spreadTtl] returns normally; for a [ttl] of at least 300 the result
    differs from [ttl] by at most 10% of [ttl], so that [spreadTtl(1000)]
    lies in [900, 1100]; for a [ttl] below 300 the result is [ttl] itself
    and no random number is drawn. *)
Theorem spreadTtl_bounds (ttl : Q) (st : State W) :
  ∃ ttl' st', spreadTtl Math_random_source ttl st = (Ok ttl', st') ∧
    ((300 <= ttl)%Q → (Qabs (ttl' - ttl) <= ttl * (10 # 100))%Q) ∧
    (ttl == 1000 → (900 <= ttl')%Q ∧ (ttl' <= 1100)%Q) ∧
    ((ttl < 300)%Q → ttl' = ttl ∧ st' = st).
Proof.
  unfold spreadTtl. destruct (Qle_bool 300 ttl) eqn:Hthr.
  - apply Qle_bool_iff in Hthr.
    set (r1 := Math_random_source (randomDraws st)).
    set (r2 := Math_random_source (Datatypes.S (randomDraws st))).
    destruct (random_unit (randomDraws st)) as [Ha Hb].
    destruct (random_unit (Datatypes.S (randomDraws st))) as [Hc Hd].
    fold r1 in Ha, Hb. fold r2 in Hc, Hd.
    pose proof (spread_fraction ttl) as Hfrac.
    set (y := (ttl * 10 / 100)%Q) in *.
    assert (Hy : (0 <= y)%Q) by lra.
    destruct (Math_floor_scaled r2 y Hc Hd Hy) as [Hlo Hhi].
    set (amount := inject_Z (Math_floor (r2 * y))) in *.
    assert (Hbound :
      (- (ttl * (10 # 100)) <= inject_Z (Math_round r1 * 2 - 1) * amount)%Q
      ∧ (inject_Z (Math_round r1 * 2 - 1) * amount <= ttl * (10 # 100))%Q).
    { clearbody amount y.
      destruct (Math_round_unit r1 Ha Hb) as [-> | ->].
      - change (inject_Z (0 * 2 - 1)) with (-1)%Q. split; lra.
      - change (inject_Z (1 * 2 - 1)) with 1%Q. split; lra. }
    set (off := (inject_Z (Math_round r1 * 2 - 1) * amount)%Q) in *.
    destruct Hbound as [Hb1 Hb2].
    exists (ttl + off)%Q. eexists. split; [reflexivity|].
    clearbody off. split; [|split].
    + intros _. apply (proj2 (Qabs_Qle_condition _ _)). split; lra.
    + intros Heq. split; lra.
    + intros Hlt. lra.
  - eexists _, _. split; [reflexivity|].
    assert (Hn : ¬ (300 <= ttl)%Q)
      by (intros H; apply Qle_bool_iff in H; congruence).
    split; [|split].
    + intros H. contradiction.
    + intros Heq. exfalso. apply Hn. rewrite Heq. discriminate.
    + auto.
Qed.
End Jitter.

Lemma spreadTtl_bounds_witness :
  ∃ ttl' st',
    spreadTtl (λ _, 1 # 2) 1000 (emptyState ()) = (Ok ttl', st') ∧
    ((300 <= 1000)%Q → (Qabs (ttl' - 1000) <= 1000 * (10 # 100))%Q) ∧
    (1000 == 1000 → (900 <= ttl')%Q ∧ (ttl' <= 1100)%Q) ∧
    ((1000 < 300)%Q → ttl' = 1000%Q ∧ st' = emptyState ()).
Proof.
  apply (spreadTtl_bounds (λ _, 1 # 2)).
  intros n. split; [discriminate | reflexivity].
Defined.

Example spreadTtl_1000_half :
  fst (spreadTtl (λ _, 1 # 2) 1000 (emptyState ())) = Ok (1000 + 1 * 50)%Q.
Proof. reflexivity. Qed.

Example spreadTtl_100 :
  spreadTtl (λ _, 1 # 2) 100 (emptyState ()) = (Ok 100%Q, emptyState ()).
Proof. reflexivity. Qed.

(** *** Reads through the two tiers *)

Section Reads.
Context {W : Type}.
Variable configService : Config.
Variable JSON_parse : JsValue → Result JsValue.
Variable JSON_stringify : JsValue → string.

(** The response [getCacheRemote] parses when nobody else is fetching
    the key: the reply of Redis, the table being left as it was. *)
Lemma withPendingPromise_asyncGet (key : string) (st : State W) :
  pendingPromises st !! ("caching:get:" +:+ key) = None →
  ∃ st1,
    withPendingPromise ("caching:get:" +:+ key) (asyncGet key) st
    = (Ok (redisReply st key), st1) ∧
    localStore st1 = localStore st ∧
    redisStore st1 = redisStore st ∧
    pendingPromises st1 = pendingPromises st ∧
    redisCalls st1 = redisCalls st ++ [CallGet key] ∧
    world st1 = world st.
Proof.
  intros Hnone. unfold withPendingPromise, executeWithPendingPromise.
  rewrite Hnone. simpl. eexists. split; [reflexivity|]. simpl.
  repeat split. rewrite delete_insert_eq. by apply delete_id.
Qed.

(** C10. When the local tier holds a falsy value for the key (null, 0,
    the empty text, false), [getCache] does not return it: its result is
    that of the remote read.  [getOrSetCache] returns any local value
    other than [undefined], falsy or not, at once: nothing is fetched,
    populated or written. *)
Theorem getCache_skips_falsy_local (key : string) (value : JsValue) (ttl : Q)
    (promise : Populate W JsValue) (remoteTtl localTtl : option Q)
    (st : State W) :
  localStore st !! key = Some (value, ttl) →
  (truthy value = false →
     getCache JSON_parse key st = getCacheRemote JSON_parse key st) ∧
  (value ≠ JUndefined →
     getOrSetCache configService JSON_parse JSON_stringify key promise
       remoteTtl localTtl st = (Ok value, st)).
Proof.
  intros Hlocal. split.
  - intros Hfalsy. unfold getCache, bind, getCacheLocal.
    rewrite Hlocal, Hfalsy. reflexivity.
  - intros Hdef. unfold getOrSetCache, bind, getCacheLocal.
    rewrite Hlocal. destruct value; try reflexivity. contradiction.
Qed.

Lemma mapM_decode_state (values : list JsValue) (s s' : State W)
    (outcome : Result (list JsValue)) :
  mapM (λ value s, (batchGetCache_decode JSON_parse value, s)) values s
  = (outcome, s') →
  s' = s.
Proof.
  revert outcome. induction values as [|value values IH]; intros outcome.
  - intros [= _ <-]. reflexivity.
  - rewrite mapM_cons. unfold bind at 1.
    destruct (batchGetCache_decode JSON_parse value) as [v|e]; [|by intros [= _ <-]].
    unfold bind at 1.
    destruct (mapM _ values s) as [[vs|e] s1] eqn:Hrest;
      intros [= _ <-]; by eapply IH.
Qed.

Lemma batchGetCache_chunk_store (chunkKeys : list string) (s s' : State W)
    (outcome : Result (list JsValue)) :
  batchGetCache_chunk JSON_parse chunkKeys s = (outcome, s') →
  redisStore s' = redisStore s.
Proof.
  unfold batchGetCache_chunk. erewrite bind_Ok by reflexivity.
  intros Hrun. apply mapM_decode_state in Hrun. by subst s'.
Qed.

Lemma batchGetCache_chunk_throws (chunkKeys : list string) (key payload : string)
    (ex : option Q) (error : JsValue) (s : State W) :
  key ∈ chunkKeys →
  redisStore s !! key = Some (payload, ex) →
  payload ≠ EmptyString →
  JSON_parse (JStr payload) = Throw error →
  ∃ e s', batchGetCache_chunk JSON_parse chunkKeys s = (Throw e, s').
Proof.
  intros Hkey Hstore Hne Hparse.
  unfold batchGetCache_chunk. erewrite bind_Ok by reflexivity.
  apply (mapM_throws _ (λ _ : State W, True) _ (redisReply s key));
    [| |done|done].
  - by apply list_elem_of_fmap_2.
  - intros s0 _. unfold redisReply. rewrite Hstore.
    unfold batchGetCache_decode.
    destruct payload as [|c payload']; [contradiction|].
    simpl. rewrite Hparse. eauto.
Qed.

(** C3 (as the code has it). A payload that [JSON.parse] rejects is not
    read as absent: [getCacheRemote] throws what [JSON.parse] threw, and
    [batchGetCache] throws for every list of keys that holds the key,
    unless the payload is the empty text, which the batch read takes for
    an absent key without parsing it. *)
Theorem getCacheRemote_propagates_parse_failure (key payload : string)
    (ex : option Q) (error : JsValue) (st : State W) :
  redisStore st !! key = Some (payload, ex) →
  JSON_parse (JStr payload) = Throw error →
  (pendingPromises st !! ("caching:get:" +:+ key) = None →
     ∃ st', getCacheRemote JSON_parse key st = (Throw error, st')) ∧
  (payload ≠ EmptyString →
     (∃ st', batchGetCache JSON_parse [key] st = (Throw error, st')) ∧
     (∀ keys, key ∈ keys →
        ∃ error' st', batchGetCache JSON_parse keys st = (Throw error', st'))) ∧
  (payload = EmptyString →
     ∃ st', batchGetCache JSON_parse [key] st = (Ok [JNull], st')).
Proof.
  intros Hstore Hparse. split; [|split].
  - intros Hnone.
    destruct (withPendingPromise_asyncGet key st Hnone) as (st1 & Hrun & _).
    unfold redisReply in Hrun. rewrite Hstore in Hrun.
    unfold getCacheRemote, bind. rewrite Hrun.
    simpl. rewrite Hparse. eauto.
  - intros Hne. split.
    + unfold batchGetCache, bind. simpl.
      unfold batchGetCache_chunk, bind, asyncMGet, redisReply. simpl.
      rewrite Hstore. unfold batchGetCache_decode.
      destruct payload as [|c payload']; [contradiction|].
      simpl. unfold bind. rewrite Hparse. eauto.
    + intros keys Hkey. unfold batchGetCache.
      destruct (getChunks_chunked keys 100 ltac:(lia)) as [Hconcat _].
      rewrite <- Hconcat in Hkey.
      apply elem_of_concat in Hkey as (chunk & Hchunk & Hkey).
      destruct (mapM_throws (batchGetCache_chunk JSON_parse)
                  (λ s : State W, redisStore s = redisStore st)
                  (getChunks keys 100) chunk Hchunk) with (s := st)
        as (e & s' & Hrun).
      * intros s Hs. apply (batchGetCache_chunk_throws chunk key payload ex error);
          [done | by rewrite Hs | done | done].
      * intros y r s s' Hs Hy.
        apply batchGetCache_chunk_store in Hy. congruence.
      * reflexivity.
      * erewrite bind_Throw by exact Hrun. eauto.
  - intros ->. unfold batchGetCache, bind. simpl.
    unfold batchGetCache_chunk, bind, asyncMGet, redisReply. simpl.
    rewrite Hstore. simpl. eauto.
Qed.
End Reads.

(** C3 as stated fails: with the text [{] stored under [k], neither read
    reports the key absent; both throw the [SyntaxError]. *)
Lemma getCacheRemote_corrupt_counterexample :
  redisStore corruptState !! "k" = Some ("{", Some 600%Q) ∧
  scalarParse (JStr "{") = Throw syntaxError ∧
  fst (getCacheRemote scalarParse "k" corruptState) = Throw syntaxError ∧
  fst (batchGetCache scalarParse ["k"] corruptState) = Throw syntaxError.
Proof. repeat split. Qed.

Lemma getCacheRemote_propagates_parse_failure_witness :
  (pendingPromises corruptState !! ("caching:get:" +:+ "k") = None →
     ∃ st', getCacheRemote scalarParse "k" corruptState = (Throw syntaxError, st')) ∧
  ("{" ≠ EmptyString →
     (∃ st', batchGetCache scalarParse ["k"] corruptState
             = (Throw syntaxError, st')) ∧
     (∀ keys, "k" ∈ keys →
        ∃ error' st', batchGetCache scalarParse keys corruptState
                      = (Throw error', st'))) ∧
  ("{" = EmptyString →
     ∃ st', batchGetCache scalarParse ["k"] corruptState = (Ok [JNull], st')).
Proof.
  apply (getCacheRemote_propagates_parse_failure scalarParse "k" "{"
           (Some 600%Q) syntaxError corruptState); reflexivity.
Defined.

Lemma getCache_skips_falsy_local_witness :
  (truthy (JNum 0) = false →
     getCache scalarParse "k" falsyLocalState
     = getCacheRemote scalarParse "k" falsyLocalState) ∧
  (JNum 0 ≠ JUndefined →
     getOrSetCache exampleConfig scalarParse scalarStringify "k"
       (λ w, (Ok (JNum 9), w)) (Some 600%Q) None falsyLocalState
     = (Ok (JNum 0), falsyLocalState)).
Proof.
  apply (getCache_skips_falsy_local exampleConfig scalarParse scalarStringify
           "k" (JNum 0) 300%Q).
  reflexivity.
Defined.

Example falsy_values :
  truthy JNull = false ∧ truthy (JNum 0) = false ∧
  truthy (JStr EmptyString) = false ∧ truthy (JBool false) = false ∧
  truthy (JArr []) = true.
Proof. repeat split. Qed.

Example getCache_falsy_local_reads_remote :
  fst (getCache scalarParse "k" falsyLocalState) = Ok (JNum 7).
Proof. reflexivity. Qed.

(** *** Invalidation *)

Section Invalidation.
Context {W : Type}.
Variable glob : string → string → bool.

Lemma deleteInCache_without_star (key : string) (st : State W) :
  includesStar key = false →
  deleteInCache glob key st
  = (Ok [key],
     recordCall (CallDel key)
       (setRedisStore (delete key (redisStore st))
          (setLocalStore (delete key (localStore st)) st))).
Proof. intros Hstar. unfold deleteInCache. rewrite Hstar. reflexivity. Qed.

(** C7 (as the code has it). For a key without [*], [deleteInCache]
    removes the key from both tiers, leaves the other keys alone and
    returns the one-element list holding the key, whether or not the key
    was there.  Deleting the same key again succeeds, removes nothing
    and returns the same one-element list. *)
Theorem deleteInCache_exact (key : string) (st : State W) :
  includesStar key = false →
  ∃ st1 st2,
    deleteInCache glob key st = (Ok [key], st1) ∧
    localStore st1 !! key = None ∧ redisStore st1 !! key = None ∧
    (∀ k, k ≠ key → localStore st1 !! k = localStore st !! k
                    ∧ redisStore st1 !! k = redisStore st !! k) ∧
    deleteInCache glob key st1 = (Ok [key], st2) ∧
    localStore st2 = localStore st1 ∧ redisStore st2 = redisStore st1.
Proof.
  intros Hstar. eexists _, _.
  split; [apply (deleteInCache_without_star key st Hstar)|]. simpl.
  split; [apply lookup_delete_eq|]. split; [apply lookup_delete_eq|].
  split.
  - intros k Hk. by rewrite !lookup_delete_ne.
  - split; [apply deleteInCache_without_star; exact Hstar|]. simpl.
    by rewrite !delete_delete_eq.
Qed.

Lemma mapM_delete_ok (keys : list string) (st : State W) :
  ∃ st',
    mapM (λ key, let! _ := deleteInCacheLocal key in
                 let! _ := asyncDel key in
                 ret key) keys st = (Ok keys, st').
Proof.
  revert st. induction keys as [|key keys IH]; intros st; simpl.
  - eexists. reflexivity.
  - unfold bind at 1. simpl.
    edestruct IH as [st' Hst']. unfold bind at 1. rewrite Hst'.
    eexists. reflexivity.
Qed.

Lemma deleteInCache_returns (key : string) (st : State W) :
  ∃ invalidatedKeys st',
    deleteInCache glob key st = (Ok invalidatedKeys, st').
Proof.
  unfold deleteInCache. destruct (includesStar key).
  - unfold bind at 1. simpl.
    edestruct mapM_delete_ok as [st' Hst']. unfold bind. rewrite Hst'.
    eexists _, _. reflexivity.
  - eexists _, _. reflexivity.
Qed.

(** For an [ESDTTransfer] between addresses without [*], both token
    lists are gone from both tiers after the call. *)
Lemma tryInvalidateTokenBalance_deletes (transaction : ShardTransaction)
    (st : State W) :
  getDataFunctionName transaction = Some "ESDTTransfer" →
  includesStar ("tokens:" +:+ sender transaction) = false →
  includesStar ("tokens:" +:+ receiver transaction) = false →
  ∃ st',
    tryInvalidateTokenBalance glob transaction st = (Ok [], st') ∧
    ∀ key,
      key = "tokens:" +:+ sender transaction
      ∨ key = "tokens:" +:+ receiver transaction →
      localStore st' !! key = None ∧ redisStore st' !! key = None.
Proof.
  intros Hname Hsender Hreceiver. unfold tryInvalidateTokenBalance.
  rewrite bool_decide_eq_true_2 by exact Hname.
  erewrite bind_Ok; last first.
  { erewrite bind_Ok by (apply deleteInCache_without_star; exact Hsender).
    erewrite bind_Ok by (apply deleteInCache_without_star; exact Hreceiver).
    reflexivity. }
  eexists. split; [reflexivity|]. simpl.
  intros key [-> | ->].
  - destruct (decide ("tokens:" +:+ receiver transaction
                      = "tokens:" +:+ sender transaction)) as [-> | Hne].
    + by rewrite !lookup_delete_eq.
    + by rewrite !(lookup_delete_ne _ _ _ Hne), !lookup_delete_eq.
  - by rewrite !lookup_delete_eq.
Qed.

(** C8 (what the code does). Whatever the transaction,
    [tryInvalidateTokenBalance] returns the empty list: the keys it
    collects for an [ESDTTransfer] are dropped. *)
Theorem tryInvalidateTokenBalance_returns_empty
    (transaction : ShardTransaction) (st : State W) :
  fst (tryInvalidateTokenBalance glob transaction st) = Ok [].
Proof.
  unfold tryInvalidateTokenBalance. case_bool_decide; [|reflexivity].
  unfold bind.
  destruct (deleteInCache_returns ("tokens:" +:+ sender transaction) st)
    as (ks1 & st1 & ->).
  destruct (deleteInCache_returns ("tokens:" +:+ receiver transaction) st1)
    as (ks2 & st2 & ->).
  reflexivity.
Qed.
End Invalidation.

(** C7 as stated fails: the second of two successive deletions finds the
    key in neither tier and still reports it. *)
Lemma deleteInCache_twice_counterexample :
  let st1 := snd (deleteInCache starGlob "tokens:erd1bob" tokensState) in
  localStore st1 !! "tokens:erd1bob" = None ∧
  redisStore st1 !! "tokens:erd1bob" = None ∧
  fst (deleteInCache starGlob "tokens:erd1bob" st1) = Ok ["tokens:erd1bob"] ∧
  fst (deleteInCache starGlob "tokens:erd1bob" st1) ≠ Ok [].
Proof. vm_compute. repeat split. discriminate. Qed.

Lemma deleteInCache_exact_witness :
  ∃ st1 st2,
    deleteInCache starGlob "tokens:erd1bob" tokensState
    = (Ok ["tokens:erd1bob"], st1) ∧
    localStore st1 !! "tokens:erd1bob" = None ∧
    redisStore st1 !! "tokens:erd1bob" = None ∧
    (∀ k, k ≠ "tokens:erd1bob" →
       localStore st1 !! k = localStore tokensState !! k
       ∧ redisStore st1 !! k = redisStore tokensState !! k) ∧
    deleteInCache starGlob "tokens:erd1bob" st1 = (Ok ["tokens:erd1bob"], st2) ∧
    localStore st2 = localStore st1 ∧ redisStore st2 = redisStore st1.
Proof.
  apply (deleteInCache_exact starGlob "tokens:erd1bob" tokensState).
  reflexivity.
Defined.

(** The transfer from alice to bob: both token lists leave both tiers,
    and the caller is told that nothing was invalidated. *)
Example tryInvalidateTokenBalance_transfer :
  let '(result, st') :=
    tryInvalidateTokenBalance starGlob transferTransaction tokensState in
  result = Ok [] ∧
  localStore st' = ∅ ∧ redisStore st' = ∅ ∧
  redisCalls st' = [CallDel "tokens:erd1alice"; CallDel "tokens:erd1bob"].
Proof. vm_compute. repeat split. Qed.

(** The sibling rule returns what [deleteInCache] returned. *)
Example tryInvalidateTokensOnAccount_returns_keys :
  fst (tryInvalidateTokensOnAccount exampleConfig starGlob
         (mkShardTransaction "erd1esdt" "erd1bob" None None) tokensState)
  = Ok ["tokens:erd1bob"].
Proof. reflexivity. Qed.

(** *** The single-key path *)

Section SingleKey.
Context {W : Type}.
Variable configService : Config.
Variable JSON_parse : JsValue → Result JsValue.
Variable JSON_stringify : JsValue → string.

End SingleKey.


Example getOrSetCache_negative_localTtl :
  localStore
    (snd (getOrSetCache exampleConfig scalarParse scalarStringify "k"
            populateSeven (Some 600%Q) (Some (-1)%Q) (emptyState 0%nat)))
    !! "k"
  = None.
Proof. reflexivity. Qed.


(** *** Retrying a chunk *)

Section Retry.
Context {W IN : Type}.
Variable configService : Config.
Variable JSON_parse : JsValue → Result JsValue.
Variable JSON_stringify : JsValue → string.
Variable Math_random_source : nat → Q.
Variable cacheKeyFunction : IN → string.
Variable handler : IN → Populate W JsValue.
Variable ttl : option Q.
Variable skipCache : bool.

Local Abbreviation run fuel :=
  (λ payload, batchProcess configService JSON_parse JSON_stringify
                Math_random_source fuel payload cacheKeyFunction handler ttl
                skipCache).
Local Abbreviation attempt chunk :=
  (batchProcessChunk configService JSON_parse JSON_stringify
     Math_random_source chunk cacheKeyFunction handler ttl skipCache).
Local Abbreviation failed error retries s :=
  (recordLog (LogRetries retries) (recordLog (LogError error) s)).

Lemma batchProcess_chunks_prefix (fuel : nat) (chunks : list (list IN))
    (result : list JsValue) (st : State W) :
  batchProcess_chunks configService JSON_parse JSON_stringify
    Math_random_source fuel chunks cacheKeyFunction handler ttl skipCache
    result st
  = match batchProcess_chunks configService JSON_parse JSON_stringify
            Math_random_source fuel chunks cacheKeyFunction handler ttl
            skipCache [] st with
    | Some (Ok results, st') => Some (Ok (result ++ results), st')
    | Some (Throw error, st') => Some (Throw error, st')
    | None => None
    end.
Proof.
  revert result st. induction chunks as [|chunk chunks IH]; intros result st.
  - simpl. by rewrite app_nil_r.
  - simpl.
    destruct (batchProcess_retry _ _ _ _ _ _ _ _ _ _ _ st)
      as [[[processed|error] st1]|]; [|done..].
    rewrite (IH (result ++ processed)), (IH ([] ++ processed)).
    destruct (batchProcess_chunks _ _ _ _ _ _ _ _ _ _ [] st1)
      as [[[results|error] st2]|]; [|done..].
    simpl. by rewrite app_assoc.
Qed.

Lemma batchProcess_chunks_app (fuel : nat) (chunks1 chunks2 : list (list IN))
    (result : list JsValue) (st : State W) :
  batchProcess_chunks configService JSON_parse JSON_stringify
    Math_random_source fuel (chunks1 ++ chunks2) cacheKeyFunction handler ttl
    skipCache result st
  = match batchProcess_chunks configService JSON_parse JSON_stringify
            Math_random_source fuel chunks1 cacheKeyFunction handler ttl
            skipCache result st with
    | Some (Ok results, st') =>
        batchProcess_chunks configService JSON_parse JSON_stringify
          Math_random_source fuel chunks2 cacheKeyFunction handler ttl
          skipCache results st'
    | Some (Throw error, st') => Some (Throw error, st')
    | None => None
    end.
Proof.
  revert result st. induction chunks1 as [|chunk chunks1 IH]; intros result st;
    [reflexivity|].
  simpl.
  destruct (batchProcess_retry _ _ _ _ _ _ _ _ _ _ _ st)
    as [[[processed|error] st1]|]; [|done..].
  apply IH.
Qed.

(** The batch cut at the chunk the loop is at: what the chunks before
    it gave, the retry loop on the chunk, and the chunks after it. *)
Lemma batchProcess_at_chunk (fuel j : nat) (before chunk after : list IN)
    (result : list JsValue) (st st0 : State W) :
  length before = (100 * j)%nat →
  (0 < length chunk ≤ 100)%nat →
  after = [] ∨ length chunk = 100%nat →
  run fuel before st = Some (Ok result, st0) →
  run fuel (before ++ chunk ++ after) st
  = match batchProcess_retry configService JSON_parse JSON_stringify
            Math_random_source fuel 0 chunk cacheKeyFunction handler ttl
            skipCache st0 with
    | Some (Ok processed, s) =>
        match run fuel after s with
        | Some (Ok rest, s') => Some (Ok (result ++ processed ++ rest), s')
        | Some (Throw error, s') => Some (Throw error, s')
        | None => None
        end
    | Some (Throw error, s) => Some (Throw error, s)
    | None => None
    end.
Proof.
  intros Hbefore Hchunk Hafter Hrun. unfold batchProcess in *.
  rewrite (getChunks_app 100 j) by (lia || done).
  rewrite getChunks_cons by done.
  rewrite batchProcess_chunks_app, Hrun. simpl.
  destruct (batchProcess_retry _ _ _ _ _ _ _ _ _ _ _ st0)
    as [[[processed|error] s]|]; [|done..].
  rewrite batchProcess_chunks_prefix.
  destruct (batchProcess_chunks _ _ _ _ _ _ _ _ _ _ [] s)
    as [[[rest|error] s']|]; [|done..].
  by rewrite app_assoc.
Qed.

(** C6. For any chunk of a batch, [result] being what the chunks before
    it returned: when an attempt at the chunk succeeds, be it the first,
    the second or the third, the batch made of the chunks up to this one
    returns [result] followed by the results of the chunk, and the whole
    batch returns these followed by the results of the chunks after it,
    or throws what they throw; every failed attempt is logged with its
    retry count; after three failed attempts the batch throws the error
    of the third, without a fourth attempt and without returning the
    results gathered so far.  Three iterations of the [while] loop are
    always enough. *)
Theorem batchProcess_chunk_retries (fuel j : nat)
    (before chunk after : list IN) (result : list JsValue)
    (st st0 : State W) :
  (3 ≤ fuel)%nat →
  length before = (100 * j)%nat →
  (0 < length chunk ≤ 100)%nat →
  after = [] ∨ length chunk = 100%nat →
  run fuel before st = Some (Ok result, st0) →
  let contributes processed s :=
    run fuel (before ++ chunk) st = Some (Ok (result ++ processed), s) ∧
    (∀ rest s',
       run fuel after s = Some (Ok rest, s') →
       run fuel (before ++ chunk ++ after) st
       = Some (Ok (result ++ processed ++ rest), s')) ∧
    (∀ error s',
       run fuel after s = Some (Throw error, s') →
       run fuel (before ++ chunk ++ after) st = Some (Throw error, s')) in
  (∀ processed s1,
     attempt chunk st0 = (Ok processed, s1) → contributes processed s1) ∧
  (∀ e1 s1 processed s2,
     attempt chunk st0 = (Throw e1, s1) →
     attempt chunk (failed e1 0%nat s1) = (Ok processed, s2) →
     contributes processed s2) ∧
  (∀ e1 s1 e2 s2 processed s3,
     attempt chunk st0 = (Throw e1, s1) →
     attempt chunk (failed e1 0%nat s1) = (Throw e2, s2) →
     attempt chunk (failed e2 1%nat s2) = (Ok processed, s3) →
     contributes processed s3) ∧
  (∀ e1 s1 e2 s2 e3 s3,
     attempt chunk st0 = (Throw e1, s1) →
     attempt chunk (failed e1 0%nat s1) = (Throw e2, s2) →
     attempt chunk (failed e2 1%nat s2) = (Throw e3, s3) →
     run fuel (before ++ chunk ++ after) st
     = Some (Throw e3, failed e3 2%nat s3)
     ∧ run fuel (before ++ chunk) st = Some (Throw e3, failed e3 2%nat s3)).
Proof.
  intros Hfuel Hbefore Hchunk Hafter Hrun contributes.
  pose proof (batchProcess_at_chunk fuel j before chunk after result st st0
                Hbefore Hchunk Hafter Hrun) as Hwhole.
  pose proof (batchProcess_at_chunk fuel j before chunk [] result st st0
                Hbefore Hchunk (or_introl eq_refl) Hrun) as Hupto.
  rewrite app_nil_r in Hupto.
  assert (Hcontributes : ∀ processed s,
            batchProcess_retry configService JSON_parse JSON_stringify
              Math_random_source fuel 0 chunk cacheKeyFunction handler ttl
              skipCache st0 = Some (Ok processed, s) →
            contributes processed s).
  { intros processed s Hretry. rewrite Hretry in Hwhole, Hupto.
    split; [|split].
    - rewrite Hupto. unfold batchProcess. simpl. by rewrite app_nil_r.
    - intros rest s' Hrest. by rewrite Hwhole, Hrest.
    - intros error s' Hrest. by rewrite Hwhole, Hrest. }
  destruct fuel as [|[|[|fuel']]]; try lia.
  split; [|split; [|split]].
  - intros processed s1 H1. apply Hcontributes. simpl. by rewrite H1.
  - intros e1 s1 processed s2 H1 H2. apply Hcontributes. simpl.
    by rewrite H1, H2.
  - intros e1 s1 e2 s2 processed s3 H1 H2 H3. apply Hcontributes. simpl.
    by rewrite H1, H2, H3.
  - intros e1 s1 e2 s2 e3 s3 H1 H2 H3.
    assert (Hretry :
      batchProcess_retry configService JSON_parse JSON_stringify
        Math_random_source (Datatypes.S (Datatypes.S (Datatypes.S fuel'))) 0
        chunk cacheKeyFunction handler ttl skipCache st0
      = Some (Throw e3, failed e3 2%nat s3))
      by (simpl; by rewrite H1, H2, H3).
    rewrite Hretry in Hwhole, Hupto. by split.
Qed.
End Retry.

(** A chunk whose handler always fails: three attempts, three logged
    failures, and the batch throws.  A chunk whose handler fails twice:
    the third attempt succeeds and the batch returns its result. *)
Lemma batchProcess_chunk_retries_witness :
  (∃ st',
     batchProcess exampleConfig scalarParse scalarStringify (λ _, 0%Q) 3
       ["a"] (λ item, item) alwaysFails None false (emptyState 0%nat)
     = Some (Throw (JStr "unreachable upstream"), st') ∧
     world st' = 3%nat ∧
     logged st'
     = [LogError (JStr "unreachable upstream"); LogRetries 0;
        LogError (JStr "unreachable upstream"); LogRetries 1;
        LogError (JStr "unreachable upstream"); LogRetries 2]) ∧
  (∃ st',
     batchProcess exampleConfig scalarParse scalarStringify (λ _, 0%Q) 3
       ["a"] (λ item, item) failsTwice None false (emptyState 0%nat)
     = Some (Ok [JStr "a"], st') ∧
     world st' = 3%nat ∧
     logged st'
     = [LogError (JStr "unreachable upstream"); LogRetries 0;
        LogError (JStr "unreachable upstream"); LogRetries 1]).
Proof.
  pose (attempt (handler : string → Populate nat JsValue) :=
          batchProcessChunk exampleConfig scalarParse scalarStringify
            (λ _, 0%Q) ["a"] (λ item : string, item) handler None false).
  pose (failed error retries (s : State nat) :=
          recordLog (LogRetries retries) (recordLog (LogError error) s)).
  pose (error := JStr "unreachable upstream").
  split.
  - destruct (batchProcess_chunk_retries exampleConfig scalarParse
                scalarStringify (λ _, 0%Q) (λ item, item) alwaysFails None
                false 3 0 [] ["a"] [] [] (emptyState 0%nat) (emptyState 0%nat))
      as (_ & _ & _ & Hthrice);
      [lia | reflexivity | simpl; lia | by left | reflexivity |].
    pose (s1 := snd (attempt alwaysFails (emptyState 0%nat))).
    pose (s2 := snd (attempt alwaysFails (failed error 0%nat s1))).
    pose (s3 := snd (attempt alwaysFails (failed error 1%nat s2))).
    destruct (Hthrice error s1 error s2 error s3) as [Hwhole _];
      [vm_compute; reflexivity..|].
    exists (failed error 2%nat s3). split; [exact Hwhole|].
    split; vm_compute; reflexivity.
  - destruct (batchProcess_chunk_retries exampleConfig scalarParse
                scalarStringify (λ _, 0%Q) (λ item, item) failsTwice None
                false 3 0 [] ["a"] [] [] (emptyState 0%nat) (emptyState 0%nat))
      as (_ & _ & Hthird & _);
      [lia | reflexivity | simpl; lia | by left | reflexivity |].
    pose (s1 := snd (attempt failsTwice (emptyState 0%nat))).
    pose (s2 := snd (attempt failsTwice (failed error 0%nat s1))).
    pose (s3 := snd (attempt failsTwice (failed error 1%nat s2))).
    destruct (Hthird error s1 error s2 [JStr "a"] s3) as [Hupto _];
      [vm_compute; reflexivity..|].
    exists s3. split; [exact Hupto|].
    split; vm_compute; reflexivity.
Defined.

(** A handler that always fails is called three times, each attempt is
    logged, and the call throws. *)
Example batchProcess_always_failing :
  let outcome :=
    batchProcess exampleConfig scalarParse scalarStringify (λ _, 0%Q) 3
      ["a"] (λ item, item) alwaysFails None false (emptyState 0%nat) in
  fst <$> outcome = Some (Throw (JStr "unreachable upstream")) ∧
  world ∘ snd <$> outcome = Some 3%nat ∧
  logged ∘ snd <$> outcome
  = Some [LogError (JStr "unreachable upstream"); LogRetries 0;
          LogError (JStr "unreachable upstream"); LogRetries 1;
          LogError (JStr "unreachable upstream"); LogRetries 2] ∧
  redisCalls ∘ snd <$> outcome
  = Some [CallMGet ["a"]; CallMGet ["a"]; CallMGet ["a"]].
Proof. vm_compute. repeat split. Qed.

(** A handler that fails twice succeeds on the third attempt, and the
    chunk contributes its result. *)
Example batchProcess_third_attempt :
  let outcome :=
    batchProcess exampleConfig scalarParse scalarStringify (λ _, 0%Q) 3
      ["a"] (λ item, item) failsTwice None false (emptyState 0%nat) in
  fst <$> outcome = Some (Ok [JStr "a"]) ∧
  world ∘ snd <$> outcome = Some 3%nat.
Proof. vm_compute. repeat split. Qed.


(** *** Steps of the batch orchestrator *)

Lemma countMGet_app (calls calls' : list RedisCall) :
  countMGet (calls ++ calls') = (countMGet calls + countMGet calls')%nat.
Proof.
  induction calls as [|call calls IH]; [reflexivity|].
  destruct call; simpl; by rewrite IH.
Qed.

Lemma elem_of_missingIndices (cached : list JsValue) (i : nat) :
  i ∈ missingIndices cached ↔ ∃ e, cached !! i = Some e ∧ is_null e = true.
Proof.
  unfold missingIndices. rewrite list_elem_of_omap. split.
  - intros (o & Ho & Hid). apply elem_of_lookup_imap in Ho as (j & e & -> & Hj).
    simpl in Hid. destruct (is_null e) eqn:He; [|discriminate].
    injection Hid as <-. eauto.
  - intros (e & Hi & He). exists (Some i). split; [|reflexivity].
    apply elem_of_lookup_imap. exists i, e. by rewrite He.
Qed.

Lemma indexOf_elem_of (x : nat) (array : list nat) :
  x ∈ array → ∃ r, indexOf x array = Some r ∧ array !! r = Some x.
Proof.
  intros Hin. unfold indexOf.
  destruct (list_find_elem_of (λ y, y = x) array x Hin eq_refl) as [[r y] Hfind].
  rewrite Hfind. simpl. exists r. split; [reflexivity|].
  apply list_find_Some in Hfind as (Hr & -> & _). exact Hr.
Qed.

Lemma lookup_omap_total {A B} (g : A → option B) (l : list A) (r : nat) :
  (∀ a, a ∈ l → is_Some (g a)) → omap g l !! r = l !! r ≫= g.
Proof.
  revert r. induction l as [|a l IH]; intros r Hall; [reflexivity|].
  destruct (Hall a) as [b Hb]; [by left|].
  simpl. rewrite Hb. destruct r as [|r]; simpl; [done|].
  apply IH. intros a' Ha'. apply Hall. by right.
Qed.


Section BatchRuns.
Context {W : Type}.
Variable configService : Config.
Variable JSON_parse : JsValue → Result JsValue.
Variable JSON_stringify : JsValue → string.
Variable Math_random_source : nat → Q.

Lemma mapM_decode_run (st s : State W) (keys : list string) :
  Forall (λ key, ∃ cached, batchRead JSON_parse st key = Ok cached) keys →
  mapM (λ value s, (batchGetCache_decode JSON_parse value, s))
       (map (redisReply st) keys) s
  = (Ok (map (λ key, hitOrPopulated JSON_parse st key JNull) keys), s).
Proof.
  induction 1 as [|key keys [cached Hkey] _ IH]; [reflexivity|].
  rewrite map_cons, mapM_cons.
  erewrite bind_Ok by (unfold batchRead in Hkey; by rewrite Hkey).
  erewrite bind_Ok by exact IH. unfold ret. rewrite (map_cons _ key).
  do 3 f_equal. unfold hitOrPopulated. rewrite Hkey. by destruct cached.
Qed.

Lemma batchGetCache_run (keys : list string) (st : State W) :
  (length keys ≤ 100)%nat →
  Forall (λ key, ∃ cached, batchRead JSON_parse st key = Ok cached) keys →
  batchGetCache JSON_parse keys st
  = (Ok (map (λ key, hitOrPopulated JSON_parse st key JNull) keys),
     match keys with [] => st | _ => recordCall (CallMGet keys) st end).
Proof.
  intros Hlen Hread. destruct keys as [|key keys]; [reflexivity|].
  assert (Hchunk :
    batchGetCache_chunk JSON_parse (key :: keys) st
    = (Ok (map (λ key, hitOrPopulated JSON_parse st key JNull) (key :: keys)),
       recordCall (CallMGet (key :: keys)) st)).
  { unfold batchGetCache_chunk. erewrite bind_Ok by reflexivity.
    apply mapM_decode_run, Hread. }
  unfold batchGetCache. rewrite getChunks_single by (simpl in *; lia).
  erewrite bind_Ok; last first.
  { rewrite mapM_cons. erewrite bind_Ok by exact Hchunk. reflexivity. }
  unfold ret. simpl concat. by rewrite app_nil_r.
Qed.

Lemma asyncPool_run {IN} (handler : IN → Populate W JsValue)
    (f : IN → JsValue) (poolLimit : nat) (inputs : list IN) (st : State W) :
  (∀ item w, ∃ w', handler item w = (Ok (f item), w')) →
  ∃ w', asyncPool poolLimit inputs handler st
        = (Ok (map f inputs), setWorld w' st).
Proof.
  intros Hf. destruct st as [loc red pend calls logs draws w]. revert w.
  unfold asyncPool.
  induction inputs as [|item inputs IH]; intros w.
  - exists w. reflexivity.
  - destruct (Hf item w) as [w1 Hw1]. destruct (IH w1) as [w2 Hw2].
    exists w2. rewrite mapM_cons.
    erewrite bind_Ok; last first.
    { unfold liftWorld. simpl. rewrite Hw1. reflexivity. }
    erewrite bind_Ok by exact Hw2. reflexivity.
Qed.

Lemma spreadTtl_run (ttl : Q) (st : State W) :
  ∃ ttl' draws, spreadTtl Math_random_source ttl st
                = (Ok ttl', setRandomDraws draws st).
Proof.
  destruct st as [loc red pend calls logs draws w].
  unfold spreadTtl. destruct (Qle_bool 300 ttl); eexists _, _; reflexivity.
Qed.

Lemma mapM_spreadTtl_run (ttls : list Q) (st : State W) :
  ∃ ttls' draws, mapM (spreadTtl Math_random_source) ttls st
                 = (Ok ttls', setRandomDraws draws st).
Proof.
  destruct st as [loc red pend calls logs draws w]. revert draws.
  induction ttls as [|ttl ttls IH]; intros draws.
  - exists [], draws. reflexivity.
  - destruct (spreadTtl_run ttl (mkState loc red pend calls logs draws w))
      as (ttl' & draws1 & Hrun1).
    destruct (IH draws1) as (ttls' & draws2 & Hrun2).
    exists (ttl' :: ttls'), draws2. rewrite mapM_cons.
    erewrite bind_Ok by exact Hrun1.
    erewrite bind_Ok by exact Hrun2. reflexivity.
Qed.

Lemma batchSetCache_local_run (keys : list string) (values : list JsValue)
    (ttls : list Q) (st : State W) :
  ∃ store, batchSetCache_local configService keys values ttls st
           = (Ok (), setLocalStore store st).
Proof.
  unfold batchSetCache_local.
  destruct st as [loc red pend calls logs draws w].
  assert (Hloop : ∀ entries loc, ∃ results store,
    mapM (λ '(index, key),
            setCacheLocal configService key
              (default JUndefined (values !! index)) (ttls !! index))
         entries (mkState loc red pend calls logs draws w)
    = (Ok results, mkState store red pend calls logs draws w)).
  { induction entries as [|[index key] entries IH]; intros loc0.
    - exists [], loc0. reflexivity.
    - edestruct IH as (results & store & Hrun).
      eexists _, store. rewrite mapM_cons.
      erewrite bind_Ok by reflexivity.
      erewrite bind_Ok by exact Hrun. reflexivity. }
  destruct (Hloop (imap pair keys) loc) as (results & store & Hrun).
  exists store. erewrite bind_Ok by exact Hrun. reflexivity.
Qed.
End BatchRuns.


Lemma elem_of_missingKeys (keys : list string) (missing : list nat) (key : string) :
  key ∈ missingKeys keys missing → key ∈ keys.
Proof.
  unfold missingKeys. rewrite list_elem_of_omap.
  intros (o & Ho & Hid). apply elem_of_lookup_imap in Ho as (i & k & -> & Hi).
  simpl in Hid. destruct (includes i missing); [|discriminate].
  injection Hid as <-. by eapply list_elem_of_lookup_2.
Qed.

Lemma applyCommand_frame (sets : list RedisCommand) (keys : list string)
    (store : gmap string (string * option Q)) (key : string) :
  Forall (λ c, ∃ k payload ex, c = CmdSet k payload ex ∧ k ∈ keys) sets →
  key ∉ keys →
  fold_left applyCommand sets store !! key = store !! key.
Proof.
  intros Hsets Hkey. revert store.
  induction Hsets as [|c sets (k & payload & ex & -> & Hk) _ IH]; intros store;
    [reflexivity|].
  simpl. rewrite IH. destruct ex as [ex|]; [|reflexivity].
  apply lookup_insert_ne. by intros ->.
Qed.

Section BatchWrite.
Context {W : Type}.
Variable configService : Config.
Variable JSON_stringify : JsValue → string.
Variable Math_random_source : nat → Q.

Lemma batchSetCache_sets_keys (keys : list string) (values : list JsValue)
    (ttls : list Q) :
  Forall (λ c, ∃ k payload ex, c = CmdSet k payload ex ∧ k ∈ keys)
    (concat (map (batchSetCache_chunkSets JSON_stringify values ttls)
                 (getChunks (imap (λ index key, (key, index)) keys) 25))).
Proof.
  apply Forall_forall. intros c Hc.
  apply elem_of_concat in Hc as (sets & Hsets & Hc).
  apply list_elem_of_fmap in Hsets as (chunk & -> & Hchunk).
  unfold batchSetCache_chunkSets in Hc.
  apply elem_of_lookup_imap in Hc as (i & key & -> & Hi).
  eexists _, _, _. split; [reflexivity|].
  apply list_elem_of_lookup_2 in Hi.
  apply list_elem_of_fmap in Hi as ([k index] & -> & Hel). simpl.
  assert (Hin : (k, index) ∈ imap (λ index key, (key, index)) keys).
  { destruct (getChunks_chunked (imap (λ index key, (key, index)) keys) 25)
      as [<- _]; [lia|].
    apply elem_of_concat. eauto. }
  apply elem_of_lookup_imap in Hin as (j & k' & Heq & Hj).
  injection Heq as -> ->. by eapply list_elem_of_lookup_2.
Qed.

Lemma batchSetCache_run (keys : list string) (values : list JsValue)
    (ttls : list Q) (st : State W) :
  ∃ draws store sets,
    batchSetCache configService JSON_stringify Math_random_source
      keys values ttls st
    = (Ok (),
       recordCall (CallMulti sets)
         (setRedisStore (fold_left applyCommand sets (redisStore st))
            (setLocalStore store (setRandomDraws draws st)))) ∧
    Forall (λ c, ∃ k payload ex, c = CmdSet k payload ex ∧ k ∈ keys) sets.
Proof.
  destruct (mapM_spreadTtl_run Math_random_source ttls st)
    as (ttls' & draws & Hspread).
  destruct (batchSetCache_local_run configService keys values ttls'
              (setRandomDraws draws st)) as (store & Hlocal).
  eexists draws, store, _. split.
  - unfold batchSetCache. erewrite bind_Ok by exact Hspread.
    erewrite bind_Ok by exact Hlocal. reflexivity.
  - apply batchSetCache_sets_keys.
Qed.
End BatchWrite.

(** *** What a batch read finds, in terms of the store *)

Lemma batchRead_parses {W} (JSON_parse : JsValue → Result JsValue)
    (st : State W) (key : string) :
  (∀ text ex, redisStore st !! key = Some (text, ex) →
              text ≠ EmptyString → ∃ value, JSON_parse (JStr text) = Ok value) →
  ∃ cached, batchRead JSON_parse st key = Ok cached.
Proof.
  intros Hparse. unfold batchRead, redisReply, batchGetCache_decode.
  destruct (redisStore st !! key) as [[text ex]|] eqn:Hstore; [|by eexists].
  destruct text as [|c text]; [by eexists|].
  destruct (Hparse _ _ eq_refl) as [value Hvalue]; [done|].
  simpl. rewrite Hvalue. by eexists.
Qed.

Lemma hitOrPopulated_heldValue {W} (JSON_parse : JsValue → Result JsValue)
    (st : State W) (key : string) (populated : JsValue) :
  hitOrPopulated JSON_parse st key populated
  = match heldValue JSON_parse st key with
    | Some cached => cached
    | None => populated
    end.
Proof.
  unfold hitOrPopulated, heldValue, batchRead, redisReply, batchGetCache_decode.
  destruct (redisStore st !! key) as [[text ex]|]; [|reflexivity].
  destruct text as [|c text]; [reflexivity|]. simpl.
  destruct (JSON_parse (JStr (String c text))) as [value|error]; [|reflexivity].
  by destruct (is_null value).
Qed.

Lemma hitOrPopulated_read {W} (JSON_parse : JsValue → Result JsValue)
    (st : State W) (key : string) :
  match redisStore st !! key with
  | Some (text, _) =>
      if String.eqb text EmptyString
      then hitOrPopulated JSON_parse st key JNull = JNull
      else ∀ value, JSON_parse (JStr text) = Ok value →
                    hitOrPopulated JSON_parse st key JNull = value
  | None => hitOrPopulated JSON_parse st key JNull = JNull
  end.
Proof.
  unfold hitOrPopulated, batchRead, redisReply, batchGetCache_decode.
  destruct (redisStore st !! key) as [[text ex]|]; [|reflexivity].
  destruct text as [|c text]; [reflexivity|]. simpl.
  intros value ->. by destruct value.
Qed.

(** *** Length of a batch result *)

Section BatchLength.
Context {W IN : Type}.
Variable configService : Config.
Variable JSON_parse : JsValue → Result JsValue.
Variable JSON_stringify : JsValue → string.
Variable Math_random_source : nat → Q.
Variable cacheKeyFunction : IN → string.
Variable handler : IN → Populate W JsValue.
Variable ttl : option Q.
Variable skipCache : bool.

Lemma batchProcessChunk_length (payload : list IN) (results : list JsValue)
    (st st' : State W) :
  batchProcessChunk configService JSON_parse JSON_stringify Math_random_source
    payload cacheKeyFunction handler ttl skipCache st = (Ok results, st') →
  length results = length payload.
Proof.
  unfold batchProcessChunk. intros Hrun.
  apply bind_Ok_inv in Hrun as (cached & st1 & _ & Hrun).
  apply bind_Ok_inv in Hrun as (values & st2 & _ & Hrun).
  unfold ret in Hrun. injection Hrun as <- _.
  by rewrite length_imap, length_fmap.
Qed.

Lemma batchProcess_retry_length (fuel retries : nat) (chunk : list IN)
    (results : list JsValue) (st st' : State W) :
  batchProcess_retry configService JSON_parse JSON_stringify
    Math_random_source fuel retries chunk cacheKeyFunction handler ttl
    skipCache st = Some (Ok results, st') →
  length results = length chunk.
Proof.
  revert retries st. induction fuel as [|fuel IH]; intros retries st; [done|].
  cbn [batchProcess_retry]. destruct (batchProcessChunk _ _ _ _ _ _ _ _ _ st)
    as [[processed|error] st1] eqn:Hattempt.
  - intros [= <- _]. by eapply batchProcessChunk_length.
  - destruct (3 <=? Datatypes.S retries)%nat; [discriminate|]. apply IH.
Qed.

Lemma batchProcess_chunks_length (fuel : nat) (chunks : list (list IN))
    (result results : list JsValue) (st st' : State W) :
  batchProcess_chunks configService JSON_parse JSON_stringify
    Math_random_source fuel chunks cacheKeyFunction handler ttl skipCache
    result st = Some (Ok results, st') →
  length results = (length result + length (concat chunks))%nat.
Proof.
  revert result st. induction chunks as [|chunk chunks IH]; intros result st.
  - intros [= <- _]. simpl. lia.
  - simpl.
    destruct (batchProcess_retry _ _ _ _ _ _ _ _ _ _ _ st)
      as [[[processed|error] st1]|] eqn:Hretry; [|discriminate..].
    intros Hloop. apply IH in Hloop. rewrite Hloop, !length_app.
    apply batchProcess_retry_length in Hretry. lia.
Qed.

(** Whatever the key function, the handler and [skipCache] are, a batch
    that returns has one result per item. *)
Lemma batchProcess_length (fuel : nat) (payload : list IN)
    (results : list JsValue) (st st' : State W) :
  batchProcess configService JSON_parse JSON_stringify Math_random_source
    fuel payload cacheKeyFunction handler ttl skipCache st
  = Some (Ok results, st') →
  length results = length payload.
Proof.
  unfold batchProcess. intros Hrun.
  apply batchProcess_chunks_length in Hrun.
  destruct (getChunks_chunked payload 100 ltac:(lia)) as [Hconcat _].
  by rewrite Hconcat in Hrun.
Qed.

Lemma batchProcess_retry_returns (fuel retries : nat) (chunk : list IN)
    (st : State W) :
  (3 ≤ fuel + retries)%nat → (0 < fuel)%nat →
  is_Some (batchProcess_retry configService JSON_parse JSON_stringify
             Math_random_source fuel retries chunk cacheKeyFunction handler
             ttl skipCache st).
Proof.
  revert retries st. induction fuel as [|fuel IH]; intros retries st Hfuel Hpos;
    [lia|].
  cbn [batchProcess_retry].
  destruct (batchProcessChunk _ _ _ _ _ _ _ _ _ st) as [[processed|error] st1];
    [by eexists|].
  destruct (3 <=? Datatypes.S retries)%nat eqn:Hlast; [by eexists|].
  apply Nat.leb_gt in Hlast. apply IH; lia.
Qed.

(** Three iterations of the retry loop are enough for [batchProcess] to
    return or throw, whatever the chunks and the handler do. *)
Lemma batchProcess_returns (fuel : nat) (payload : list IN) (st : State W) :
  (3 ≤ fuel)%nat →
  is_Some (batchProcess configService JSON_parse JSON_stringify
             Math_random_source fuel payload cacheKeyFunction handler ttl
             skipCache st).
Proof.
  intros Hfuel. unfold batchProcess. generalize (@nil JsValue) as result.
  revert st. induction (getChunks payload 100) as [|chunk chunks IH];
    intros st result; [by eexists|].
  simpl.
  destruct (batchProcess_retry_returns fuel 0 chunk st) as [[[r|e] st1] ->];
    [lia | lia | apply IH | by eexists].
Qed.
End BatchLength.

(** *** Order and chunking of a batch *)

Section BatchOrder.
Context {W IN : Type}.
Variable configService : Config.
Variable JSON_parse : JsValue → Result JsValue.
Variable JSON_stringify : JsValue → string.
Variable Math_random_source : nat → Q.
Variable cacheKeyFunction : IN → string.
Variable handler : IN → Populate W JsValue.
Variable populated : IN → JsValue.
Variable ttl : option Q.
Hypothesis handler_returns :
  ∀ item w, ∃ w', handler item w = (Ok (populated item), w').

Local Abbreviation entry st :=
  (λ item, hitOrPopulated JSON_parse st (cacheKeyFunction item) (populated item)).

Lemma hitOrPopulated_null (st : State W) (key : string) (p : JsValue) :
  is_null (hitOrPopulated JSON_parse st key JNull) = true →
  hitOrPopulated JSON_parse st key p = p.
Proof.
  unfold hitOrPopulated. destruct (batchRead JSON_parse st key) as [c|e]; [|done].
  destruct (is_null c) eqn:Hc; [done|]. by rewrite Hc.
Qed.

Lemma hitOrPopulated_hit (st : State W) (key : string) (p : JsValue) :
  is_null (hitOrPopulated JSON_parse st key JNull) = false →
  hitOrPopulated JSON_parse st key p = hitOrPopulated JSON_parse st key JNull.
Proof.
  unfold hitOrPopulated. destruct (batchRead JSON_parse st key) as [c|e]; [|done].
  destruct (is_null c) eqn:Hc; done.
Qed.

Lemma batchProcessChunk_assemble (st : State W) (payload : list IN) :
  let keys := map cacheKeyFunction payload in
  let cached := map (λ key, hitOrPopulated JSON_parse st key JNull) keys in
  let missing := missingIndices cached in
  let values := map populated (omap (λ index, payload !! index) missing) in
  imap (λ index _,
          if includes index missing
          then default JUndefined (indexOf index missing ≫= λ i, values !! i)
          else default JUndefined (cached !! index)) keys
  = map (entry st) payload.
Proof.
  intros keys cached missing values. apply list_eq. intros i.
  rewrite list_lookup_imap. unfold keys at 1. rewrite !list_lookup_fmap.
  destruct (payload !! i) as [item|] eqn:Hitem; [|reflexivity]. simpl. f_equal.
  assert (Hcached : cached !! i
    = Some (hitOrPopulated JSON_parse st (cacheKeyFunction item) JNull)).
  { unfold cached, keys. by rewrite !list_lookup_fmap, Hitem. }
  unfold includes. case_bool_decide as Hin.
  - pose proof Hin as Hin'.
    apply elem_of_missingIndices in Hin' as (e & He & Hnull).
    rewrite Hcached in He. injection He as <-.
    rewrite (hitOrPopulated_null _ _ _ Hnull).
    destruct (indexOf_elem_of i missing Hin) as (r & -> & Hr). simpl.
    unfold values. rewrite list_lookup_fmap, lookup_omap_total.
    + rewrite Hr. simpl. by rewrite Hitem.
    + intros m Hm. apply elem_of_missingIndices in Hm as (e & He & _).
      apply lookup_lt_Some in He. unfold cached, keys in He.
      rewrite !length_fmap in He. by apply lookup_lt_is_Some_2.
  - rewrite Hcached. simpl. symmetry. apply hitOrPopulated_hit.
    destruct (is_null _) eqn:Hnull; [|reflexivity].
    exfalso. apply Hin. apply elem_of_missingIndices. eauto.
Qed.

Lemma batchProcessChunk_run (payload : list IN) (st : State W) :
  (length payload ≤ 100)%nat →
  Forall (λ item, ∃ cached,
            batchRead JSON_parse st (cacheKeyFunction item) = Ok cached)
         payload →
  ∃ st1,
    batchProcessChunk configService JSON_parse JSON_stringify
      Math_random_source payload cacheKeyFunction handler ttl false st
    = (Ok (map (entry st) payload), st1) ∧
    (∀ key, key ∉ map cacheKeyFunction payload →
       redisStore st1 !! key = redisStore st !! key) ∧
    countMGet (redisCalls st1)
    = (countMGet (redisCalls st)
       + match payload with [] => 0 | _ => 1 end)%nat.
Proof.
  intros Hlen Hread.
  pose proof (batchProcessChunk_assemble st payload) as Hassemble.
  simpl in Hassemble.
  set (keys := map cacheKeyFunction payload) in *.
  set (cached := map (λ key, hitOrPopulated JSON_parse st key JNull) keys) in *.
  set (missing := missingIndices cached) in *.
  set (st0 := match keys with [] => st | _ => recordCall (CallMGet keys) st end).
  assert (Hget : batchGetCache JSON_parse keys st = (Ok cached, st0)).
  { apply batchGetCache_run.
    - unfold keys. by rewrite length_fmap.
    - unfold keys. apply Forall_fmap. exact Hread. }
  assert (Hstore0 : redisStore st0 = redisStore st)
    by (unfold st0; by destruct keys).
  assert (Hcalls0 : countMGet (redisCalls st0)
            = (countMGet (redisCalls st)
               + match payload with [] => 0 | _ => 1 end)%nat).
  { unfold st0, keys. destruct payload as [|item payload']; simpl; [lia|].
    rewrite countMGet_app. simpl. lia. }
  unfold batchProcessChunk. fold keys.
  erewrite bind_Ok by exact Hget. fold missing.
  destruct (length missing =? 0)%nat eqn:Hmissing; simpl negb; cbv iota.
  - apply Nat.eqb_eq, nil_length_inv in Hmissing.
    exists st0. split; [|split]; [|by rewrite Hstore0|exact Hcalls0].
    erewrite bind_Ok by reflexivity. unfold ret. f_equal. f_equal.
    rewrite <- Hassemble. rewrite Hmissing. reflexivity.
  - destruct (asyncPool_run handler populated (getPoolLimit configService)
                (omap (λ index, payload !! index) missing) st0 handler_returns)
      as (w' & Hpool).
    set (values := map populated (omap (λ index, payload !! index) missing)) in *.
    destruct (batchSetCache_run configService JSON_stringify
                Math_random_source (missingKeys keys missing) values
                (map (λ value,
                        if truthy value then ttlOrDefault configService ttl
                        else Math_min (ttlOrDefault configService ttl)
                                      (getProcessTtl configService)) values)
                (setWorld w' st0))
      as (draws & store & sets & Hset & Hsets).
    eexists. split; [|split].
    + erewrite bind_Ok; last first.
      { erewrite bind_Ok by exact Hpool.
        erewrite bind_Ok by exact Hset. reflexivity. }
      unfold ret. f_equal. f_equal. exact Hassemble.
    + intros key Hkey. simpl.
      rewrite (applyCommand_frame sets (missingKeys keys missing)).
      * by rewrite Hstore0.
      * exact Hsets.
      * intros Hin. apply Hkey. by eapply elem_of_missingKeys.
    + simpl. rewrite countMGet_app. simpl. rewrite Hcalls0. lia.
Qed.

Lemma batchRead_same_store (st st1 : State W) (key : string) :
  redisStore st1 !! key = redisStore st !! key →
  batchRead JSON_parse st1 key = batchRead JSON_parse st key.
Proof. intros H. unfold batchRead, redisReply. by rewrite H. Qed.

Lemma batchProcess_chunks_run (fuel : nat) (chunks : list (list IN))
    (result : list JsValue) (st : State W) :
  (0 < fuel)%nat →
  Forall (λ chunk, (0 < length chunk ≤ 100)%nat) chunks →
  (∀ j1 j2 chunk1 chunk2 item1 item2,
     chunks !! j1 = Some chunk1 → chunks !! j2 = Some chunk2 → j1 ≠ j2 →
     item1 ∈ chunk1 → item2 ∈ chunk2 →
     cacheKeyFunction item1 ≠ cacheKeyFunction item2) →
  Forall (λ item, ∃ cached,
            batchRead JSON_parse st (cacheKeyFunction item) = Ok cached)
         (concat chunks) →
  ∃ st',
    batchProcess_chunks configService JSON_parse JSON_stringify
      Math_random_source fuel chunks cacheKeyFunction handler ttl false
      result st
    = Some (Ok (result ++ map (entry st) (concat chunks)), st') ∧
    countMGet (redisCalls st')
    = (countMGet (redisCalls st) + length chunks)%nat.
Proof.
  intros Hfuel Hsizes. revert result st.
  induction Hsizes as [|chunk chunks Hsize _ IH]; intros result st Hapart Hread.
  - exists st. simpl. rewrite app_nil_r. split; [reflexivity | lia].
  - simpl concat in *.
    apply Forall_app in Hread as [Hread1 Hread2].
    destruct (batchProcessChunk_run chunk st ltac:(lia) Hread1)
      as (st1 & Hrun & Hframe & Hcalls).
    assert (Hsame : ∀ item, item ∈ concat chunks →
              batchRead JSON_parse st1 (cacheKeyFunction item)
              = batchRead JSON_parse st (cacheKeyFunction item)).
    { intros item Hitem. apply batchRead_same_store, Hframe.
      intros Hin. apply list_elem_of_fmap in Hin as (item1 & Hkey & Hitem1).
      apply elem_of_concat in Hitem as (chunk2 & Hchunk2 & Hitem).
      apply list_elem_of_lookup in Hchunk2 as (j & Hj).
      by apply (Hapart 0%nat (Datatypes.S j) chunk chunk2 item1 item). }
    destruct (IH (result ++ map (entry st) chunk) st1) as (st' & Hloop & Hcount).
    { intros j1 j2 chunk1 chunk2 item1 item2 Hj1 Hj2 Hne.
      apply (Hapart (Datatypes.S j1) (Datatypes.S j2)); [done | done | lia]. }
    { apply Forall_forall. intros item Hitem. rewrite (Hsame _ Hitem).
      by apply (proj1 (Forall_forall _ _) Hread2). }
    exists st'. split.
    + destruct fuel as [|fuel']; [lia|]. simpl. rewrite Hrun.
      simpl in Hloop. rewrite Hloop. do 3 f_equal.
      rewrite map_app, app_assoc. f_equal.
      apply map_ext_in. intros item Hitem. apply list_elem_of_In in Hitem.
      unfold hitOrPopulated. by rewrite (Hsame _ Hitem).
    + rewrite Hcount, Hcalls. destruct chunk; simpl in *; lia.
Qed.

(** C1 (as the code has it). With a handler that returns
    [populated item] for every item, stored texts that deserialize and
    no cache key shared by items of two different chunks (pairwise
    distinct keys, or at most 100 items, are enough), [batchProcess]
    returns, and its result has one entry per item, in the order of the
    items: the value the remote tier holds for the key of the item when
    it holds one other than [null], and [populated item] otherwise, a
    stored [null] and an empty text being taken for a miss.  The payload
    is processed in chunks of 100, each read with one [MGET]: the call
    issues [ceil(n / 100)] of them for [n] items, 3 for 250. *)
Theorem batchProcess_ordered (fuel : nat) (payload : list IN) (st : State W) :
  (0 < fuel)%nat →
  (∀ i j item1 item2,
     payload !! i = Some item1 → payload !! j = Some item2 →
     cacheKeyFunction item1 = cacheKeyFunction item2 →
     (i / 100 = j / 100)%nat) →
  (∀ item text ex,
     item ∈ payload →
     redisStore st !! cacheKeyFunction item = Some (text, ex) →
     text ≠ EmptyString → ∃ value, JSON_parse (JStr text) = Ok value) →
  ∃ results st',
    batchProcess configService JSON_parse JSON_stringify Math_random_source
      fuel payload cacheKeyFunction handler ttl false st
    = Some (Ok results, st') ∧
    length results = length payload ∧
    (∀ i item, payload !! i = Some item →
       results !! i
       = Some match heldValue JSON_parse st (cacheKeyFunction item) with
              | Some cached => cached
              | None => populated item
              end) ∧
    countMGet (redisCalls st')
    = (countMGet (redisCalls st) + (length payload + 99) / 100)%nat ∧
    (length payload = 250%nat →
     countMGet (redisCalls st') = (countMGet (redisCalls st) + 3)%nat).
Proof.
  intros Hfuel Hkeys Hparse.
  assert (Hread : Forall (λ item, ∃ cached,
                    batchRead JSON_parse st (cacheKeyFunction item) = Ok cached)
                    payload).
  { apply Forall_forall. intros item Hitem. apply batchRead_parses.
    intros text ex. by apply Hparse. }
  pose proof (getChunks_chunked payload 100 ltac:(lia)) as Hchunked.
  pose proof (chunked_sizes 100 _ _ ltac:(lia) Hchunked) as Hsizes.
  pose proof (chunked_length 100 _ _ ltac:(lia) Hchunked) as Hlength.
  assert (Hapart : ∀ j1 j2 chunk1 chunk2 item1 item2,
            getChunks payload 100 !! j1 = Some chunk1 →
            getChunks payload 100 !! j2 = Some chunk2 → j1 ≠ j2 →
            item1 ∈ chunk1 → item2 ∈ chunk2 →
            cacheKeyFunction item1 ≠ cacheKeyFunction item2).
  { intros j1 j2 chunk1 chunk2 item1 item2 Hj1 Hj2 Hne Hitem1 Hitem2 Hkey.
    apply list_elem_of_lookup in Hitem1 as (p1 & Hp1).
    apply list_elem_of_lookup in Hitem2 as (p2 & Hp2).
    destruct (chunked_lookup 100 _ _ _ _ _ _ Hchunked Hj1 Hp1) as [Hi1 Hlt1].
    destruct (chunked_lookup 100 _ _ _ _ _ _ Hchunked Hj2 Hp2) as [Hi2 Hlt2].
    pose proof (Hkeys _ _ _ _ Hi1 Hi2 Hkey) as Hsame.
    rewrite <- (Nat.div_unique (100 * j1 + p1) 100 j1 p1) in Hsame by lia.
    rewrite <- (Nat.div_unique (100 * j2 + p2) 100 j2 p2) in Hsame by lia.
    contradiction. }
  destruct Hchunked as [Hconcat _].
  destruct (batchProcess_chunks_run fuel (getChunks payload 100) [] st
              Hfuel Hsizes Hapart)
    as (st' & Hrun & Hcount).
  { by rewrite Hconcat. }
  rewrite Hconcat in Hrun. simpl in Hrun.
  exists (map (entry st) payload), st'.
  split; [exact Hrun|]. split; [by rewrite length_map|]. split.
  - intros i item Hi. rewrite list_lookup_fmap, Hi. simpl.
    by rewrite hitOrPopulated_heldValue.
  - rewrite Hcount, Hlength. simpl. split; [reflexivity|].
    intros ->. reflexivity.
Qed.

(** Pairwise distinct cache keys are never shared by two chunks. *)
Lemma NoDup_keys_within_chunks (payload : list IN) :
  NoDup (map cacheKeyFunction payload) →
  ∀ i j item1 item2,
    payload !! i = Some item1 → payload !! j = Some item2 →
    cacheKeyFunction item1 = cacheKeyFunction item2 →
    (i / 100 = j / 100)%nat.
Proof.
  intros Hdup i j item1 item2 Hi Hj Hkey. f_equal.
  eapply (NoDup_lookup _ _ _ _ Hdup).
  - rewrite (list_lookup_fmap cacheKeyFunction), Hi. reflexivity.
  - rewrite (list_lookup_fmap cacheKeyFunction), Hj. simpl. by rewrite Hkey.
Qed.
End BatchOrder.

Lemma batchProcess_ordered_witness :
  ∃ results st',
    batchProcess exampleConfig scalarParse scalarStringify (λ _, 1 # 2) 3
      ["a"; "b"; "c"] itemKey populateText (Some 600%Q) false oneHitState
    = Some (Ok results, st') ∧
    length results = length ["a"; "b"; "c"] ∧
    (∀ i item, ["a"; "b"; "c"] !! i = Some item →
       results !! i
       = Some match heldValue scalarParse oneHitState (itemKey item) with
              | Some cached => cached
              | None => JStr ("v:" +:+ item)
              end) ∧
    countMGet (redisCalls st')
    = (countMGet (redisCalls oneHitState)
       + (length ["a"; "b"; "c"] + 99) / 100)%nat ∧
    (length ["a"; "b"; "c"] = 250%nat →
     countMGet (redisCalls st') = (countMGet (redisCalls oneHitState) + 3)%nat).
Proof.
  apply (batchProcess_ordered exampleConfig scalarParse scalarStringify
           (λ _, 1 # 2) itemKey populateText (λ item, JStr ("v:" +:+ item))
           (Some 600%Q)).
  - intros item w. eexists. reflexivity.
  - lia.
  - intros i j item1 item2 Hi Hj _.
    apply lookup_lt_Some in Hi, Hj. simpl in Hi, Hj.
    rewrite !Nat.div_small by lia. reflexivity.
  - intros item text ex _ Hstore _.
    unfold oneHitState in Hstore. simpl in Hstore.
    apply lookup_singleton_Some in Hstore as [_ Hentry].
    injection Hentry as <- _. by eexists.
Defined.

(** C1 as stated fails in two ways.  The remote tier holds the text
    [null] for [k:b]: the cache held a value for the item, and the
    result is the handler's.  101 items share the key [k] and nothing is
    cached: the last item, in the second chunk, gets what the first
    chunk wrote back, the handler's result for item 99, which is neither
    a value the cache held when the call was made nor the handler's
    result for the item. *)
Lemma batchProcess_ordered_counterexample :
  (redisStore nullHitState !! itemKey "b" = Some ("null", Some 60%Q) ∧
   scalarParse (JStr "null") = Ok JNull ∧
   fst <$> batchProcess exampleConfig scalarParse scalarStringify (λ _, 1 # 2) 3
             ["a"; "b"; "c"] itemKey populateText (Some 600%Q) false
             nullHitState
   = Some (Ok [JStr "v:a"; JStr "v:b"; JStr "v:c"])) ∧
  (redisStore (emptyState 0%nat) !! sharedKey 100 = None ∧
   fst (populateNumber 100 0%nat) = Ok (JNum 100) ∧
   (λ outcome,
      match fst outcome with
      | Ok results => results !! 100%nat
      | Throw _ => None
      end)
   <$> batchProcess exampleConfig scalarParse scalarStringify (λ _, 1 # 2) 3
         (seq 0 101) sharedKey populateNumber (Some 600%Q) false
         (emptyState 0%nat)
   = Some (Some (JNum 99))).
Proof. vm_compute. repeat split. Qed.

(** The order-preservation example of the specification: [b] is a hit,
    [a] and [c] are populated. *)
Example batchProcess_a_b_c :
  fst <$> batchProcess exampleConfig scalarParse scalarStringify (λ _, 1 # 2) 3
            ["a"; "b"; "c"] itemKey populateText (Some 600%Q) false oneHitState
  = Some (Ok [JStr "v:a"; JNum 7; JStr "v:c"]).
Proof. reflexivity. Qed.

(** The chunking example of the specification: 250 items, 3 [MGET]
    calls, 250 results, 250 populations. *)
Example batchProcess_250_items :
  (λ outcome,
     (countMGet (redisCalls (snd outcome)), world (snd outcome),
      match fst outcome with Ok results => length results | Throw _ => 0%nat end))
  <$> batchProcess exampleConfig scalarParse scalarStringify (λ _, 1 # 2) 3
        (seq 0 250) numberKey populateNumber (Some 600%Q) false
        (emptyState 0%nat)
  = Some (3%nat, 250%nat, 250%nat).
Proof. vm_compute. reflexivity. Qed.

(** *** The TTL of the remote write-back *)

Section RemoteTtl.
Variable JSON_stringify : JsValue → string.
Variable values : list JsValue.
Variable ttls : list Q.

Lemma batchSetCache_chunkSets_imap (offset : nat) (keys : list string) :
  batchSetCache_chunkSets JSON_stringify values ttls
    (imap (λ index key, (key, offset + index)%nat) keys)
  = imap (λ index key,
            CmdSet key
              (JSON_stringify (default JUndefined (values !! (offset + index)%nat)))
              (ttls !! index))
         keys.
Proof.
  unfold batchSetCache_chunkSets. apply list_eq. intros j.
  rewrite !list_lookup_imap.
  rewrite (list_lookup_fmap fst), list_lookup_imap.
  destruct (keys !! j) as [key|] eqn:Hj; [|reflexivity]. simpl.
  by rewrite (list_lookup_fmap (λ element, default JUndefined (values !! snd element))),
       list_lookup_imap, Hj.
Qed.

Lemma batchSetCache_sets_full (full : list (list (string * nat)))
    (last : list (string * nat)) (offset : nat) (keys : list string) :
  Forall (λ chunk, length chunk = 25%nat) full →
  (length last ≤ 25)%nat →
  (offset mod 25 = 0)%nat →
  concat (full ++ [last]) = imap (λ index key, (key, offset + index)%nat) keys →
  concat (map (batchSetCache_chunkSets JSON_stringify values ttls) (full ++ [last]))
  = imap (λ index key,
            CmdSet key
              (JSON_stringify (default JUndefined (values !! (offset + index)%nat)))
              (ttls !! ((offset + index) mod 25)%nat))
         keys.
Proof.
  intros Hfull Hlast. revert offset keys.
  induction Hfull as [|chunk full Hchunk _ IH]; intros offset keys Hoff Hconcat.
  - cbn [app concat List.map] in Hconcat |- *. rewrite app_nil_r in *.
    subst last.
    rewrite batchSetCache_chunkSets_imap. apply imap_ext.
    intros j key Hj. cbv beta. do 2 f_equal.
    rewrite length_imap in Hlast. apply lookup_lt_Some in Hj.
    rewrite Nat.Div0.add_mod, Hoff, Nat.add_0_l.
    rewrite Nat.Div0.mod_mod. symmetry. apply Nat.mod_small. lia.
  - cbn [app concat] in Hconcat.
    assert (Hlen : (25 ≤ length keys)%nat).
    { apply (f_equal length) in Hconcat.
      rewrite length_app, length_imap, Hchunk in Hconcat. lia. }
    rewrite <- (take_drop 25 keys) in Hconcat |- *.
    rewrite imap_app in Hconcat. rewrite imap_app.
    rewrite length_take_le in * by lia.
    apply app_inj_1 in Hconcat as [Hhead Htail];
      [|by rewrite length_imap, length_take_le by lia].
    cbn [app concat List.map].
    rewrite Hhead, batchSetCache_chunkSets_imap. f_equal.
    + apply imap_ext. intros j key Hj. cbv beta. do 2 f_equal.
      apply lookup_lt_Some in Hj. rewrite length_take_le in Hj by lia.
      rewrite Nat.Div0.add_mod, Hoff, Nat.add_0_l.
      rewrite Nat.Div0.mod_mod. symmetry. apply Nat.mod_small. lia.
    + rewrite (IH (offset + 25)%nat (drop 25 keys)).
      * apply imap_ext. intros j key _. cbv beta.
        by rewrite !Nat.add_assoc.
      * rewrite Nat.Div0.add_mod, Hoff. reflexivity.
      * rewrite Htail. apply imap_ext. intros j key _. cbv beta.
        by rewrite Nat.add_assoc.
Qed.

(** The [set] commands of [batchSetCache]: the command for [keys[i]]
    carries the payload of [values[i]] and the TTL [ttls[i mod 25]]. *)
Lemma batchSetCache_sets_ttls (keys : list string) :
  concat (map (batchSetCache_chunkSets JSON_stringify values ttls)
              (getChunks (imap (λ index key, (key, index)) keys) 25))
  = imap (λ index key,
            CmdSet key (JSON_stringify (default JUndefined (values !! index)))
                   (ttls !! (index mod 25)%nat))
         keys.
Proof.
  destruct (getChunks_chunked (imap (λ index key, (key, index)) keys) 25)
    as [Hconcat [Hnil | (full & last & Hchunks & Hfull & Hlast)]]; [lia| |].
  - rewrite Hnil in *. simpl in Hconcat. destruct keys; [reflexivity|discriminate].
  - rewrite Hchunks in *.
    apply (batchSetCache_sets_full full last 0 keys Hfull); [lia|reflexivity|].
    exact Hconcat.
Qed.
End RemoteTtl.

Section RemoteWrite.
Context {W : Type}.
Variable configService : Config.
Variable JSON_stringify : JsValue → string.
Variable Math_random_source : nat → Q.

(** The one [MULTI] call of [batchSetCache], with [ttls'] the jittered
    TTLs: position [i] of the batch gets [ttls'[i mod 25]]. *)
Lemma batchSetCache_commands (keys : list string) (values : list JsValue)
    (ttls : list Q) (st : State W) :
  ∃ ttls' st1 st',
    mapM (spreadTtl Math_random_source) ttls st = (Ok ttls', st1) ∧
    batchSetCache configService JSON_stringify Math_random_source
      keys values ttls st = (Ok (), st') ∧
    redisCalls st'
    = redisCalls st
      ++ [CallMulti
            (imap (λ index key,
                     CmdSet key
                       (JSON_stringify (default JUndefined (values !! index)))
                       (ttls' !! (index mod 25)%nat))
                  keys)].
Proof.
  destruct (mapM_spreadTtl_run Math_random_source ttls st)
    as (ttls' & draws & Hspread).
  destruct (batchSetCache_local_run configService keys values ttls'
              (setRandomDraws draws st)) as (store & Hlocal).
  eexists ttls', _, _. split; [exact Hspread|]. split.
  - unfold batchSetCache. erewrite bind_Ok by exact Hspread.
    erewrite bind_Ok by exact Hlocal. reflexivity.
  - simpl. by rewrite batchSetCache_sets_ttls.
Qed.
End RemoteWrite.

(** C5 (what the code does). A batch of 26 misses, nominal TTL 600 and
    negative-result bound 60, every [Math.random()] returning 1/2: the
    first 25 values are truthy and get the jittered TTL 630, the last
    value is [null] and gets the TTL 60.  The local write of the last key
    carries 60; its remote [set] command carries 630, the TTL at position
    [25 mod 25 = 0]. *)
Theorem batchSetCache_remote_ttl_of_second_chunk :
  let outcome :=
    batchProcess exampleConfig scalarParse scalarStringify (λ _, 1 # 2) 3
      (seq 0 26) numberKey populateLastNull (Some 600%Q) false
      (emptyState ()) in
  (λ o, localStore (snd o) !! "k25") <$> outcome = Some (Some (JNull, 60%Q)) ∧
  (λ o, redisStore (snd o) !! "k25") <$> outcome
  = Some (Some ("null", Some 630%Q)) ∧
  (λ o, localStore (snd o) !! "k0") <$> outcome = Some (Some (JNum 1, 630%Q)) ∧
  (λ o, redisStore (snd o) !! "k0") <$> outcome = Some (Some ("1", Some 630%Q)).
Proof. vm_compute. repeat split. Qed.

(** *** The pending-promise table, run by one caller *)

Lemma executeWithPendingPromise_single_flight_witness :
  (pendingPromises (emptyState 0%nat) !! "caching:set:k" = None →
     (∀ e st1,
        callAsync (liftWorld populateSeven) (emptyState 0%nat) = (Throw e, st1) →
        ∃ st',
          withPendingPromise "caching:set:k" (liftWorld populateSeven)
            (emptyState 0%nat) = (Throw e, st') ∧
          pendingPromises st' !! "caching:set:k" = None) ∧
     (∀ p st1,
        callAsync (liftWorld populateSeven) (emptyState 0%nat) = (Ok p, st1) →
        ∃ st2 : State nat,
          pendingPromises st2 !! "caching:set:k" = Some p ∧
          (∀ k, k ≠ "caching:set:k" →
             pendingPromises st2 !! k = pendingPromises st1 !! k) ∧
          ∀ outcome st3,
            awaitSettled p st2 = (outcome, st3) →
            ∃ st',
              withPendingPromise "caching:set:k" (liftWorld populateSeven)
                (emptyState 0%nat) = (outcome, st') ∧
              pendingPromises st' !! "caching:set:k" = None)) ∧
  (∀ p,
     pendingPromises (emptyState 0%nat) !! "caching:set:k" = Some p →
     withPendingPromise "caching:set:k" (liftWorld populateSeven)
       (emptyState 0%nat)
     = awaitSettled p (emptyState 0%nat)).
Proof.
  apply (executeWithPendingPromise_single_flight
           pendingPromises setPendingPromises (@awaitSettled nat)).
  intros table st. reflexivity.
Defined.

(** A population that fails: the failure reaches the caller and the
    table is empty again. *)
Example withPendingPromise_failure :
  let '(outcome, st') :=
    withPendingPromise "caching:set:k" (liftWorld (alwaysFails ()))
      (emptyState 0%nat) in
  outcome = Throw (JStr "unreachable upstream") ∧
  pendingPromises st' = ∅ ∧ world st' = 1%nat.
Proof. vm_compute. repeat split. Qed.

(** A caller that finds an entry gets the outcome of that entry, and its
    own operation is not invoked. *)
Example withPendingPromise_joins :
  withPendingPromise "caching:set:k" (liftWorld populateSeven) pendingState
  = (Ok (JNum 5), pendingState).
Proof. reflexivity. Qed.

(** *** The array extension methods *)

Section ArrayFacts.
Context {T : Type}.

Lemma selectMany_from {TOUT} (array : list T) (predicate : T → list TOUT)
    (result : list TOUT) :
  fold_left (λ result item, result ++ predicate item) array result
  = result ++ concat (map predicate array).
Proof.
  revert result. induction array as [|item array IH]; intros result; simpl.
  - by rewrite app_nil_r.
  - by rewrite IH, app_assoc.
Qed.

(** X1. [selectMany] is the concatenation, in order, of the arrays the
    callback returns: an element is in the result exactly when the
    callback yields it for some item, and the result has as many elements
    as those arrays together. *)
Theorem selectMany_flattens {TOUT} (array : list T) (predicate : T → list TOUT) :
  ArrayPrototype.selectMany array predicate = concat (map predicate array) ∧
  (∀ x, x ∈ ArrayPrototype.selectMany array predicate
        ↔ ∃ item, item ∈ array ∧ x ∈ predicate item) ∧
  length (ArrayPrototype.selectMany array predicate)
  = sum_list (map (λ item, length (predicate item)) array).
Proof.
  assert (Heq : ArrayPrototype.selectMany array predicate
                = concat (map predicate array))
    by (unfold ArrayPrototype.selectMany; by rewrite selectMany_from).
  split; [exact Heq|]. rewrite Heq. split.
  - intros x. rewrite elem_of_concat. split.
    + intros (l & Hl & Hx). apply list_elem_of_fmap in Hl as (item & -> & Hitem).
      eauto.
    + intros (item & Hitem & Hx). exists (predicate item). split; [|done].
      by apply list_elem_of_fmap_2.
  - clear Heq. induction array as [|item array IH]; simpl; [done|].
    by rewrite length_app, IH.
Qed.


End ArrayFacts.

(** The elements kept by a test on what precedes them: adding an
    element at the end keeps what was kept and adds the element when the
    test lets it through. *)
Lemma omap_imap_prefix_snoc {T} (seen : list T → T → bool) (l : list T)
    (x : T) :
  omap id (imap (λ i y, if seen (take i (l ++ [x])) y then None else Some y)
                (l ++ [x]))
  = omap id (imap (λ i y, if seen (take i l) y then None else Some y) l)
    ++ (if seen l x then [] else [x]).
Proof.
  rewrite imap_app, omap_app. f_equal.
  - f_equal. apply imap_ext. intros i y Hi. apply lookup_lt_Some in Hi.
    by rewrite take_app_le by lia.
  - simpl. rewrite Nat.add_0_r, take_app_length. by destruct (seen l x).
Qed.

Section ArrayEqFacts.
Context {T : Type} `{EqDecision T}.

(** X3. [remove] takes out the first occurrence of the element and
    returns its index: the array is [before ++ element :: after] with no
    occurrence in [before], the index is the length of [before] and the
    array becomes [before ++ after], later occurrences staying.  When the
    element does not occur, the array is unchanged and the index is -1. *)
Theorem remove_first_occurrence (array : list T) (element : T) :
  (element ∈ array →
     ∃ before after,
       array = before ++ element :: after ∧ (element ∉ before) ∧
       ArrayPrototype.remove array element
       = (Z.of_nat (length before), before ++ after)) ∧
  (element ∉ array →
     ArrayPrototype.remove array element = ((-1)%Z, array)).
Proof.
  unfold ArrayPrototype.remove, ArrayPrototype.arrayIndexOf. split.
  - intros Hin.
    destruct (list_find_elem_of (λ x, x = element) array element Hin eq_refl)
      as [[index x] Hfind].
    rewrite Hfind.
    apply list_find_Some in Hfind as (Hindex & -> & Hfirst).
    exists (take index array), (drop (Datatypes.S index) array).
    assert (Hlt : (index < length array)%nat) by by eapply lookup_lt_Some.
    split; [by rewrite take_drop_middle|]. split.
    + intros Hbefore. apply list_elem_of_lookup in Hbefore as (j & Hj).
      assert (Hjlt : (j < index)%nat).
      { apply lookup_lt_Some in Hj. rewrite length_take in Hj. lia. }
      rewrite lookup_take_lt in Hj by exact Hjlt.
      by apply (Hfirst j element).
    + rewrite length_take_le by lia.
      destruct (0 <=? Z.of_nat index)%Z eqn:Hpos; [|lia].
      by rewrite Nat2Z.id, delete_take_drop.
  - intros Hnot.
    destruct (list_find (λ x, x = element) array) as [[index x]|] eqn:Hfind;
      [|reflexivity].
    apply list_find_Some in Hfind as (Hindex & -> & _).
    exfalso. apply Hnot. by eapply list_elem_of_lookup_2.
Qed.

Lemma findMissingElements_from (array second missing : list T) :
  fold_left (λ missing item,
               if bool_decide (item ∈ second) then missing
               else missing ++ [item]) array missing
  = missing ++ filter (λ item, item ∉ second) array.
Proof.
  revert missing. induction array as [|item array IH]; intros missing; simpl.
  - by rewrite app_nil_r.
  - rewrite IH. rewrite filter_cons. case_bool_decide as Hin.
    + by rewrite decide_False by (intros Hn; by apply Hn).
    + by rewrite decide_True, <- app_assoc by done.
Qed.

(** X4. [findMissingElements] keeps, in their order and with their
    repetitions, the elements of the array that [second] does not hold:
    it is the filter of the array by absence from [second], it is empty
    exactly when [second] holds every element, and none of its elements
    is in [second]. *)
Theorem findMissingElements_complement (array second : list T) :
  ArrayPrototype.findMissingElements array second
  = filter (λ item, item ∉ second) array ∧
  (∀ x, x ∈ ArrayPrototype.findMissingElements array second
        ↔ x ∈ array ∧ x ∉ second) ∧
  (ArrayPrototype.findMissingElements array second = []
   ↔ ∀ x, x ∈ array → x ∈ second).
Proof.
  assert (Heq : ArrayPrototype.findMissingElements array second
                = filter (λ item, item ∉ second) array)
    by (unfold ArrayPrototype.findMissingElements;
        by rewrite findMissingElements_from).
  split; [exact Heq|]. rewrite Heq. split.
  - intros x. by rewrite list_elem_of_filter, (comm and).
  - split.
    + intros Hnil x Hx. destruct (decide (x ∈ second)) as [|Hn]; [done|].
      assert (Hin : x ∈ filter (λ item, item ∉ second) array)
        by by apply list_elem_of_filter.
      rewrite Hnil in Hin. by apply elem_of_nil in Hin.
    + intros Hall. destruct (filter _ array) as [|x rest] eqn:Hf; [done|].
      assert (Hin : x ∈ filter (λ item, item ∉ second) array)
        by (rewrite Hf; by left).
      apply list_elem_of_filter in Hin as [Hn Hx]. by specialize (Hall x Hx).
Qed.

Lemma sublist_full_length {A} (l1 l2 : list A) :
  sublist l1 l2 → (length l2 ≤ length l1)%nat → l1 = l2.
Proof.
  induction 1 as [|x l1 l2 Hsub IH|x l1 l2 Hsub IH]; simpl; intros Hlen.
  - done.
  - f_equal. apply IH. lia.
  - apply sublist_length in Hsub. lia.
Qed.

Lemma setAdd_fold_spec (array set : list T) :
  NoDup set →
  NoDup (fold_left ArrayPrototype.setAdd array set) ∧
  (∀ x, x ∈ fold_left ArrayPrototype.setAdd array set ↔ x ∈ set ∨ x ∈ array) ∧
  ∃ added, fold_left ArrayPrototype.setAdd array set = set ++ added
           ∧ sublist added array.
Proof.
  revert set. induction array as [|item array IH]; intros set Hset; simpl.
  - split; [done|]. split.
    + intros x. rewrite elem_of_nil. tauto.
    + exists []. by rewrite app_nil_r.
  - destruct (decide (item ∈ set)) as [Hin | Hin].
    + replace (ArrayPrototype.setAdd set item) with set
        by (unfold ArrayPrototype.setAdd; by rewrite bool_decide_eq_true_2).
      destruct (IH set Hset) as (Hdup & Hmem & added & Heq & Hsub).
      split; [done|]. split.
      * intros x. rewrite Hmem, elem_of_cons.
        split; [tauto|]. intros [?|[->|?]]; tauto.
      * exists added. split; [done|]. by apply sublist_cons.
    + replace (ArrayPrototype.setAdd set item) with (set ++ [item])
        by (unfold ArrayPrototype.setAdd; by rewrite bool_decide_eq_false_2).
      destruct (IH (set ++ [item])) as (Hdup & Hmem & added & Heq & Hsub).
      { apply NoDup_app. split; [done|]. split; [|apply NoDup_singleton].
        intros x Hx Hx'. apply list_elem_of_singleton in Hx'. by subst. }
      split; [done|]. split.
      * intros x. rewrite Hmem, elem_of_app, !elem_of_cons, elem_of_nil.
        tauto.
      * exists (item :: added). split; [by rewrite Heq, <- app_assoc|].
        by apply sublist_skip.
Qed.

Lemma elem_of_distinct (array : list T) (x : T) :
  x ∈ ArrayPrototype.distinct array ↔ x ∈ array.
Proof.
  destruct (setAdd_fold_spec array [] (NoDup_nil_2)) as (_ & Hmem & _).
  unfold ArrayPrototype.distinct. rewrite Hmem, elem_of_nil. tauto.
Qed.

Lemma distinct_positions (array : list T) :
  ArrayPrototype.distinct array
  = omap id (imap (λ i x, if bool_decide (x ∈ take i array) then None
                          else Some x) array).
Proof.
  induction array as [|x array IH] using rev_ind; [reflexivity|].
  pose proof (omap_imap_prefix_snoc (λ seen y, bool_decide (y ∈ seen))
                array x) as Hsnoc.
  cbv beta in Hsnoc. rewrite Hsnoc, <- IH. clear Hsnoc.
  unfold ArrayPrototype.distinct at 1. rewrite fold_left_app. simpl.
  fold (ArrayPrototype.distinct array). unfold ArrayPrototype.setAdd.
  destruct (decide (x ∈ array)) as [Hin | Hin].
  - rewrite !bool_decide_eq_true_2; [by rewrite app_nil_r | done |].
    by apply elem_of_distinct.
  - rewrite !bool_decide_eq_false_2; [done | done |].
    by rewrite elem_of_distinct.
Qed.

(** X5. [distinct] returns the elements of the array without
    repetition, each at the place of its first occurrence: it is the
    array from which every element that occurs earlier in it has been
    taken out.  So the result has no duplicates, holds exactly the
    elements of the array, is a subsequence of it, and an array without
    duplicates is returned as it is. *)
Theorem distinct_first_occurrences (array : list T) :
  ArrayPrototype.distinct array
  = omap id (imap (λ i x, if bool_decide (x ∈ take i array) then None
                          else Some x) array) ∧
  NoDup (ArrayPrototype.distinct array) ∧
  (∀ x, x ∈ ArrayPrototype.distinct array ↔ x ∈ array) ∧
  sublist (ArrayPrototype.distinct array) array ∧
  (NoDup array → ArrayPrototype.distinct array = array).
Proof.
  split; [apply distinct_positions|].
  destruct (setAdd_fold_spec array [] (NoDup_nil_2))
    as (Hdup & Hmem & added & Heq & Hsub).
  fold (ArrayPrototype.distinct array) in *. simpl in Heq. subst added.
  split; [done|]. split.
  - intros x. rewrite Hmem, elem_of_nil. tauto.
  - split; [done|]. intros Harray.
    apply sublist_full_length; [done|].
    apply submseteq_length, NoDup_submseteq; [done|].
    intros x Hx. apply Hmem. by right.
Qed.

(** The array of the example keeps 3, 1 and 2 in this order. *)
Example distinct_3_1_3_2_1 :
  ArrayPrototype.distinct [3; 1; 3; 2; 1]%nat = [3; 1; 2]%nat.
Proof. reflexivity. Qed.
End ArrayEqFacts.

Section ArrayProjectionFacts.
Context {T TResult : Type} `{EqDecision TResult}.
Variable predicate : T → TResult.

Lemma distinctBy_step_spec (array : list T)
    (distinctProjections : list TResult) (result : list T) :
  distinctProjections = map predicate result →
  NoDup distinctProjections →
  ∃ added,
    fold_left (ArrayPrototype.distinctBy_step predicate) array
              (distinctProjections, result)
    = (distinctProjections ++ map predicate added, result ++ added) ∧
    NoDup (distinctProjections ++ map predicate added) ∧
    sublist added array ∧
    (∀ x, x ∈ array → predicate x ∈ distinctProjections ++ map predicate added) ∧
    (∀ y, y ∈ added →
       (predicate y ∉ distinctProjections) ∧
       ∃ before after,
         array = before ++ y :: after ∧
         ∀ z, z ∈ before → predicate z ≠ predicate y).
Proof.
  revert distinctProjections result.
  induction array as [|element array IH];
    intros distinctProjections result Hprojections Hdup.
  - exists []. simpl. rewrite !app_nil_r. split; [done|]. split; [done|].
    split; [done|]. split; intros x Hx; by apply elem_of_nil in Hx.
  - cbn [fold_left]. unfold ArrayPrototype.distinctBy_step at 2.
    destruct (decide (predicate element ∈ distinctProjections)) as [Hin | Hin].
    + rewrite bool_decide_eq_true_2 by done.
      destruct (IH distinctProjections result Hprojections Hdup)
        as (added & Hrun & Hdup' & Hsub & Hcover & Hfirst).
      exists added. split; [done|]. split; [done|].
      split; [by apply sublist_cons|]. split.
      * intros x [-> | Hx]%elem_of_cons; [|by apply Hcover].
        apply elem_of_app. by left.
      * intros y Hy. destruct (Hfirst y Hy) as (Hfresh & before & after & -> & Hbefore).
        split; [done|]. exists (element :: before), after. split; [done|].
        intros z [-> | Hz]%elem_of_cons; [|by apply Hbefore].
        intros Heq. apply Hfresh. by rewrite <- Heq.
    + rewrite bool_decide_eq_false_2 by done.
      destruct (IH (distinctProjections ++ [predicate element])
                   (result ++ [element]))
        as (added & Hrun & Hdup' & Hsub & Hcover & Hfirst).
      { by rewrite map_app, Hprojections. }
      { apply NoDup_app. split; [done|]. split; [|apply NoDup_singleton].
        intros x Hx Hx'. apply list_elem_of_singleton in Hx'. by subst. }
      rewrite <- !app_assoc in Hrun, Hdup', Hcover. simpl in Hrun, Hdup', Hcover.
      exists (element :: added).
      split; [rewrite Hrun; simpl; by rewrite <- app_assoc|]. split; [done|].
      split; [by apply sublist_skip|]. split.
      * intros x [-> | Hx]%elem_of_cons; [|by apply Hcover].
        apply elem_of_app. right. by left.
      * intros y [-> | Hy]%elem_of_cons.
        -- split; [done|]. exists [], array. split; [done|].
           intros z Hz. by apply elem_of_nil in Hz.
        -- destruct (Hfirst y Hy) as (Hfresh & before & after & -> & Hbefore).
           split.
           ++ intros Hy'. apply Hfresh. apply elem_of_app. by left.
           ++ exists (element :: before), after. split; [done|].
              intros z [-> | Hz]%elem_of_cons; [|by apply Hbefore].
              intros Heq. apply Hfresh. apply elem_of_app. right.
              rewrite Heq. by left.
Qed.

Lemma distinctBy_run (array : list T) :
  fold_left (ArrayPrototype.distinctBy_step predicate) array ([], [])
  = (map predicate (ArrayPrototype.distinctBy array predicate),
     ArrayPrototype.distinctBy array predicate).
Proof.
  destruct (distinctBy_step_spec array [] [] eq_refl (NoDup_nil_2))
    as (added & Hrun & _).
  unfold ArrayPrototype.distinctBy. by rewrite Hrun.
Qed.

Lemma elem_of_distinctBy_projections (array : list T) (p : TResult) :
  p ∈ map predicate (ArrayPrototype.distinctBy array predicate)
  ↔ p ∈ map predicate array.
Proof.
  destruct (distinctBy_step_spec array [] [] eq_refl (NoDup_nil_2))
    as (added & Hrun & _ & Hsub & Hcover & _).
  unfold ArrayPrototype.distinctBy. rewrite Hrun. simpl in *. split.
  - intros (y & -> & Hy)%list_elem_of_fmap. apply list_elem_of_fmap_2.
    eapply elem_of_submseteq; [exact Hy | by apply sublist_submseteq].
  - intros (x & -> & Hx)%list_elem_of_fmap. by apply Hcover.
Qed.

Lemma distinctBy_positions (array : list T) :
  ArrayPrototype.distinctBy array predicate
  = omap id (imap (λ i x,
                     if bool_decide (predicate x ∈ map predicate (take i array))
                     then None else Some x) array).
Proof.
  induction array as [|x array IH] using rev_ind; [reflexivity|].
  pose proof (omap_imap_prefix_snoc
                (λ seen y, bool_decide (predicate y ∈ map predicate seen))
                array x) as Hsnoc.
  cbv beta in Hsnoc. rewrite Hsnoc, <- IH. clear Hsnoc.
  unfold ArrayPrototype.distinctBy at 1.
  rewrite fold_left_app, distinctBy_run. simpl.
  destruct (decide (predicate x ∈ map predicate array)) as [Hin | Hin].
  - rewrite !bool_decide_eq_true_2; [by rewrite app_nil_r | done |].
    by apply elem_of_distinctBy_projections.
  - rewrite !bool_decide_eq_false_2; [done | done |].
    by rewrite elem_of_distinctBy_projections.
Qed.

(** X6. [distinctBy] keeps, in their order, the first element of each
    projection: it is the array from which every element whose
    projection is that of an earlier element has been taken out.  So the
    projections of the result are pairwise distinct, the result is a
    subsequence of the array, every element of the array has its
    projection represented, every element kept is preceded in the array
    by no element of the same projection, and an array whose projections
    are pairwise distinct is returned as it is. *)
Theorem distinctBy_first_of_each_projection (array : list T) :
  ArrayPrototype.distinctBy array predicate
  = omap id (imap (λ i x,
                     if bool_decide (predicate x ∈ map predicate (take i array))
                     then None else Some x) array) ∧
  NoDup (map predicate (ArrayPrototype.distinctBy array predicate)) ∧
  sublist (ArrayPrototype.distinctBy array predicate) array ∧
  (∀ x, x ∈ array →
     ∃ y, y ∈ ArrayPrototype.distinctBy array predicate
          ∧ predicate y = predicate x) ∧
  (∀ y, y ∈ ArrayPrototype.distinctBy array predicate →
     ∃ before after,
       array = before ++ y :: after ∧
       ∀ z, z ∈ before → predicate z ≠ predicate y) ∧
  (NoDup (map predicate array) →
   ArrayPrototype.distinctBy array predicate = array).
Proof.
  destruct (distinctBy_step_spec array [] [] eq_refl (NoDup_nil_2))
    as (added & Hrun & Hdup & Hsub & Hcover & Hfirst).
  split; [apply distinctBy_positions|].
  unfold ArrayPrototype.distinctBy. rewrite Hrun. simpl in *.
  split; [done|]. split; [done|]. split; [|split].
  - intros x Hx. apply Hcover, list_elem_of_fmap in Hx as (y & Hy & Hin).
    by exists y.
  - intros y Hy. by destruct (Hfirst y Hy) as [_ Hbefore].
  - intros Harray. apply sublist_full_length; [done|].
    rewrite <- (length_map predicate added), <- (length_map predicate array).
    apply submseteq_length, NoDup_submseteq; [done|].
    intros p Hp. apply list_elem_of_fmap in Hp as (x & -> & Hx).
    by apply Hcover.
Qed.
End ArrayProjectionFacts.

(** With the identity as projection, the array of the example keeps 3, 1
    and 2 in this order; by parity it keeps 3 and 2. *)
Example distinctBy_3_1_3_2_1 :
  ArrayPrototype.distinctBy [3; 1; 3; 2; 1]%nat (λ x, x) = [3; 1; 2]%nat ∧
  ArrayPrototype.distinctBy [3; 1; 3; 2; 1]%nat Nat.even = [3; 2]%nat.
Proof. split; reflexivity. Qed.

Section ArrayPairFacts.
Context {T TSecond TResult : Type}.

(** X7. [zip] has one result per element of the array it is called on,
    whatever the length of [second]: the result at position [i] is the
    callback applied to the element and to [second[i]], which is
    [undefined] past the end of [second]; elements of [second] past the
    length of the array are ignored. *)
Theorem zip_follows_first (array : list T) (second : list TSecond)
    (predicate : T → option TSecond → TResult) :
  length (ArrayPrototype.zip array second predicate) = length array ∧
  (∀ i x, array !! i = Some x →
     ArrayPrototype.zip array second predicate !! i
     = Some (predicate x (second !! i)) ∧
     ((length second ≤ i)%nat →
      ArrayPrototype.zip array second predicate !! i
      = Some (predicate x None))) ∧
  ArrayPrototype.zip array second predicate
  = ArrayPrototype.zip array (take (length array) second) predicate.
Proof.
  unfold ArrayPrototype.zip. split; [apply length_imap|]. split.
  - intros i x Hi. rewrite list_lookup_imap, Hi. split; [done|].
    intros Hlen. by rewrite (lookup_ge_None_2 second).
  - apply imap_ext. intros i x Hi. apply lookup_lt_Some in Hi. simpl.
    by rewrite lookup_take_lt.
Qed.
End ArrayPairFacts.

Section ArrayAllFacts.
Context {T : Type}.

(** X8. [all] holds exactly when the predicate holds of every element,
    so it holds of the empty array; when it fails, some element fails
    the predicate. *)
Theorem all_every (array : list T) (predicate : T → bool) :
  (ArrayPrototype.all array predicate = true
   ↔ ∀ x, x ∈ array → predicate x = true) ∧
  (ArrayPrototype.all array predicate = false
   ↔ ∃ x, x ∈ array ∧ predicate x = false) ∧
  ArrayPrototype.all [] predicate = true.
Proof.
  unfold ArrayPrototype.all. split; [|split; [|done]].
  - rewrite negb_true_iff. split.
    + intros Hnone x Hx. destruct (predicate x) eqn:Hp; [done|].
      assert (Hsome : existsb (λ x, negb (predicate x)) array = true).
      { apply existsb_exists. exists x. split; [by apply list_elem_of_In|].
        by rewrite Hp. }
      congruence.
    + intros Hall. destruct (existsb _ array) eqn:Hsome; [|done].
      apply existsb_exists in Hsome as (x & Hx & Hp).
      apply list_elem_of_In, Hall in Hx. rewrite Hx in Hp. done.
  - rewrite negb_false_iff, existsb_exists. split.
    + intros (x & Hx & Hp). exists x. split; [by apply list_elem_of_In|].
      by apply negb_true_iff.
    + intros (x & Hx & Hp). exists x. split; [by apply list_elem_of_In|].
      by rewrite Hp.
Qed.
End ArrayAllFacts.

(** *** Writes followed by reads *)

Section RoundTrips.
Context {W : Type}.
Variable configService : Config.
Variable JSON_parse : JsValue → Result JsValue.
Variable JSON_stringify : JsValue → string.

(** What [getCacheRemote] does when nobody else is fetching the key: one
    [GET], whose reply goes to [JSON.parse]; an absent key is read as
    [JSON.parse(null)], the test for [undefined] never applying. *)
Lemma getCacheRemote_run (key : string) (st : State W) :
  pendingPromises st !! ("caching:get:" +:+ key) = None →
  ∃ st1,
    getCacheRemote JSON_parse key st = (JSON_parse (redisReply st key), st1) ∧
    localStore st1 = localStore st ∧
    redisStore st1 = redisStore st ∧
    pendingPromises st1 = pendingPromises st ∧
    redisCalls st1 = redisCalls st ++ [CallGet key] ∧
    logged st1 = logged st ∧
    world st1 = world st.
Proof.
  intros Hnone. unfold getCacheRemote, withPendingPromise, executeWithPendingPromise.
  unfold bind. rewrite Hnone. simpl.
  assert (Hdef : is_undefined (redisReply st key) = false)
    by (unfold redisReply; by destruct (redisStore st !! key) as [[payload ex]|]).
  rewrite Hdef. eexists. split; [reflexivity|]. simpl.
  repeat split. rewrite delete_insert_eq. by apply delete_id.
Qed.

(** X9. [setCache] writes a value other than [undefined] to both tiers
    under the same TTL, with one [SET], and leaves the other keys alone.
    When the value is truthy and the TTL positive, [getCache] serves it
    from the local tier in every state whose local tier holds the entry
    written, as the state the call leaves does: that state, and so the
    log of Redis calls, stays as it is.  A falsy value (null, 0, the
    empty text, false) is not served from there: [getCache] goes to
    Redis and returns what [JSON.parse] makes of the text written. *)
Theorem setCache_then_getCache (key : string) (value : JsValue)
    (ttl : option Q) (st : State W) :
  value ≠ JUndefined →
  ∃ st1,
    setCache configService JSON_stringify key value ttl st = (Ok value, st1) ∧
    localStore st1 !! key = Some (value, ttlOrDefault configService ttl) ∧
    redisStore st1 !! key
    = Some (JSON_stringify value, Some (ttlOrDefault configService ttl)) ∧
    (∀ k, k ≠ key → localStore st1 !! k = localStore st !! k
                    ∧ redisStore st1 !! k = redisStore st !! k) ∧
    redisCalls st1
    = redisCalls st
      ++ [CallSet key (JSON_stringify value) (ttlOrDefault configService ttl)] ∧
    (truthy value = true → (0 < ttlOrDefault configService ttl)%Q →
     ∀ st2 : State W,
       localStore st2 !! key = localStore st1 !! key →
       getCache JSON_parse key st2 = (Ok value, st2)) ∧
    (truthy value = false →
     pendingPromises st !! ("caching:get:" +:+ key) = None →
     fst (getCache JSON_parse key st1) = JSON_parse (JStr (JSON_stringify value))).
Proof.
  intros Hdefined.
  eexists. split; [reflexivity|]. simpl.
  split; [apply lookup_insert_eq|]. split; [apply lookup_insert_eq|].
  split; [intros k Hk; by rewrite !lookup_insert_ne|].
  split; [reflexivity|]. split.
  - intros Htruthy Hpositive st2 Hheld.
    unfold getCache, bind, getCacheLocal.
    rewrite Hheld, lookup_insert_eq. by rewrite Htruthy.
  - intros Hfalsy Hnone. unfold getCache, bind, getCacheLocal. simpl.
    rewrite lookup_insert_eq. rewrite Hfalsy.
    match goal with |- fst (getCacheRemote _ _ ?s) = _ =>
      destruct (getCacheRemote_run key s Hnone) as (st2 & -> & _)
    end.
    unfold redisReply. simpl. by rewrite lookup_insert_eq.
Qed.

(** X10. A value written by [setCacheRemote] is read back by
    [getCacheRemote] whenever [JSON.parse] undoes [JSON.stringify] on it;
    the read costs one [GET] and touches neither store. *)
Theorem setCacheRemote_then_getCacheRemote (key : string) (value : JsValue)
    (ttl : option Q) (st : State W) :
  pendingPromises st !! ("caching:get:" +:+ key) = None →
  JSON_parse (JStr (JSON_stringify value)) = Ok value →
  ∃ st1 st2,
    setCacheRemote configService JSON_stringify key value ttl st
    = (Ok value, st1) ∧
    getCacheRemote JSON_parse key st1 = (Ok value, st2) ∧
    localStore st2 = localStore st ∧
    redisStore st2
    = <[key := (JSON_stringify value, Some (ttlOrDefault configService ttl))]>
        (redisStore st) ∧
    redisCalls st2
    = redisCalls st
      ++ [CallSet key (JSON_stringify value) (ttlOrDefault configService ttl);
          CallGet key].
Proof.
  intros Hnone Hparse. eexists.
  match goal with |- ∃ st2, ?run = (_, ?s) ∧ _ =>
    assert (Hset : run = (Ok value, s)) by reflexivity
  end.
  match type of Hset with _ = (_, ?s) =>
    destruct (getCacheRemote_run key s Hnone)
      as (st2 & Hget & Hlocal & Hredis & _ & Hcalls & _)
  end.
  exists st2. split; [reflexivity|]. split.
  - rewrite Hget. unfold redisReply. simpl. rewrite lookup_insert_eq.
    by rewrite Hparse.
  - rewrite Hlocal, Hredis, Hcalls. simpl. by rewrite <- app_assoc.
Qed.

(** X11. [refreshCacheLocal] aligns the local tier with what the remote
    read returns: a truthy value overwrites the local entry, with the TTL
    given or the default one, and when that TTL is positive [getCache]
    serves the value in every state whose local tier holds the entry, as
    the state the call leaves does; a falsy value, which is what an
    absent key gives, removes the local entry and logs the removal.  A
    remote read that throws leaves the local tier as it was. *)
Theorem refreshCacheLocal_aligns (key : string) (ttl : option Q)
    (st : State W) :
  pendingPromises st !! ("caching:get:" +:+ key) = None →
  ∃ st1,
    refreshCacheLocal configService JSON_parse key ttl st
    = (JSON_parse (redisReply st key), st1) ∧
    redisStore st1 = redisStore st ∧
    (∀ value, JSON_parse (redisReply st key) = Ok value → truthy value = true →
       localStore st1
       = <[key := (value, ttlOrDefault configService ttl)]> (localStore st) ∧
       logged st1 = logged st ∧
       ((0 < ttlOrDefault configService ttl)%Q →
        ∀ st2 : State W,
          localStore st2 !! key = localStore st1 !! key →
          getCache JSON_parse key st2 = (Ok value, st2))) ∧
    (∀ value, JSON_parse (redisReply st key) = Ok value → truthy value = false →
       localStore st1 = delete key (localStore st) ∧
       logged st1 = logged st ++ [LogDeletingLocal key]) ∧
    (∀ error, JSON_parse (redisReply st key) = Throw error →
       localStore st1 = localStore st ∧ logged st1 = logged st).
Proof.
  intros Hnone.
  destruct (getCacheRemote_run key st Hnone)
    as (st0 & Hget & Hlocal & Hredis & _ & _ & Hlogged & _).
  unfold refreshCacheLocal, bind at 1. rewrite Hget.
  destruct (JSON_parse (redisReply st key)) as [value|error].
  - destruct (truthy value) eqn:Htruthy.
    + eexists. split; [reflexivity|]. simpl.
      split; [exact Hredis|]. split; [|split]; [| |discriminate].
      * intros v [= <-] _. rewrite Hlocal, Hlogged.
        split; [reflexivity|]. split; [reflexivity|].
        intros Hpositive st2 Hheld.
        unfold getCache, bind, getCacheLocal.
        rewrite Hheld, lookup_insert_eq. by rewrite Htruthy.
      * intros v [= <-] Hv. congruence.
    + eexists. split; [reflexivity|]. simpl.
      split; [exact Hredis|]. split; [|split]; [| |discriminate].
      * intros v [= <-] Hv. congruence.
      * intros v [= <-] _. by rewrite Hlocal, Hlogged.
  - eexists. split; [reflexivity|].
    split; [exact Hredis|]. split; [discriminate|]. split; [discriminate|].
    intros _ _. by rewrite Hlocal, Hlogged.
Qed.

(** X12. [flushDb] empties the remote tier only: the local tier is left
    as it was, so a key held there with a truthy value is still served by
    [getCache] after the flush, and by [getOrSetCache] whenever the value
    is not [undefined]. *)
Theorem flushDb_remote_only (st : State W) :
  ∃ st1,
    flushDb st = (Ok (), st1) ∧
    redisStore st1 = ∅ ∧
    localStore st1 = localStore st ∧
    redisCalls st1 = redisCalls st ++ [CallFlushDb] ∧
    ∀ key value ttl,
      localStore st !! key = Some (value, ttl) →
      (truthy value = true → getCache JSON_parse key st1 = (Ok value, st1)) ∧
      (value ≠ JUndefined →
       ∀ promise remoteTtl localTtl,
         getOrSetCache configService JSON_parse JSON_stringify key promise
           remoteTtl localTtl st1 = (Ok value, st1)).
Proof.
  eexists. split; [reflexivity|]. simpl.
  split; [reflexivity|]. split; [reflexivity|]. split; [reflexivity|].
  intros key value ttl Hlocal. split.
  - intros Htruthy. unfold getCache, bind, getCacheLocal. simpl.
    rewrite Hlocal. by rewrite Htruthy.
  - intros Hdef promise remoteTtl localTtl.
    unfold getOrSetCache, bind, getCacheLocal. simpl. rewrite Hlocal.
    destruct value; try reflexivity. contradiction.
Qed.
End RoundTrips.

Lemma setCache_zero_read_back :
  let st1 := snd (setCache exampleConfig scalarStringify "k" (JNum 0) None
                    (emptyState ())) in
  localStore st1 !! "k" = Some (JNum 0, 600%Q) ∧
  getCache scalarParse "k" st1
  = (Ok (JNum 0), recordCall (CallGet "k") st1).
Proof. vm_compute. split; reflexivity. Qed.

Lemma setCache_then_getCache_witness :
  ∃ st1,
    setCache exampleConfig scalarStringify "k" (JNum 7) (Some 300%Q)
      (emptyState ())
    = (Ok (JNum 7), st1) ∧
    localStore st1 !! "k"
    = Some (JNum 7, ttlOrDefault exampleConfig (Some 300%Q)) ∧
    redisStore st1 !! "k"
    = Some (scalarStringify (JNum 7),
            Some (ttlOrDefault exampleConfig (Some 300%Q))) ∧
    (∀ k, k ≠ "k" → localStore st1 !! k = localStore (emptyState ()) !! k
                    ∧ redisStore st1 !! k = redisStore (emptyState ()) !! k) ∧
    redisCalls st1
    = redisCalls (emptyState ())
      ++ [CallSet "k" (scalarStringify (JNum 7))
            (ttlOrDefault exampleConfig (Some 300%Q))] ∧
    (truthy (JNum 7) = true →
     (0 < ttlOrDefault exampleConfig (Some 300%Q))%Q →
     ∀ st2 : State (),
       localStore st2 !! "k" = localStore st1 !! "k" →
       getCache scalarParse "k" st2 = (Ok (JNum 7), st2)) ∧
    (truthy (JNum 7) = false →
     pendingPromises (emptyState ()) !! ("caching:get:" +:+ "k") = None →
     fst (getCache scalarParse "k" st1)
     = scalarParse (JStr (scalarStringify (JNum 7)))).
Proof.
  apply (setCache_then_getCache exampleConfig scalarParse scalarStringify
           "k" (JNum 7) (Some 300%Q) (emptyState ())).
  discriminate.
Defined.

Lemma setCacheRemote_then_getCacheRemote_witness :
  ∃ st1 st2,
    setCacheRemote exampleConfig scalarStringify "k" (JNum 7) (Some 300%Q)
      (emptyState ())
    = (Ok (JNum 7), st1) ∧
    getCacheRemote scalarParse "k" st1 = (Ok (JNum 7), st2) ∧
    localStore st2 = localStore (emptyState ()) ∧
    redisStore st2
    = <["k" := (scalarStringify (JNum 7),
                Some (ttlOrDefault exampleConfig (Some 300%Q)))]>
        (redisStore (emptyState ())) ∧
    redisCalls st2
    = redisCalls (emptyState ())
      ++ [CallSet "k" (scalarStringify (JNum 7))
            (ttlOrDefault exampleConfig (Some 300%Q));
          CallGet "k"].
Proof.
  apply (setCacheRemote_then_getCacheRemote exampleConfig scalarParse
           scalarStringify "k" (JNum 7) (Some 300%Q) (emptyState ()));
    reflexivity.
Defined.

Lemma refreshCacheLocal_aligns_witness :
  ∃ st1,
    refreshCacheLocal exampleConfig scalarParse "k" None falsyLocalState
    = (scalarParse (redisReply falsyLocalState "k"), st1) ∧
    redisStore st1 = redisStore falsyLocalState ∧
    (∀ value, scalarParse (redisReply falsyLocalState "k") = Ok value →
       truthy value = true →
       localStore st1
       = <["k" := (value, ttlOrDefault exampleConfig None)]>
           (localStore falsyLocalState) ∧
       logged st1 = logged falsyLocalState ∧
       ((0 < ttlOrDefault exampleConfig None)%Q →
        ∀ st2 : State (),
          localStore st2 !! "k" = localStore st1 !! "k" →
          getCache scalarParse "k" st2 = (Ok value, st2))) ∧
    (∀ value, scalarParse (redisReply falsyLocalState "k") = Ok value →
       truthy value = false →
       localStore st1 = delete "k" (localStore falsyLocalState) ∧
       logged st1 = logged falsyLocalState ++ [LogDeletingLocal "k"]) ∧
    (∀ error, scalarParse (redisReply falsyLocalState "k") = Throw error →
       localStore st1 = localStore falsyLocalState
       ∧ logged st1 = logged falsyLocalState).
Proof.
  apply (refreshCacheLocal_aligns exampleConfig scalarParse "k" None
           falsyLocalState).
  reflexivity.
Defined.

(** *** Invalidation of several keys *)

Lemma lookup_fold_delete {V} (keys : list string) (store : gmap string V)
    (k : string) :
  fold_left (λ m key, delete key m) keys store !! k
  = if bool_decide (k ∈ keys) then None else store !! k.
Proof.
  revert store. induction keys as [|key keys IH]; intros store; simpl.
  - reflexivity.
  - rewrite IH. destruct (decide (k = key)) as [-> | Hne].
    + rewrite lookup_delete_eq.
      rewrite (bool_decide_eq_true_2 (key ∈ key :: keys)) by by left.
      by case_bool_decide.
    + rewrite lookup_delete_ne by done.
      destruct (decide (k ∈ keys)) as [Hin | Hin].
      * rewrite (bool_decide_eq_true_2 (k ∈ keys)) by done.
        by rewrite (bool_decide_eq_true_2 (k ∈ key :: keys)) by by right.
      * rewrite (bool_decide_eq_false_2 (k ∈ keys)) by done.
        by rewrite (bool_decide_eq_false_2 (k ∈ key :: keys))
          by (intros [Heq | Hin']%elem_of_cons; [by apply Hne | by apply Hin]).
Qed.

Section PatternInvalidation.
Context {W : Type}.
Variable configService : Config.
Variable glob : string → string → bool.

Lemma mapM_delete_run (keys : list string) (st : State W) :
  mapM (λ key, let! _ := deleteInCacheLocal key in
               let! _ := asyncDel key in
               ret key) keys st
  = (Ok keys,
     mkState (fold_left (λ m key, delete key m) keys (localStore st))
             (fold_left (λ m key, delete key m) keys (redisStore st))
             (pendingPromises st) (redisCalls st ++ map CallDel keys)
             (logged st) (randomDraws st) (world st)).
Proof.
  revert st. induction keys as [|key keys IH]; intros st.
  - destruct st. simpl. by rewrite app_nil_r.
  - rewrite mapM_cons. erewrite bind_Ok by reflexivity.
    erewrite bind_Ok by apply IH. unfold ret. simpl.
    by rewrite <- app_assoc.
Qed.

(** X13. With a [*] in the key, [deleteInCache] asks Redis for the keys
    that match and deletes those, one [DEL] each, from both tiers: it
    returns exactly the keys Redis holds that match the pattern, each
    once; every other key keeps its entries, so a key that matches the
    pattern and is held by the local tier only stays there. *)
Theorem deleteInCache_pattern (key : string) (st : State W) :
  includesStar key = true →
  ∃ invalidatedKeys st',
    deleteInCache glob key st = (Ok invalidatedKeys, st') ∧
    NoDup invalidatedKeys ∧
    (∀ k, k ∈ invalidatedKeys
          ↔ is_Some (redisStore st !! k) ∧ glob key k = true) ∧
    (∀ k, k ∈ invalidatedKeys →
          localStore st' !! k = None ∧ redisStore st' !! k = None) ∧
    (∀ k, k ∉ invalidatedKeys →
          localStore st' !! k = localStore st !! k
          ∧ redisStore st' !! k = redisStore st !! k) ∧
    redisCalls st'
    = redisCalls st ++ CallKeys key :: map CallDel invalidatedKeys.
Proof.
  intros Hstar. unfold deleteInCache. rewrite Hstar.
  set (allKeys := filter (λ k, glob key k = true)
                         (map fst (map_to_list (redisStore st)))).
  erewrite bind_Ok by reflexivity. fold allKeys.
  erewrite bind_Ok by apply mapM_delete_run.
  exists allKeys. eexists. split; [reflexivity|]. simpl.
  split; [|split; [|split; [|split]]].
  - apply NoDup_filter. apply (NoDup_fst_map_to_list (redisStore st)).
  - intros k. unfold allKeys. rewrite list_elem_of_filter.
    rewrite list_elem_of_fmap. split.
    + intros [Hglob ([k' v] & -> & Hin)]. split; [|done].
      apply elem_of_map_to_list in Hin. simpl. by eexists.
    + intros [[v Hv] Hglob]. split; [done|]. exists (k, v).
      split; [done|]. by apply elem_of_map_to_list.
  - intros k Hk. rewrite !lookup_fold_delete.
    by rewrite !bool_decide_eq_true_2.
  - intros k Hk. rewrite !lookup_fold_delete.
    by rewrite !bool_decide_eq_false_2.
  - by rewrite <- app_assoc.
Qed.

Lemma mapM_deleteInCacheLocal_run (keys : list string) (st : State W) :
  mapM deleteInCacheLocal keys st
  = (Ok (map (λ _, ()) keys),
     setLocalStore (fold_left (λ m key, delete key m) keys (localStore st)) st).
Proof.
  revert st. induction keys as [|key keys IH]; intros st.
  - by destruct st.
  - rewrite mapM_cons. erewrite bind_Ok by reflexivity.
    erewrite bind_Ok by apply IH. reflexivity.
Qed.

Lemma fold_applyCommand_dels (keys : list string)
    (store : gmap string (string * option Q)) :
  fold_left applyCommand (map CmdDel keys) store
  = fold_left (λ m key, delete key m) keys store.
Proof.
  revert store. induction keys as [|key keys IH]; intros store; [done|].
  simpl. apply IH.
Qed.

(** X14. [batchDelCache] removes every key of the list from both tiers
    with a single [MULTI] call holding one [del] per key, in the order of
    the list, and leaves the keys outside the list as they were; with an
    empty list it still makes the call, with no command. *)
Theorem batchDelCache_removes (keys : list string) (st : State W) :
  ∃ st',
    batchDelCache keys st = (Ok (), st') ∧
    redisCalls st' = redisCalls st ++ [CallMulti (map CmdDel keys)] ∧
    (∀ k, k ∈ keys →
          localStore st' !! k = None ∧ redisStore st' !! k = None) ∧
    (∀ k, k ∉ keys →
          localStore st' !! k = localStore st !! k
          ∧ redisStore st' !! k = redisStore st !! k).
Proof.
  unfold batchDelCache.
  erewrite bind_Ok by apply mapM_deleteInCacheLocal_run.
  eexists. split; [reflexivity|]. simpl. split; [reflexivity|].
  rewrite fold_applyCommand_dels. split.
  - intros k Hk. rewrite !lookup_fold_delete.
    by rewrite !bool_decide_eq_true_2.
  - intros k Hk. rewrite !lookup_fold_delete.
    by rewrite !bool_decide_eq_false_2.
Qed.

(** X15. [tryInvalidateTokensOnAccount] acts only on a transaction sent
    by the ESDT contract: for any other sender it returns the empty list
    and changes nothing; for that sender it deletes the token list of the
    receiver from both tiers and, unlike [tryInvalidateTokenBalance],
    returns the key it invalidated. *)
Theorem tryInvalidateTokensOnAccount_sender (transaction : ShardTransaction)
    (st : State W) :
  (sender transaction ≠ getEsdtContractAddress configService →
     tryInvalidateTokensOnAccount configService glob transaction st
     = (Ok [], st)) ∧
  (sender transaction = getEsdtContractAddress configService →
   includesStar ("tokens:" +:+ receiver transaction) = false →
     ∃ st',
       tryInvalidateTokensOnAccount configService glob transaction st
       = (Ok ["tokens:" +:+ receiver transaction], st') ∧
       localStore st' !! ("tokens:" +:+ receiver transaction) = None ∧
       redisStore st' !! ("tokens:" +:+ receiver transaction) = None ∧
       redisCalls st'
       = redisCalls st ++ [CallDel ("tokens:" +:+ receiver transaction)]).
Proof.
  unfold tryInvalidateTokensOnAccount. split.
  - intros Hne. apply String.eqb_neq in Hne. by rewrite Hne.
  - intros Heq Hstar. apply String.eqb_eq in Heq. rewrite Heq. simpl.
    unfold deleteInCache. rewrite Hstar.
    eexists. split; [reflexivity|]. simpl.
    by rewrite !lookup_delete_eq.
Qed.
End PatternInvalidation.

(** Both token lists match [tokens:*]. *)
Lemma deleteInCache_pattern_witness :
  ∃ invalidatedKeys st',
    deleteInCache starGlob "tokens:*" tokensState = (Ok invalidatedKeys, st') ∧
    NoDup invalidatedKeys ∧
    (∀ k, k ∈ invalidatedKeys
          ↔ is_Some (redisStore tokensState !! k) ∧ starGlob "tokens:*" k = true) ∧
    (∀ k, k ∈ invalidatedKeys →
          localStore st' !! k = None ∧ redisStore st' !! k = None) ∧
    (∀ k, k ∉ invalidatedKeys →
          localStore st' !! k = localStore tokensState !! k
          ∧ redisStore st' !! k = redisStore tokensState !! k) ∧
    redisCalls st'
    = redisCalls tokensState ++ CallKeys "tokens:*" :: map CallDel invalidatedKeys.
Proof.
  apply (deleteInCache_pattern starGlob "tokens:*" tokensState).
  reflexivity.
Defined.

(** The local tier holds a token list Redis does not: the pattern
    deletion leaves it in place. *)
Example pattern_deletion_keeps_local_only_key :
  let st := mkState {["tokens:erd1carol" := (JNum 3, 300%Q)]}
                    {["tokens:erd1bob" := ("2", Some 600%Q)]} ∅ [] [] 0 () in
  let '(result, st') := deleteInCache starGlob "tokens:*" st in
  result = Ok ["tokens:erd1bob"] ∧
  localStore st' !! "tokens:erd1carol" = Some (JNum 3, 300%Q).
Proof. vm_compute. split; reflexivity. Qed.

(** *** What a transfer invalidates *)

Section TransferInvalidation.
Context {W : Type}.
Variable glob : string → string → bool.

(** X30. [tryInvalidateTokenBalance] acts only on a transaction whose
    function name is [ESDTTransfer]: any other transaction leaves the
    state as it is.  For a transfer between addresses without [*] it
    issues two [DEL]s, for the token list of the sender and then for that
    of the receiver, after which neither tier holds either list, every
    other key keeping its entries. *)
Theorem tryInvalidateTokenBalance_effects (transaction : ShardTransaction)
    (st : State W) :
  (getDataFunctionName transaction ≠ Some "ESDTTransfer" →
     tryInvalidateTokenBalance glob transaction st = (Ok [], st)) ∧
  (getDataFunctionName transaction = Some "ESDTTransfer" →
   includesStar ("tokens:" +:+ sender transaction) = false →
   includesStar ("tokens:" +:+ receiver transaction) = false →
   ∃ st',
     tryInvalidateTokenBalance glob transaction st = (Ok [], st') ∧
     redisCalls st'
     = redisCalls st ++ [CallDel ("tokens:" +:+ sender transaction);
                         CallDel ("tokens:" +:+ receiver transaction)] ∧
     (∀ key,
        key = "tokens:" +:+ sender transaction
        ∨ key = "tokens:" +:+ receiver transaction →
        localStore st' !! key = None ∧ redisStore st' !! key = None) ∧
     (∀ key,
        key ≠ "tokens:" +:+ sender transaction →
        key ≠ "tokens:" +:+ receiver transaction →
        localStore st' !! key = localStore st !! key
        ∧ redisStore st' !! key = redisStore st !! key)).
Proof.
  unfold tryInvalidateTokenBalance. split.
  - intros Hname. by rewrite bool_decide_eq_false_2.
  - intros Hname Hsender Hreceiver.
    rewrite bool_decide_eq_true_2 by exact Hname.
    erewrite bind_Ok; last first.
    { erewrite bind_Ok by (apply deleteInCache_without_star; exact Hsender).
      erewrite bind_Ok by (apply deleteInCache_without_star; exact Hreceiver).
      reflexivity. }
    eexists. split; [reflexivity|]. simpl.
    split; [by rewrite <- app_assoc|]. split.
    + intros key [-> | ->].
      * destruct (decide ("tokens:" +:+ receiver transaction
                          = "tokens:" +:+ sender transaction)) as [-> | Hne].
        -- by rewrite !lookup_delete_eq.
        -- by rewrite !(lookup_delete_ne _ _ _ Hne), !lookup_delete_eq.
      * by rewrite !lookup_delete_eq.
    + intros key Hs Hr. by rewrite !lookup_delete_ne.
Qed.
End TransferInvalidation.

(** *** The single-key path: hits and failures *)

Section SingleKeyPaths.
Context {W : Type}.
Variable configService : Config.
Variable JSON_parse : JsValue → Result JsValue.
Variable JSON_stringify : JsValue → string.

(** What [executeWithPendingPromise] does with a population function
    when nobody else is populating the key: the function runs once, its
    outcome is the outcome of the call and the table is as before. *)
Lemma withPendingPromise_liftWorld (key : string) (promise : Populate W JsValue)
    (st : State W) :
  pendingPromises st !! key = None →
  withPendingPromise key (liftWorld promise) st
  = (fst (promise (world st)), setWorld (snd (promise (world st))) st).
Proof.
  intros Hnone. unfold withPendingPromise, executeWithPendingPromise.
  rewrite Hnone. unfold callAsync, liftWorld.
  destruct (promise (world st)) as [outcome w']. simpl.
  rewrite delete_insert_eq, delete_id by done. by destruct st.
Qed.

(** X16. A miss on the local tier followed by a remote read that is
    neither [undefined] nor [null] is a hit, whatever else the value is
    (0, false and the empty text included): [getOrSetCache] returns it,
    passes it to the local tier with the local TTL in force, without the
    test for a positive TTL that the miss path makes, and neither invokes
    the population function nor writes to Redis.  When that TTL is
    positive, a call for the key made in a state whose local tier holds
    the entry, as the state left does, is served from there. *)
Theorem getOrSetCache_remote_hit (key : string) (promise : Populate W JsValue)
    (remoteTtl localTtl : option Q) (cached : JsValue) (st : State W) :
  let remote := ttlOrDefault configService remoteTtl in
  let loc :=
    match localTtl with
    | Some t => if Qeq_bool t 0 then (remote / 2)%Q else t
    | None => (remote / 2)%Q
    end in
  localStore st !! key = None →
  pendingPromises st !! ("caching:get:" +:+ key) = None →
  JSON_parse (redisReply st key) = Ok cached →
  cached ≠ JUndefined → cached ≠ JNull →
  ∃ st',
    getOrSetCache configService JSON_parse JSON_stringify key promise
      remoteTtl localTtl st = (Ok cached, st') ∧
    localStore st' = <[key := (cached, loc)]> (localStore st) ∧
    redisStore st' = redisStore st ∧
    redisCalls st' = redisCalls st ++ [CallGet key] ∧
    world st' = world st ∧
    ((0 < loc)%Q →
     ∀ (st2 : State W) promise' remoteTtl' localTtl',
       localStore st2 !! key = localStore st' !! key →
       getOrSetCache configService JSON_parse JSON_stringify key promise'
         remoteTtl' localTtl' st2 = (Ok cached, st2)).
Proof.
  intros remote loc Hlocal Hnone Hparse Hdef Hnull.
  destruct (getCacheRemote_run JSON_parse key st Hnone)
    as (st1 & Hget & Hlocal1 & Hredis1 & _ & Hcalls1 & _ & Hworld1).
  rewrite Hparse in Hget.
  assert (Hhit : negb (is_undefined cached) && negb (is_null cached) = true)
    by by destruct cached.
  unfold getOrSetCache. fold remote. fold loc.
  unfold bind at 1. unfold getCacheLocal at 1. rewrite Hlocal. simpl.
  unfold bind at 1. rewrite Hget, Hhit.
  eexists. split; [reflexivity|]. simpl.
  rewrite Hlocal1, Hredis1, Hcalls1, Hworld1.
  split; [reflexivity|]. split; [reflexivity|]. split; [reflexivity|].
  split; [reflexivity|].
  intros Hpositive st2 promise' remoteTtl' localTtl' Hheld.
  unfold getOrSetCache, bind, getCacheLocal.
  rewrite Hheld, lookup_insert_eq. by destruct cached.
Qed.

(** X17. When both tiers miss and the population function fails,
    [getOrSetCache] fails with the same error and caches nothing: both
    stores and the table of pending promises are as they were, so the
    next call populates again. *)
Theorem getOrSetCache_population_fails (key : string)
    (promise : Populate W JsValue) (remoteTtl localTtl : option Q)
    (cached error : JsValue) (world' : W) (st : State W) :
  localStore st !! key = None →
  pendingPromises st !! ("caching:get:" +:+ key) = None →
  pendingPromises st !! ("caching:set:" +:+ key) = None →
  JSON_parse (redisReply st key) = Ok cached →
  cached = JUndefined ∨ cached = JNull →
  promise (world st) = (Throw error, world') →
  ∃ st',
    getOrSetCache configService JSON_parse JSON_stringify key promise
      remoteTtl localTtl st = (Throw error, st') ∧
    localStore st' = localStore st ∧
    redisStore st' = redisStore st ∧
    pendingPromises st' = pendingPromises st ∧
    redisCalls st' = redisCalls st ++ [CallGet key] ∧
    world st' = world'.
Proof.
  intros Hlocal Hget Hset Hparse Hmiss Hpromise.
  destruct (getCacheRemote_run JSON_parse key st Hget)
    as (st1 & Hrun & Hlocal1 & Hredis1 & Hpending1 & Hcalls1 & _ & Hworld1).
  rewrite Hparse in Hrun.
  assert (Hcached : negb (is_undefined cached) && negb (is_null cached) = false)
    by (destruct Hmiss as [-> | ->]; reflexivity).
  unfold getOrSetCache.
  unfold bind at 1. unfold getCacheLocal at 1. rewrite Hlocal. simpl.
  unfold bind at 1. rewrite Hrun, Hcached.
  unfold bind at 1.
  rewrite withPendingPromise_liftWorld by by rewrite Hpending1.
  rewrite Hworld1, Hpromise. simpl.
  eexists. split; [reflexivity|]. simpl. by repeat split.
Qed.

(** X18. When both tiers miss, the population function returns a value
    other than [undefined] and the local TTL in force is positive,
    [getOrSetCache] invokes the function once and leaves the value in
    the local tier; a call for the key made in a state whose local tier
    holds that entry, as the state left does, returns the value from
    there, whatever function and TTLs it passes, without invoking
    anything and without changing the state. *)
Theorem getOrSetCache_populates_once (key : string)
    (promise : Populate W JsValue) (remoteTtl localTtl : option Q)
    (cached value : JsValue) (world' : W) (st : State W) :
  let remote := ttlOrDefault configService remoteTtl in
  let loc :=
    match localTtl with
    | Some t => if Qeq_bool t 0 then (remote / 2)%Q else t
    | None => (remote / 2)%Q
    end in
  localStore st !! key = None →
  pendingPromises st !! ("caching:get:" +:+ key) = None →
  pendingPromises st !! ("caching:set:" +:+ key) = None →
  JSON_parse (redisReply st key) = Ok cached →
  cached = JUndefined ∨ cached = JNull →
  promise (world st) = (Ok value, world') →
  value ≠ JUndefined →
  (0 < loc)%Q →
  ∃ st',
    getOrSetCache configService JSON_parse JSON_stringify key promise
      remoteTtl localTtl st = (Ok value, st') ∧
    world st' = world' ∧
    localStore st' !! key = Some (value, loc) ∧
    pendingPromises st' = pendingPromises st ∧
    ∀ (st2 : State W) promise' remoteTtl' localTtl',
      localStore st2 !! key = localStore st' !! key →
      getOrSetCache configService JSON_parse JSON_stringify key promise'
        remoteTtl' localTtl' st2 = (Ok value, st2).
Proof.
  intros remote loc Hlocal Hget Hset Hparse Hmiss Hpromise Hdef Hloc.
  destruct (getCacheRemote_run JSON_parse key st Hget)
    as (st1 & Hrun & Hlocal1 & Hredis1 & Hpending1 & Hcalls1 & _ & Hworld1).
  rewrite Hparse in Hrun.
  assert (Hcached : negb (is_undefined cached) && negb (is_null cached) = false)
    by (destruct Hmiss as [-> | ->]; reflexivity).
  assert (Hpositive : Qlt_bool 0 loc = true).
  { unfold Qlt_bool. destruct (Qle_bool loc 0) eqn:Hle; [|reflexivity].
    apply Qle_bool_iff in Hle. exfalso. by eapply Qlt_not_le. }
  unfold getOrSetCache. fold remote. fold loc.
  unfold bind at 1. unfold getCacheLocal at 1. rewrite Hlocal. simpl.
  unfold bind at 1. rewrite Hrun, Hcached.
  unfold bind at 1.
  rewrite withPendingPromise_liftWorld by by rewrite Hpending1.
  rewrite Hworld1, Hpromise. simpl. rewrite Hpositive.
  assert (Hsecond : ∀ st' : State W,
            localStore st' !! key = Some (value, loc) →
            ∀ promise' remoteTtl' localTtl',
              getOrSetCache configService JSON_parse JSON_stringify key
                promise' remoteTtl' localTtl' st' = (Ok value, st')).
  { intros st' Hst' promise' remoteTtl' localTtl'.
    unfold getOrSetCache, bind, getCacheLocal. rewrite Hst'.
    by destruct value. }
  destruct (Qlt_bool 0 remote); (eexists; split; [reflexivity|]); simpl;
    (split; [reflexivity|]); rewrite lookup_insert_eq;
    (split; [reflexivity|]); (split; [exact Hpending1|]);
    intros st2 promise' remoteTtl' localTtl' Hheld;
    by apply Hsecond.
Qed.
End SingleKeyPaths.

(** The remote tier holds 0 for the key: a hit, kept locally for half
    the default TTL. *)
Lemma getOrSetCache_remote_hit_witness :
  let st := mkState ∅ {["k" := ("0", Some 600%Q)]} ∅ [] [] 0%nat 0%nat in
  ∃ st',
    getOrSetCache exampleConfig scalarParse scalarStringify "k" populateSeven
      None None st = (Ok (JNum 0), st') ∧
    localStore st' = <["k" := (JNum 0, (600 / 2)%Q)]> (localStore st) ∧
    redisStore st' = redisStore st ∧
    redisCalls st' = redisCalls st ++ [CallGet "k"] ∧
    world st' = world st ∧
    ((0 < 600 / 2)%Q →
     ∀ (st2 : State nat) promise' remoteTtl' localTtl',
       localStore st2 !! "k" = localStore st' !! "k" →
       getOrSetCache exampleConfig scalarParse scalarStringify "k" promise'
         remoteTtl' localTtl' st2 = (Ok (JNum 0), st2)).
Proof.
  intros st.
  apply (getOrSetCache_remote_hit exampleConfig scalarParse scalarStringify
           "k" populateSeven None None (JNum 0) st);
    first [reflexivity | discriminate].
Defined.

Lemma getOrSetCache_population_fails_witness :
  ∃ st',
    getOrSetCache exampleConfig scalarParse scalarStringify "k"
      (alwaysFails ()) None None (emptyState 0%nat)
    = (Throw (JStr "unreachable upstream"), st') ∧
    localStore st' = localStore (emptyState 0%nat) ∧
    redisStore st' = redisStore (emptyState 0%nat) ∧
    pendingPromises st' = pendingPromises (emptyState 0%nat) ∧
    redisCalls st' = redisCalls (emptyState 0%nat) ++ [CallGet "k"] ∧
    world st' = 1%nat.
Proof.
  apply (getOrSetCache_population_fails exampleConfig scalarParse
           scalarStringify "k" (alwaysFails ()) None None JNull
           (JStr "unreachable upstream") 1%nat (emptyState 0%nat));
    first [reflexivity | by right].
Defined.

Lemma getOrSetCache_populates_once_witness :
  ∃ st',
    getOrSetCache exampleConfig scalarParse scalarStringify "k" populateSeven
      None None (emptyState 0%nat) = (Ok (JNum 7), st') ∧
    world st' = 1%nat ∧
    localStore st' !! "k" = Some (JNum 7, (600 / 2)%Q) ∧
    pendingPromises st' = pendingPromises (emptyState 0%nat) ∧
    ∀ (st2 : State nat) promise' remoteTtl' localTtl',
      localStore st2 !! "k" = localStore st' !! "k" →
      getOrSetCache exampleConfig scalarParse scalarStringify "k" promise'
        remoteTtl' localTtl' st2 = (Ok (JNum 7), st2).
Proof.
  apply (getOrSetCache_populates_once exampleConfig scalarParse
           scalarStringify "k" populateSeven None None JNull (JNum 7) 1%nat
           (emptyState 0%nat));
    first [reflexivity | discriminate | by right].
Defined.

(** *** The shape of the chunks *)

Section ChunkShape.
Context {T : Type}.

Lemma chunked_take_drop (size : nat) (array : list T) (chunks : list (list T))
    (c : nat) (chunk : list T) :
  chunked size array chunks →
  chunks !! c = Some chunk →
  chunk = take size (drop (size * c) array).
Proof.
  intros [Hconcat [-> | (full & last & -> & Hfull & Hlast)]] Hchunk; [done|].
  subst array. revert c Hchunk.
  induction Hfull as [|first full Hfirst _ IH]; intros c Hchunk.
  - destruct c as [|c]; [|done]. injection Hchunk as <-.
    simpl. rewrite app_nil_r, Nat.mul_0_r, drop_0.
    rewrite take_ge; [done | lia].
  - destruct c as [|c]; simpl in Hchunk.
    + injection Hchunk as <-. rewrite Nat.mul_0_r, drop_0. cbn [app concat].
      by rewrite take_app_length' by done.
    + cbn [app concat]. rewrite drop_app_ge by lia.
      rewrite Hfirst. replace (size * Datatypes.S c - size)%nat with (size * c)%nat by lia.
      by apply IH.
Qed.

(** X19. For a positive [size], [getChunks] cuts the array into
    consecutive pieces: chunk [c] is the [size] elements from position
    [size * c] on, or those that are left; no chunk is empty, there are
    [ceil(n / size)] of them for [n] elements and, put end to end, they
    give the array back. *)
Theorem getChunks_consecutive (array : list T) (size : nat) :
  (0 < size)%nat →
  concat (getChunks array size) = array ∧
  length (getChunks array size) = ((length array + (size - 1)) / size)%nat ∧
  Forall (λ chunk, (0 < length chunk ≤ size)%nat) (getChunks array size) ∧
  ∀ c chunk, getChunks array size !! c = Some chunk →
             chunk = take size (drop (size * c) array).
Proof.
  intros Hsize. pose proof (getChunks_chunked array size Hsize) as Hchunked.
  split; [apply Hchunked|].
  split; [by apply chunked_length|].
  split; [by eapply chunked_sizes|].
  intros c chunk. by apply chunked_take_drop.
Qed.
End ChunkShape.

Lemma getChunks_consecutive_witness :
  concat (getChunks [1; 2; 3; 4; 5]%nat 2) = [1; 2; 3; 4; 5]%nat ∧
  length (getChunks [1; 2; 3; 4; 5]%nat 2)
  = ((length [1; 2; 3; 4; 5]%nat + (2 - 1)) / 2)%nat ∧
  Forall (λ chunk, (0 < length chunk ≤ 2)%nat) (getChunks [1; 2; 3; 4; 5]%nat 2) ∧
  ∀ c chunk, getChunks [1; 2; 3; 4; 5]%nat 2 !! c = Some chunk →
             chunk = take 2 (drop (2 * c) [1; 2; 3; 4; 5]%nat).
Proof. apply (getChunks_consecutive [1; 2; 3; 4; 5]%nat 2). lia. Defined.

(** *** Jitter of an integral TTL *)

Section JitterShape.
Context {W : Type}.
Variable Math_random_source : nat → Q.

(** X20. [spreadTtl] moves a TTL by a whole number of seconds, so an
    integral TTL stays integral; it draws two random numbers when the TTL
    is at least 300 and none below, and touches nothing else. *)
Theorem spreadTtl_whole_seconds (ttl : Q) (st : State W) :
  ∃ (ttl' : Q) (offset : Z) (st' : State W),
    spreadTtl Math_random_source ttl st = (Ok ttl', st') ∧
    (ttl' == ttl + inject_Z offset)%Q ∧
    (∀ n, (ttl == inject_Z n)%Q → (ttl' == inject_Z (n + offset))%Q) ∧
    randomDraws st'
    = (randomDraws st + if Qle_bool 300 ttl then 2 else 0)%nat ∧
    setRandomDraws (randomDraws st) st' = st.
Proof.
  unfold spreadTtl. destruct (Qle_bool 300 ttl).
  - eexists _, (_ * _)%Z, _. split; [reflexivity|].
    split; [by rewrite inject_Z_mult|]. split; [|split].
    + intros n Hn. rewrite inject_Z_plus, inject_Z_mult.
      apply Qplus_comp; [exact Hn | reflexivity].
    + simpl. lia.
    + by destruct st.
  - exists ttl, 0%Z, st. split; [reflexivity|].
    split; [by rewrite Qplus_0_r|]. split; [|split].
    + intros n Hn. by rewrite Z.add_0_r.
    + lia.
    + by destruct st.
Qed.
End JitterShape.

(** *** Batch reads of any length *)

Lemma countMGet_chunks (chunks : list (list string)) :
  countMGet (map CallMGet chunks) = length chunks.
Proof. induction chunks as [|chunk chunks IH]; simpl; by rewrite ?IH. Qed.

Section BatchRead.
Context {W : Type}.
Variable JSON_parse : JsValue → Result JsValue.

Lemma batchGetCache_chunk_run (st s : State W) (chunkKeys : list string) :
  redisStore s = redisStore st →
  Forall (λ key, ∃ cached, batchRead JSON_parse st key = Ok cached) chunkKeys →
  batchGetCache_chunk JSON_parse chunkKeys s
  = (Ok (map (λ key, hitOrPopulated JSON_parse st key JNull) chunkKeys),
     recordCall (CallMGet chunkKeys) s).
Proof.
  intros Hstore Hread. unfold batchGetCache_chunk.
  erewrite bind_Ok by reflexivity.
  replace (map (redisReply s) chunkKeys) with (map (redisReply st) chunkKeys)
    by (apply map_ext; intros key; unfold redisReply; by rewrite Hstore).
  by apply mapM_decode_run.
Qed.

Lemma mapM_batchGetCache_chunk_run (st s : State W)
    (chunks : list (list string)) :
  redisStore s = redisStore st →
  Forall (λ key, ∃ cached, batchRead JSON_parse st key = Ok cached)
         (concat chunks) →
  mapM (batchGetCache_chunk JSON_parse) chunks s
  = (Ok (map (map (λ key, hitOrPopulated JSON_parse st key JNull)) chunks),
     mkState (localStore s) (redisStore s) (pendingPromises s)
             (redisCalls s ++ map CallMGet chunks) (logged s)
             (randomDraws s) (world s)).
Proof.
  revert s. induction chunks as [|chunk chunks IH]; intros s Hstore Hread.
  - destruct s. simpl. by rewrite app_nil_r.
  - simpl in Hread. apply Forall_app in Hread as [Hchunk Hrest].
    rewrite mapM_cons.
    erewrite bind_Ok by by apply batchGetCache_chunk_run.
    erewrite bind_Ok by by apply IH.
    unfold ret. simpl. by rewrite <- app_assoc.
Qed.

(** X21. When every text stored under one of the keys deserializes,
    [batchGetCache] returns one value per key, in the order of the keys,
    for any number of keys: what [JSON.parse] makes of the text stored
    under the key, and [null] for a key under which nothing, or the
    empty text, is stored.  The keys are read a hundred at a time, one
    [MGET] per chunk, and no store is changed. *)
Theorem batchGetCache_in_order (keys : list string) (st : State W) :
  (∀ key text ex,
     key ∈ keys → redisStore st !! key = Some (text, ex) →
     text ≠ EmptyString → ∃ value, JSON_parse (JStr text) = Ok value) →
  ∃ results st',
    batchGetCache JSON_parse keys st = (Ok results, st') ∧
    length results = length keys ∧
    (∀ i key, keys !! i = Some key →
       match redisStore st !! key with
       | Some (text, _) =>
           if String.eqb text EmptyString then results !! i = Some JNull
           else ∃ value, JSON_parse (JStr text) = Ok value
                         ∧ results !! i = Some value
       | None => results !! i = Some JNull
       end) ∧
    redisCalls st' = redisCalls st ++ map CallMGet (getChunks keys 100) ∧
    countMGet (redisCalls st')
    = (countMGet (redisCalls st) + (length keys + 99) / 100)%nat ∧
    localStore st' = localStore st ∧ redisStore st' = redisStore st.
Proof.
  intros Hparse.
  assert (Hread : Forall (λ key, ∃ cached, batchRead JSON_parse st key = Ok cached)
                         keys).
  { apply Forall_forall. intros key Hkey. apply batchRead_parses.
    intros text ex. by apply Hparse. }
  pose proof (getChunks_chunked keys 100 ltac:(lia)) as Hchunked.
  pose proof (chunked_length 100 _ _ ltac:(lia) Hchunked) as Hlength.
  destruct Hchunked as [Hconcat _].
  unfold batchGetCache.
  erewrite bind_Ok; last first.
  { apply (mapM_batchGetCache_chunk_run st); [done|]. by rewrite Hconcat. }
  unfold ret. rewrite <- concat_map, Hconcat.
  eexists _, _. split; [reflexivity|]. simpl.
  split; [by rewrite length_map|]. split; [|split; [|split]].
  - intros i key Hi. rewrite list_lookup_fmap, Hi. simpl.
    pose proof (hitOrPopulated_read JSON_parse st key) as Hvalue.
    destruct (redisStore st !! key) as [[text ex]|] eqn:Hstore;
      [|by rewrite Hvalue].
    destruct (String.eqb text EmptyString) eqn:Hempty; [by rewrite Hvalue|].
    apply String.eqb_neq in Hempty.
    destruct (Hparse key text ex) as [value Hok];
      [by eapply list_elem_of_lookup_2 | done | done |].
    exists value. split; [done|]. by rewrite (Hvalue value Hok).
  - reflexivity.
  - rewrite countMGet_app, countMGet_chunks, Hlength. reflexivity.
  - done.
Qed.
End BatchRead.

Lemma batchGetCache_in_order_witness :
  ∃ results st',
    batchGetCache scalarParse ["k:a"; "k:b"; "k:c"] oneHitState
    = (Ok results, st') ∧
    length results = length ["k:a"; "k:b"; "k:c"] ∧
    (∀ i key, ["k:a"; "k:b"; "k:c"] !! i = Some key →
       match redisStore oneHitState !! key with
       | Some (text, _) =>
           if String.eqb text EmptyString then results !! i = Some JNull
           else ∃ value, scalarParse (JStr text) = Ok value
                         ∧ results !! i = Some value
       | None => results !! i = Some JNull
       end) ∧
    redisCalls st'
    = redisCalls oneHitState
      ++ map CallMGet (getChunks ["k:a"; "k:b"; "k:c"] 100) ∧
    countMGet (redisCalls st')
    = (countMGet (redisCalls oneHitState)
       + (length ["k:a"; "k:b"; "k:c"] + 99) / 100)%nat ∧
    localStore st' = localStore oneHitState ∧
    redisStore st' = redisStore oneHitState.
Proof.
  apply (batchGetCache_in_order scalarParse ["k:a"; "k:b"; "k:c"] oneHitState).
  intros key text ex Hkey Hstore _.
  unfold oneHitState in Hstore. simpl in Hstore.
  apply lookup_singleton_Some in Hstore as [_ Hentry].
  injection Hentry as <- _. by eexists.
Defined.

(** The batch read of the reference state: 7 for [k:b], [null] for the
    keys that are not stored. *)
Example batchGetCache_a_b_c :
  fst (batchGetCache scalarParse ["k:a"; "k:b"; "k:c"] oneHitState)
  = Ok [JNull; JNum 7; JNull].
Proof. reflexivity. Qed.

(** *** Batches that skip the read *)

Lemma fmap_const_replicate {A B} (x : B) (l : list A) :
  map (λ _, x) l = replicate (length l) x.
Proof. induction l as [|a l IH]; simpl; by rewrite ?IH. Qed.

Section SkipCache.
Context {W IN : Type}.
Variable configService : Config.
Variable JSON_parse : JsValue → Result JsValue.
Variable JSON_stringify : JsValue → string.
Variable Math_random_source : nat → Q.
Variable cacheKeyFunction : IN → string.
Variable handler : IN → Populate W JsValue.
Variable populated : IN → JsValue.
Variable ttl : option Q.
Hypothesis handler_returns :
  ∀ item w, ∃ w', handler item w = (Ok (populated item), w').

Lemma batchProcessChunk_skipCache (payload : list IN) (st : State W) :
  ∃ st1 calls,
    batchProcessChunk configService JSON_parse JSON_stringify
      Math_random_source payload cacheKeyFunction handler ttl true st
    = (Ok (map populated payload), st1) ∧
    redisCalls st1 = redisCalls st ++ calls ∧
    Forall (λ call, ∃ sets, call = CallMulti sets) calls ∧
    length calls = match payload with [] => 0%nat | _ => 1%nat end.
Proof.
  destruct payload as [|item0 payload'].
  { exists st, []. split; [reflexivity|]. rewrite app_nil_r. by repeat split. }
  set (payload := item0 :: payload').
  pose proof (batchProcessChunk_assemble JSON_parse cacheKeyFunction populated
                (setRedisStore ∅ st) payload) as Hassemble.
  cbv zeta in Hassemble.
  assert (Hnull : ∀ key p,
            hitOrPopulated JSON_parse (setRedisStore ∅ st) key p = p).
  { intros key p. unfold hitOrPopulated, batchRead, redisReply. simpl.
    by rewrite lookup_empty. }
  rewrite (map_ext _ (λ _, JNull)) in Hassemble by (intros key; apply Hnull).
  rewrite (map_ext (λ item, hitOrPopulated _ _ _ _) populated) in Hassemble
    by (intros item; apply Hnull).
  rewrite fmap_const_replicate in Hassemble.
  set (keys := map cacheKeyFunction payload) in *.
  set (cached := replicate (length keys) JNull) in *.
  set (missing := missingIndices cached) in *.
  unfold batchProcessChunk. fold keys.
  erewrite bind_Ok by reflexivity. fold cached. fold missing.
  destruct (length missing =? 0)%nat eqn:Hmissing; simpl negb; cbv iota.
  - apply Nat.eqb_eq, nil_length_inv in Hmissing.
    assert (Hin : 0%nat ∈ missing)
      by (apply elem_of_missingIndices; by exists JNull).
    rewrite Hmissing in Hin. by apply elem_of_nil in Hin.
  - destruct (asyncPool_run handler populated (getPoolLimit configService)
                (omap (λ index, payload !! index) missing) st handler_returns)
      as (w' & Hpool).
    set (values := map populated (omap (λ index, payload !! index) missing)) in *.
    destruct (batchSetCache_run configService JSON_stringify
                Math_random_source (missingKeys keys missing) values
                (map (λ value,
                        if truthy value then ttlOrDefault configService ttl
                        else Math_min (ttlOrDefault configService ttl)
                                      (getProcessTtl configService)) values)
                (setWorld w' st))
      as (draws & store & sets & Hset & Hsets).
    eexists _, [CallMulti sets]. split; [|split; [|split]].
    + erewrite bind_Ok; last first.
      { erewrite bind_Ok by exact Hpool.
        erewrite bind_Ok by exact Hset. reflexivity. }
      unfold ret. f_equal. f_equal. exact Hassemble.
    + reflexivity.
    + repeat constructor. by eexists.
    + reflexivity.
Qed.

Lemma batchProcess_chunks_skipCache (fuel : nat) (chunks : list (list IN))
    (result : list JsValue) (st : State W) :
  (0 < fuel)%nat →
  Forall (λ chunk, (0 < length chunk)%nat) chunks →
  ∃ st' calls,
    batchProcess_chunks configService JSON_parse JSON_stringify
      Math_random_source fuel chunks cacheKeyFunction handler ttl true
      result st
    = Some (Ok (result ++ map populated (concat chunks)), st') ∧
    redisCalls st' = redisCalls st ++ calls ∧
    Forall (λ call, ∃ sets, call = CallMulti sets) calls ∧
    length calls = length chunks.
Proof.
  intros Hfuel Hsizes. revert result st.
  induction Hsizes as [|chunk chunks Hsize _ IH]; intros result st.
  - exists st, []. simpl. rewrite !app_nil_r. by repeat split.
  - destruct (batchProcessChunk_skipCache chunk st)
      as (st1 & calls1 & Hrun & Hcalls1 & Hmulti1 & Hlen1).
    destruct (IH (result ++ map populated chunk) st1)
      as (st' & calls & Hloop & Hcalls & Hmulti & Hlen).
    exists st', (calls1 ++ calls). split; [|split; [|split]].
    + destruct fuel as [|fuel']; [lia|]. simpl. rewrite Hrun.
      simpl in Hloop. rewrite Hloop. by rewrite map_app, app_assoc.
    + by rewrite Hcalls, Hcalls1, app_assoc.
    + by apply Forall_app.
    + rewrite length_app, Hlen1, Hlen. destruct chunk; simpl in *; lia.
Qed.

(** X22. With [skipCache] set and a handler that returns
    [populated item] for every item, [batchProcess] reads nothing: its
    result is the handler's value for every item, in the order of the
    items, whatever the cache holds, and no [MGET] is issued.  The
    write-back is not skipped: the calls it makes on Redis are one
    [MULTI] per chunk of 100 items. *)
Theorem batchProcess_skipCache (fuel : nat) (payload : list IN) (st : State W) :
  (0 < fuel)%nat →
  ∃ st' calls,
    batchProcess configService JSON_parse JSON_stringify Math_random_source
      fuel payload cacheKeyFunction handler ttl true st
    = Some (Ok (map populated payload), st') ∧
    redisCalls st' = redisCalls st ++ calls ∧
    Forall (λ call, ∃ sets, call = CallMulti sets) calls ∧
    length calls = ((length payload + 99) / 100)%nat ∧
    countMGet (redisCalls st') = countMGet (redisCalls st).
Proof.
  intros Hfuel.
  pose proof (getChunks_chunked payload 100 ltac:(lia)) as Hchunked.
  pose proof (chunked_sizes 100 _ _ ltac:(lia) Hchunked) as Hsizes.
  pose proof (chunked_length 100 _ _ ltac:(lia) Hchunked) as Hlength.
  destruct Hchunked as [Hconcat _].
  destruct (batchProcess_chunks_skipCache fuel (getChunks payload 100) [] st
              Hfuel)
    as (st' & calls & Hrun & Hcalls & Hmulti & Hlen).
  { eapply Forall_impl; [exact Hsizes|]. simpl. lia. }
  rewrite Hconcat in Hrun. simpl in Hrun.
  exists st', calls. split; [exact Hrun|]. split; [exact Hcalls|].
  split; [exact Hmulti|]. split; [by rewrite Hlen, Hlength|].
  rewrite Hcalls, countMGet_app.
  assert (Hnone : countMGet calls = 0%nat).
  { clear -Hmulti. induction Hmulti as [|call calls [sets ->] _ IH]; [done|].
    exact IH. }
  lia.
Qed.
End SkipCache.

(** The key of item [b] is cached with 7; the batch that skips the cache
    returns the handler's text for it. *)
Lemma batchProcess_skipCache_witness :
  ∃ st' calls,
    batchProcess exampleConfig scalarParse scalarStringify (λ _, 1 # 2) 3
      ["a"; "b"; "c"] itemKey populateText (Some 600%Q) true oneHitState
    = Some (Ok (map (λ item, JStr ("v:" +:+ item)) ["a"; "b"; "c"]), st') ∧
    redisCalls st' = redisCalls oneHitState ++ calls ∧
    Forall (λ call, ∃ sets, call = CallMulti sets) calls ∧
    length calls = ((length ["a"; "b"; "c"] + 99) / 100)%nat ∧
    countMGet (redisCalls st') = countMGet (redisCalls oneHitState).
Proof.
  apply (batchProcess_skipCache exampleConfig scalarParse scalarStringify
           (λ _, 1 # 2) itemKey populateText (λ item, JStr ("v:" +:+ item))
           (Some 600%Q)).
  - intros item w. eexists. reflexivity.
  - lia.
Defined.

(** *** One result per item *)

Section BatchShape.
Context {W IN : Type}.
Variable configService : Config.
Variable JSON_parse : JsValue → Result JsValue.
Variable JSON_stringify : JsValue → string.
Variable Math_random_source : nat → Q.
Variable cacheKeyFunction : IN → string.
Variable handler : IN → Populate W JsValue.
Variable ttl : option Q.
Variable skipCache : bool.

(** X23. Whatever the key function, the handler and [skipCache] are,
    three iterations of the retry loop are enough for [batchProcess] to
    settle; when it returns, its result has exactly one entry per item,
    and for an empty payload it returns the empty array without touching
    anything. *)
Theorem batchProcess_one_result_per_item (fuel : nat) (payload : list IN)
    (st : State W) :
  (3 ≤ fuel)%nat →
  ∃ outcome st',
    batchProcess configService JSON_parse JSON_stringify Math_random_source
      fuel payload cacheKeyFunction handler ttl skipCache st
    = Some (outcome, st') ∧
    (∀ results, outcome = Ok results → length results = length payload) ∧
    (payload = [] → outcome = Ok [] ∧ st' = st).
Proof.
  intros Hfuel.
  destruct (batchProcess_returns configService JSON_parse JSON_stringify
              Math_random_source cacheKeyFunction handler ttl skipCache
              fuel payload st Hfuel) as [[outcome st'] Hrun].
  exists outcome, st'. split; [exact Hrun|]. split.
  - intros results ->. by eapply batchProcess_length.
  - intros ->. by injection Hrun as <- <-.
Qed.
End BatchShape.

Lemma batchProcess_one_result_per_item_witness :
  ∃ outcome st',
    batchProcess exampleConfig scalarParse scalarStringify (λ _, 1 # 2) 3
      ["a"; "b"; "c"] itemKey failsTwice (Some 600%Q) false oneHitState
    = Some (outcome, st') ∧
    (∀ results, outcome = Ok results → length results = length ["a"; "b"; "c"]) ∧
    (["a"; "b"; "c"] = [] → outcome = Ok [] ∧ st' = oneHitState).
Proof.
  apply (batchProcess_one_result_per_item exampleConfig scalarParse
           scalarStringify (λ _, 1 # 2) itemKey failsTwice (Some 600%Q) false
           3 ["a"; "b"; "c"] oneHitState).
  lia.
Defined.

(** *** What a batch write leaves in the two tiers *)

Lemma lookup_fold_insert_ne {V} (entries : list (string * V))
    (store : gmap string V) (k : string) :
  k ∉ map fst entries →
  fold_left (λ m e, <[e.1 := e.2]> m) entries store !! k = store !! k.
Proof.
  revert store. induction entries as [|[k' v'] entries IH]; intros store Hk;
    [done|].
  simpl in *. apply not_elem_of_cons in Hk as [Hne Hk].
  rewrite IH by done. by rewrite lookup_insert_ne.
Qed.

Lemma lookup_fold_insert {V} (entries : list (string * V))
    (store : gmap string V) (i : nat) (k : string) (v : V) :
  NoDup (map fst entries) →
  entries !! i = Some (k, v) →
  fold_left (λ m e, <[e.1 := e.2]> m) entries store !! k = Some v.
Proof.
  revert store i. induction entries as [|[k' v'] entries IH];
    intros store i Hdup Hi; [done|].
  simpl in Hdup. apply NoDup_cons in Hdup as [Hfresh Hdup].
  destruct i as [|i]; simpl in *.
  - injection Hi as -> ->. rewrite lookup_fold_insert_ne by done.
    apply lookup_insert_eq.
  - by eapply IH.
Qed.

Lemma fold_applyCommand_sets (entries : list (string * (string * option Q)))
    (store : gmap string (string * option Q)) :
  Forall (λ e, is_Some e.2.2) entries →
  fold_left applyCommand (map (λ e, CmdSet e.1 e.2.1 e.2.2) entries) store
  = fold_left (λ m e, <[e.1 := e.2]> m) entries store.
Proof.
  intros Hex. revert store.
  induction Hex as [|[k [payload ex]] entries [t Ht] _ IH]; intros store;
    [done|].
  simpl in Ht. subst ex. simpl. apply IH.
Qed.

Lemma fst_imap_keyed {V} (f : nat → string → V) (keys : list string) :
  map fst (imap (λ index key, (key, f index key)) keys) = keys.
Proof.
  apply list_eq. intros i. rewrite (list_lookup_fmap fst), list_lookup_imap.
  by destruct (keys !! i).
Qed.

Lemma mapM_length {W A B} (f : A → M W B) (l : list A) (results : list B)
    (st st' : State W) :
  mapM f l st = (Ok results, st') → length results = length l.
Proof.
  revert results st st'. induction l as [|x l IH]; intros results st st'.
  - by intros [= <- _].
  - rewrite mapM_cons. intros Hrun.
    apply bind_Ok_inv in Hrun as (y & st1 & _ & Hrun).
    apply bind_Ok_inv in Hrun as (ys & st2 & Hys & Hrun).
    injection Hrun as <- _. simpl. f_equal. by eapply IH.
Qed.

Section BatchWrites.
Context {W : Type}.
Variable configService : Config.
Variable JSON_stringify : JsValue → string.
Variable Math_random_source : nat → Q.

Lemma batchSetCache_local_store (keys : list string) (values : list JsValue)
    (ttls : list Q) (st : State W) :
  batchSetCache_local configService keys values ttls st
  = (Ok (),
     setLocalStore
       (fold_left (λ m e, <[e.1 := e.2]> m)
          (imap (λ index key,
                   (key, (default JUndefined (values !! index),
                          ttlOrDefault configService (ttls !! index))))
                keys)
          (localStore st)) st).
Proof.
  unfold batchSetCache_local.
  assert (Hloop : ∀ offset keys (s : State W),
    ∃ results,
      mapM (λ '(index, key),
              setCacheLocal configService key
                (default JUndefined (values !! index)) (ttls !! index))
           (imap (λ index key, ((offset + index)%nat, key)) keys) s
      = (Ok results,
         setLocalStore
           (fold_left (λ m e, <[e.1 := e.2]> m)
              (imap (λ index key,
                       (key, (default JUndefined (values !! (offset + index)%nat),
                              ttlOrDefault configService
                                (ttls !! (offset + index)%nat))))
                    keys)
              (localStore s)) s)).
  { intros offset keys0. revert offset.
    induction keys0 as [|key keys0 IH]; intros offset s.
    - exists []. by destruct s.
    - destruct (IH (Datatypes.S offset)
                  (setLocalStore
                     (<[key := (default JUndefined (values !! (offset + 0)%nat),
                                ttlOrDefault configService
                                  (ttls !! (offset + 0)%nat))]>
                        (localStore s)) s))
        as (results & Hrun).
      eexists. cbn [imap]. rewrite mapM_cons.
      erewrite bind_Ok by reflexivity.
      erewrite bind_Ok; last first.
      { erewrite (imap_ext _ (λ index key, ((Datatypes.S offset + index)%nat, key)));
          [exact Hrun|].
        intros i x _. simpl. f_equal. lia. }
      unfold ret. f_equal. cbn [fold_left fst snd].
      unfold setLocalStore. simpl. f_equal. f_equal.
      apply imap_ext. intros i x _. simpl.
      by replace (offset + Datatypes.S i)%nat with (Datatypes.S (offset + i))%nat by lia. }
  destruct (Hloop 0%nat keys st) as (results & Hrun).
  erewrite bind_Ok by exact Hrun. reflexivity.
Qed.

(** X24. [batchSetCache] with pairwise distinct keys, a value other
    than [undefined] and a TTL for each of them: the key at position [i]
    is written to the local tier with [values[i]] and the jittered TTL
    of position [i], and ends in the remote tier with the text of
    [values[i]] and the jittered TTL of position [i mod 25], which is
    the TTL of the key itself only among the first 25 keys.  The keys
    outside the batch keep their entries. *)
Theorem batchSetCache_writes (keys : list string) (values : list JsValue)
    (ttls : list Q) (st : State W) :
  NoDup keys →
  length values = length keys →
  length ttls = length keys →
  Forall (λ value, value ≠ JUndefined) values →
  ∃ ttls' st1 st',
    mapM (spreadTtl Math_random_source) ttls st = (Ok ttls', st1) ∧
    length ttls' = length ttls ∧
    batchSetCache configService JSON_stringify Math_random_source
      keys values ttls st = (Ok (), st') ∧
    (∀ i key, keys !! i = Some key →
       ∃ value ttl remoteTtl,
         values !! i = Some value ∧ value ≠ JUndefined ∧
         ttls' !! i = Some ttl ∧
         ttls' !! (i mod 25)%nat = Some remoteTtl ∧
         localStore st' !! key = Some (value, ttl) ∧
         redisStore st' !! key = Some (JSON_stringify value, Some remoteTtl) ∧
         ((i < 25)%nat → remoteTtl = ttl)) ∧
    (∀ key, key ∉ keys →
       localStore st' !! key = localStore st !! key ∧
       redisStore st' !! key = redisStore st !! key).
Proof.
  intros Hdup Hvalues Httls Hdefined.
  destruct (mapM_spreadTtl_run Math_random_source ttls st)
    as (ttls' & draws & Hspread).
  assert (Hlength : length ttls' = length ttls) by by eapply mapM_length.
  exists ttls'. eexists _, _. split; [exact Hspread|].
  split; [exact Hlength|].
  split.
  { unfold batchSetCache. erewrite bind_Ok by exact Hspread.
    erewrite bind_Ok by apply batchSetCache_local_store. reflexivity. }
  simpl. rewrite batchSetCache_sets_ttls.
  set (remote := imap (λ index key,
                         (key, (JSON_stringify (default JUndefined (values !! index)),
                                ttls' !! (index mod 25)%nat))) keys).
  assert (Hsets :
    imap (λ index key,
            CmdSet key (JSON_stringify (default JUndefined (values !! index)))
                   (ttls' !! (index mod 25)%nat)) keys
    = map (λ e, CmdSet e.1 e.2.1 e.2.2) remote).
  { unfold remote. apply list_eq. intros i.
    rewrite list_lookup_fmap, !list_lookup_imap. by destruct (keys !! i). }
  assert (Hexpiry : Forall (λ e : string * (string * option Q), is_Some e.2.2) remote).
  { apply Forall_forall. intros e He.
    apply elem_of_lookup_imap in He as (i & key & -> & Hi). cbn [fst snd].
    apply lookup_lt_is_Some_2. apply lookup_lt_Some in Hi.
    pose proof (Nat.Div0.mod_le i 25). lia. }
  rewrite Hsets, fold_applyCommand_sets by exact Hexpiry. split.
  - intros i key Hi.
    assert (Hlt : (i < length keys)%nat) by by eapply lookup_lt_Some.
    destruct (lookup_lt_is_Some_2 values i) as [value Hvalue]; [lia|].
    destruct (lookup_lt_is_Some_2 ttls' i) as [t Ht]; [lia|].
    destruct (lookup_lt_is_Some_2 ttls' (i mod 25)) as [t' Ht'].
    { pose proof (Nat.Div0.mod_le i 25). lia. }
    exists value, t, t'.
    split; [exact Hvalue|].
    split; [by apply (proj1 (Forall_lookup _ _) Hdefined i)|].
    split; [exact Ht|]. split; [exact Ht'|]. split; [|split].
    + rewrite (lookup_fold_insert _ _ i key (value, t)); [done| |].
      * by rewrite fst_imap_keyed.
      * by rewrite list_lookup_imap, Hi, Hvalue, Ht.
    + rewrite (lookup_fold_insert _ _ i key (JSON_stringify value, Some t'));
        [done| |].
      * unfold remote. by rewrite fst_imap_keyed.
      * unfold remote. by rewrite list_lookup_imap, Hi, Hvalue, Ht'.
    + intros Hfirst. rewrite Nat.mod_small in Ht' by exact Hfirst. congruence.
  - intros key Hkey. split.
    + apply lookup_fold_insert_ne. by rewrite fst_imap_keyed.
    + apply lookup_fold_insert_ne. unfold remote. by rewrite fst_imap_keyed.
Qed.
End BatchWrites.

Lemma batchSetCache_writes_witness :
  ∃ ttls' st1 st',
    mapM (spreadTtl (λ _, 1 # 2)) [600%Q; 60%Q] (emptyState ())
    = (Ok ttls', st1) ∧
    length ttls' = length [600%Q; 60%Q] ∧
    batchSetCache exampleConfig scalarStringify (λ _, 1 # 2)
      ["k:a"; "k:b"] [JNum 1; JNull] [600%Q; 60%Q] (emptyState ())
    = (Ok (), st') ∧
    (∀ i key, ["k:a"; "k:b"] !! i = Some key →
       ∃ value ttl remoteTtl,
         [JNum 1; JNull] !! i = Some value ∧ value ≠ JUndefined ∧
         ttls' !! i = Some ttl ∧
         ttls' !! (i mod 25)%nat = Some remoteTtl ∧
         localStore st' !! key = Some (value, ttl) ∧
         redisStore st' !! key = Some (scalarStringify value, Some remoteTtl) ∧
         ((i < 25)%nat → remoteTtl = ttl)) ∧
    (∀ key, key ∉ ["k:a"; "k:b"] →
       localStore st' !! key = localStore (emptyState ()) !! key ∧
       redisStore st' !! key = redisStore (emptyState ()) !! key).
Proof.
  apply (batchSetCache_writes exampleConfig scalarStringify (λ _, 1 # 2)
           ["k:a"; "k:b"] [JNum 1; JNull] [600%Q; 60%Q] (emptyState ())).
  - apply (bool_decide_unpack _). reflexivity.
  - reflexivity.
  - reflexivity.
  - repeat constructor; discriminate.
Defined.

(** *** Listing keys *)

Section KeysFacts.
Context {W : Type}.
Variable glob : string → string → bool.

(** X25. [getKeys] asks Redis only for a pattern that is neither
    [undefined] nor the empty text, and resolves to [undefined]
    otherwise; the keys it returns are the stored keys that match the
    pattern, each once, and no store is changed. *)
Theorem getKeys_guarded (key : option string) (st : State W) :
  (key = None ∨ key = Some EmptyString → getKeys glob key st = (Ok None, st)) ∧
  (∀ pattern, key = Some pattern → pattern ≠ EmptyString →
     ∃ keys st',
       getKeys glob key st = (Ok (Some keys), st') ∧
       NoDup keys ∧
       (∀ k, k ∈ keys ↔ is_Some (redisStore st !! k) ∧ glob pattern k = true) ∧
       redisCalls st' = redisCalls st ++ [CallKeys pattern] ∧
       localStore st' = localStore st ∧ redisStore st' = redisStore st).
Proof.
  split.
  - by intros [-> | ->].
  - intros pattern -> Hne. apply String.eqb_neq in Hne.
    unfold getKeys. rewrite Hne. simpl.
    eexists _, _. split; [reflexivity|]. simpl.
    split; [|split; [|done]].
    + apply NoDup_filter. apply (NoDup_fst_map_to_list (redisStore st)).
    + intros k. rewrite list_elem_of_filter, list_elem_of_fmap. split.
      * intros [Hglob ([k' v] & -> & Hin)]. split; [|done].
        apply elem_of_map_to_list in Hin. simpl. by eexists.
      * intros [[v Hv] Hglob]. split; [done|]. exists (k, v).
        split; [done|]. by apply elem_of_map_to_list.
Qed.
End KeysFacts.

(** *** The outbound HTTP client *)

Section ApiFacts.
Context {W : Type}.
Variable apiConfigService : ApiService.ApiConfig.
Variable JSON_parse : JsValue → Result JsValue.
Variable URL_hostname : string → Result string.
Variable axios_get :
  string → ApiService.AxiosRequestConfig → W → Result JsValue * W.
Variable axios_post :
  string → JsValue → ApiService.AxiosRequestConfig → W → Result JsValue * W.
Variable axios_head :
  string → ApiService.AxiosRequestConfig → W → Result JsValue * W.

Local Abbreviation request :=
  (ApiService.request apiConfigService JSON_parse URL_hostname).
Local Abbreviation get :=
  (ApiService.get apiConfigService JSON_parse URL_hostname axios_get).
Local Abbreviation post :=
  (ApiService.post apiConfigService JSON_parse URL_hostname axios_post).
Local Abbreviation head :=
  (ApiService.head apiConfigService JSON_parse URL_hostname axios_head).
Local Abbreviation getConfig :=
  (@ApiService.getConfig W apiConfigService JSON_parse).

Lemma getConfig_frame (timeout : option Q) (st : ApiService.ApiState W) :
  ApiService.externalCalls (snd (getConfig timeout st))
  = ApiService.externalCalls st ∧
  ApiService.errorsLogged (snd (getConfig timeout st))
  = ApiService.errorsLogged st ∧
  ApiService.network (snd (getConfig timeout st)) = ApiService.network st.
Proof.
  unfold ApiService.getConfig, ApiService.getKeepAliveAgent.
  by destruct (ApiService.keepaliveAgent st).
Qed.

Lemma request_external_call (describe : list (string * JsValue))
    (call : ApiService.AxiosRequestConfig → W → Result JsValue * W)
    (url hostname : string) (timeout : option Q)
    (errorHandler : option (JsValue → W → Result bool * W))
    (st : ApiService.ApiState W) :
  URL_hostname url = Ok hostname →
  ApiService.externalCalls
    (snd (request describe call url timeout errorHandler st))
  = ApiService.externalCalls st ++ [hostname].
Proof.
  intros Hhost. unfold ApiService.request. rewrite Hhost.
  destruct (getConfig_frame (Some (ApiService.timeoutOrDefault timeout)) st)
    as (Hcalls & _ & _).
  destruct (getConfig _ st) as [config st0]. simpl in Hcalls.
  destruct (call config (ApiService.network st0)) as [[response|error] w];
    [by rewrite <- Hcalls|].
  destruct errorHandler as [errorHandler|]; simpl.
  - destruct (errorHandler error w) as [[[|]|e] w']; simpl;
      try by rewrite <- Hcalls.
    destruct (ApiService.errorFields error); simpl; by rewrite <- Hcalls.
  - destruct (ApiService.errorFields error); simpl; by rewrite <- Hcalls.
Qed.

(** X26. Whatever the upstream and the error handler do, a request to
    an address with a host name reports exactly one external call, under
    that host name, to the metrics: on success, on a handled failure and
    on a failure that is thrown further. *)
Theorem request_reports_one_external_call (url hostname : string)
    (data : JsValue) (timeout : option Q)
    (errorHandler : option (JsValue → W → Result bool * W))
    (st : ApiService.ApiState W) :
  URL_hostname url = Ok hostname →
  ApiService.externalCalls (snd (get url timeout errorHandler st))
  = ApiService.externalCalls st ++ [hostname] ∧
  ApiService.externalCalls (snd (post url data timeout errorHandler st))
  = ApiService.externalCalls st ++ [hostname] ∧
  ApiService.externalCalls (snd (head url timeout errorHandler st))
  = ApiService.externalCalls st ++ [hostname].
Proof.
  intros Hhost. repeat split; by apply request_external_call.
Qed.

Lemma request_invalid_url (describe : list (string * JsValue))
    (call : ApiService.AxiosRequestConfig → W → Result JsValue * W)
    (url : string) (timeout : option Q)
    (errorHandler : option (JsValue → W → Result bool * W))
    (error : JsValue) (st : ApiService.ApiState W) :
  URL_hostname url = Throw error →
  fst (request describe call url timeout errorHandler st) = Throw error ∧
  ApiService.externalCalls
    (snd (request describe call url timeout errorHandler st))
  = ApiService.externalCalls st.
Proof.
  intros Hhost. unfold ApiService.request. rewrite Hhost.
  destruct (getConfig_frame (Some (ApiService.timeoutOrDefault timeout)) st)
    as (Hcalls & _ & _).
  destruct (getConfig _ st) as [config st0]. simpl in Hcalls.
  destruct (call config (ApiService.network st0)) as [[response|e] w];
    [by rewrite <- Hcalls|].
  destruct errorHandler as [errorHandler|]; simpl.
  - destruct (errorHandler e w) as [[[|]|e'] w']; simpl;
      try by rewrite <- Hcalls.
    destruct (ApiService.errorFields e); simpl; by rewrite <- Hcalls.
  - destruct (ApiService.errorFields e); simpl; by rewrite <- Hcalls.
Qed.

(** X27. When the address is not a URL, the [finally] block fails while
    computing the host name and its error is what the caller gets,
    whatever happened before: a response that did arrive is lost, a
    failure is replaced, and no external call is reported. *)
Theorem request_invalid_url_overrides (url : string) (data : JsValue)
    (timeout : option Q)
    (errorHandler : option (JsValue → W → Result bool * W))
    (error : JsValue) (st : ApiService.ApiState W) :
  URL_hostname url = Throw error →
  (fst (get url timeout errorHandler st) = Throw error ∧
   ApiService.externalCalls (snd (get url timeout errorHandler st))
   = ApiService.externalCalls st) ∧
  (fst (post url data timeout errorHandler st) = Throw error ∧
   ApiService.externalCalls (snd (post url data timeout errorHandler st))
   = ApiService.externalCalls st) ∧
  (fst (head url timeout errorHandler st) = Throw error ∧
   ApiService.externalCalls (snd (head url timeout errorHandler st))
   = ApiService.externalCalls st).
Proof.
  intros Hhost. split; [|split]; by apply request_invalid_url.
Qed.

Lemma request_failure (describe : list (string * JsValue))
    (call : ApiService.AxiosRequestConfig → W → Result JsValue * W)
    (url hostname : string) (timeout : option Q)
    (errorHandler : option (JsValue → W → Result bool * W))
    (error : JsValue) (w : W) (st : ApiService.ApiState W) :
  URL_hostname url = Ok hostname →
  (∀ config, call config (ApiService.network st) = (Throw error, w)) →
  (∀ handler w', errorHandler = Some handler →
     handler error w = (Ok true, w') →
     fst (request describe call url timeout errorHandler st) = Ok JUndefined ∧
     ApiService.errorsLogged
       (snd (request describe call url timeout errorHandler st))
     = ApiService.errorsLogged st) ∧
  (∀ fields,
     errorHandler = None
     ∨ (∃ handler, errorHandler = Some handler
                   ∧ fst (handler error w) = Ok false) →
     ApiService.errorFields error = Ok fields →
     fst (request describe call url timeout errorHandler st)
     = Throw (JObj (describe ++ fields)) ∧
     ApiService.errorsLogged
       (snd (request describe call url timeout errorHandler st))
     = ApiService.errorsLogged st ++ [JObj (describe ++ fields)]).
Proof.
  intros Hhost Hcall. unfold ApiService.request. rewrite Hhost.
  destruct (getConfig_frame (Some (ApiService.timeoutOrDefault timeout)) st)
    as (_ & Hlogged & Hnetwork).
  destruct (getConfig _ st) as [config st0]. simpl in Hlogged, Hnetwork.
  rewrite Hnetwork, Hcall. split.
  - intros handler w' -> Hhandled. simpl. rewrite Hhandled. simpl.
    by rewrite Hlogged.
  - intros fields [-> | (handler & -> & Hhandled)] Hfields; simpl.
    + rewrite Hfields. simpl. by rewrite Hlogged.
    + destruct (handler error w) as [handled w']. simpl in Hhandled.
      subst handled. simpl. rewrite Hfields. simpl. by rewrite Hlogged.
Qed.

(** X28. A failed [get] whose error handler answers [true] resolves to
    [undefined] and logs nothing.  Without a handler, or with one that
    answers [false], it logs and throws an object that holds the method,
    the address, the data and status of the upstream response, if the
    error carries one, and the message and name of the error. *)
Theorem get_failure (url hostname : string) (timeout : option Q)
    (errorHandler : option (JsValue → W → Result bool * W))
    (error : JsValue) (w : W) (st : ApiService.ApiState W) :
  URL_hostname url = Ok hostname →
  (∀ config, axios_get url config (ApiService.network st) = (Throw error, w)) →
  (∀ handler w', errorHandler = Some handler →
     handler error w = (Ok true, w') →
     fst (get url timeout errorHandler st) = Ok JUndefined ∧
     ApiService.errorsLogged (snd (get url timeout errorHandler st))
     = ApiService.errorsLogged st) ∧
  (errorHandler = None
   ∨ (∃ handler, errorHandler = Some handler
                 ∧ fst (handler error w) = Ok false) →
   error ≠ JUndefined → error ≠ JNull →
   let response := ApiService.getPropOptional error "response" in
   let customError :=
     JObj [("method", JStr "GET"); ("url", JStr url);
           ("response", ApiService.getPropOptional response "data");
           ("status", ApiService.getPropOptional response "status");
           ("message", ApiService.getPropOptional error "message");
           ("name", ApiService.getPropOptional error "name")] in
   fst (get url timeout errorHandler st) = Throw customError ∧
   ApiService.errorsLogged (snd (get url timeout errorHandler st))
   = ApiService.errorsLogged st ++ [customError]).
Proof.
  intros Hhost Hcall.
  destruct (request_failure [("method", JStr "GET"); ("url", JStr url)]
              (axios_get url) url hostname timeout errorHandler error w st
              Hhost Hcall) as [Hhandled Hthrown].
  split; [exact Hhandled|].
  intros Hunhandled Hdef Hnull response customError.
  apply Hthrown; [exact Hunhandled|].
  unfold ApiService.errorFields, response, ApiService.getPropOptional.
  by destruct error.
Qed.

(** X29. The request configuration: a timeout that is missing or 0 is
    replaced by 30 seconds, so the timeout in force is never 0; the
    rate-limiter header is sent exactly when the configuration holds a
    secret that is not empty; the keep-alive agent is decided by the
    first request and kept, every later configuration carrying the same
    agent without the state changing any more. *)
Theorem getConfig_defaults (timeout : option Q) (st : ApiService.ApiState W) :
  let config := fst (getConfig timeout st) in
  let st' := snd (getConfig timeout st) in
  (ApiService.timeout config
   = match timeout with
     | Some t => if Qeq_bool t 0 then 30000%Q else t
     | None => 30000%Q
     end) ∧
  ¬ (ApiService.timeout config == 0)%Q ∧
  (ApiService.headers config
   = match ApiService.getRateLimiterSecret apiConfigService with
     | Some (String c secret) => [("x-rate-limiter-secret", String c secret)]
     | _ => []
     end) ∧
  ApiService.keepaliveAgent st' = Some (ApiService.httpAgent config) ∧
  (ApiService.keepaliveAgent st = None →
   ApiService.httpAgent config
   = if ApiService.getUseKeepAliveAgentFlag apiConfigService
     then Some (ApiService.mkAgent true None 10
                  (ApiService.getAxiosTimeout apiConfigService) 30000)
     else None) ∧
  ∀ timeout',
    ApiService.httpAgent (fst (getConfig timeout' st'))
    = ApiService.httpAgent config ∧
    snd (getConfig timeout' st') = st'.
Proof.
  intros config st'. unfold config, st'.
  unfold ApiService.getConfig, ApiService.getKeepAliveAgent.
  split; [by destruct (ApiService.keepaliveAgent st)|].
  split.
  { assert (Hnonzero : ¬ (ApiService.timeoutOrDefault timeout == 0)%Q).
    { unfold ApiService.timeoutOrDefault. destruct timeout as [t|]; [|done].
      destruct (Qeq_bool t 0) eqn:Ht; [done|].
      intros Hzero. apply Qeq_bool_iff in Hzero. congruence. }
    by destruct (ApiService.keepaliveAgent st). }
  split.
  { destruct (ApiService.keepaliveAgent st);
      by destruct (ApiService.getRateLimiterSecret apiConfigService)
        as [[|c secret]|]. }
  destruct (ApiService.keepaliveAgent st) as [agent|] eqn:Hagent; simpl.
  - split; [done|]. split; [done|]. intros timeout'.
    rewrite Hagent. simpl. by destruct st.
  - by repeat split.
Qed.
End ApiFacts.

Lemma request_reports_one_external_call_witness :
  ApiService.externalCalls
    (snd (ApiService.get exampleApiConfig scalarParse exampleHostname
            (λ _, axiosUnavailable)
            "https://gateway.elrond.com/network/status/1" None
            (Some handleAll) (emptyApiState 0%nat)))
  = ApiService.externalCalls (emptyApiState 0%nat) ++ ["gateway.elrond.com"] ∧
  ApiService.externalCalls
    (snd (ApiService.post exampleApiConfig scalarParse exampleHostname
            (λ _ _, axiosUnavailable)
            "https://gateway.elrond.com/network/status/1" (JStr "ping") None
            (Some handleAll) (emptyApiState 0%nat)))
  = ApiService.externalCalls (emptyApiState 0%nat) ++ ["gateway.elrond.com"] ∧
  ApiService.externalCalls
    (snd (ApiService.head exampleApiConfig scalarParse exampleHostname
            (λ _, axiosPong)
            "https://gateway.elrond.com/network/status/1" None
            (Some handleAll) (emptyApiState 0%nat)))
  = ApiService.externalCalls (emptyApiState 0%nat) ++ ["gateway.elrond.com"].
Proof.
  apply (request_reports_one_external_call exampleApiConfig scalarParse
           exampleHostname (λ _, axiosUnavailable) (λ _ _, axiosUnavailable)
           (λ _, axiosPong) "https://gateway.elrond.com/network/status/1"
           "gateway.elrond.com" (JStr "ping") None (Some handleAll)
           (emptyApiState 0%nat)).
  reflexivity.
Defined.

(** The upstream answers, the address has no scheme: the answer is lost. *)
Lemma request_invalid_url_overrides_witness :
  (fst (ApiService.get exampleApiConfig scalarParse exampleHostname
          (λ _, axiosPong) "gateway" None None (emptyApiState 0%nat))
   = Throw (JObj [("name", JStr "TypeError")]) ∧
   ApiService.externalCalls
     (snd (ApiService.get exampleApiConfig scalarParse exampleHostname
             (λ _, axiosPong) "gateway" None None (emptyApiState 0%nat)))
   = ApiService.externalCalls (emptyApiState 0%nat)) ∧
  (fst (ApiService.post exampleApiConfig scalarParse exampleHostname
          (λ _ _, axiosPong) "gateway" (JStr "ping") None None
          (emptyApiState 0%nat))
   = Throw (JObj [("name", JStr "TypeError")]) ∧
   ApiService.externalCalls
     (snd (ApiService.post exampleApiConfig scalarParse exampleHostname
             (λ _ _, axiosPong) "gateway" (JStr "ping") None None
             (emptyApiState 0%nat)))
   = ApiService.externalCalls (emptyApiState 0%nat)) ∧
  (fst (ApiService.head exampleApiConfig scalarParse exampleHostname
          (λ _, axiosPong) "gateway" None None (emptyApiState 0%nat))
   = Throw (JObj [("name", JStr "TypeError")]) ∧
   ApiService.externalCalls
     (snd (ApiService.head exampleApiConfig scalarParse exampleHostname
             (λ _, axiosPong) "gateway" None None (emptyApiState 0%nat)))
   = ApiService.externalCalls (emptyApiState 0%nat)).
Proof.
  apply (request_invalid_url_overrides exampleApiConfig scalarParse
           exampleHostname (λ _, axiosPong) (λ _ _, axiosPong) (λ _, axiosPong)
           "gateway" (JStr "ping") None None
           (JObj [("name", JStr "TypeError")]) (emptyApiState 0%nat)).
  reflexivity.
Defined.

Lemma get_failure_witness :
  (∀ handler w', Some handleAll = Some handler →
     handler unavailable 1%nat = (Ok true, w') →
     fst (ApiService.get exampleApiConfig scalarParse exampleHostname
            (λ _, axiosUnavailable)
            "https://gateway.elrond.com/network/status/1" None
            (Some handleAll) (emptyApiState 0%nat))
     = Ok JUndefined ∧
     ApiService.errorsLogged
       (snd (ApiService.get exampleApiConfig scalarParse exampleHostname
               (λ _, axiosUnavailable)
               "https://gateway.elrond.com/network/status/1" None
               (Some handleAll) (emptyApiState 0%nat)))
     = ApiService.errorsLogged (emptyApiState 0%nat)) ∧
  (Some handleAll = None
   ∨ (∃ handler, Some handleAll = Some handler
                 ∧ fst (handler unavailable 1%nat) = Ok false) →
   unavailable ≠ JUndefined → unavailable ≠ JNull →
   let response := ApiService.getPropOptional unavailable "response" in
   let customError :=
     JObj [("method", JStr "GET");
           ("url", JStr "https://gateway.elrond.com/network/status/1");
           ("response", ApiService.getPropOptional response "data");
           ("status", ApiService.getPropOptional response "status");
           ("message", ApiService.getPropOptional unavailable "message");
           ("name", ApiService.getPropOptional unavailable "name")] in
   fst (ApiService.get exampleApiConfig scalarParse exampleHostname
          (λ _, axiosUnavailable)
          "https://gateway.elrond.com/network/status/1" None
          (Some handleAll) (emptyApiState 0%nat))
   = Throw customError ∧
   ApiService.errorsLogged
     (snd (ApiService.get exampleApiConfig scalarParse exampleHostname
             (λ _, axiosUnavailable)
             "https://gateway.elrond.com/network/status/1" None
             (Some handleAll) (emptyApiState 0%nat)))
   = ApiService.errorsLogged (emptyApiState 0%nat) ++ [customError]).
Proof.
  apply (get_failure exampleApiConfig scalarParse exampleHostname
           (λ _, axiosUnavailable)
           "https://gateway.elrond.com/network/status/1" "gateway.elrond.com"
           None (Some handleAll) unavailable 1%nat (emptyApiState 0%nat)).
  - reflexivity.
  - intros config. reflexivity.
Defined.

(** The failure of the reference upstream, unhandled: what [get] throws. *)
Example get_unhandled_failure :
  fst (ApiService.get exampleApiConfig scalarParse exampleHostname
         (λ _, axiosUnavailable)
         "https://gateway.elrond.com/network/status/1" None None
         (emptyApiState 0%nat))
  = Throw (JObj [("method", JStr "GET");
                 ("url", JStr "https://gateway.elrond.com/network/status/1");
                 ("response", JStr "busy");
                 ("status", JNum 503);
                 ("message", JStr "Request failed with status code 503");
                 ("name", JStr "Error")]).
Proof. reflexivity. Qed.
